(** * BPR: the ChaCha20 and AES-CTR engines of [include/BPR/csprng.hpp]

    A shallow embedding of the two keystream engines and of the helpers
    they use from [utils.hpp] and [engine.hpp], followed by the properties
    the design document states about them.

    Conventions.
    - [uint32_t], [uint64_t] and [uint8_t] values are integers in [Z]; every
      operation that can leave the range writes its wrap-around out.
    - [std::array<T, N>] is a [list Z] read with [!!!] and updated in place
      with [<[i:=v]>].  The zero default of [!!!] is never observed by the
      code, whose indices are all in range.
    - A member function is a function from the object before the call to
      the returned value and the object after the call. *)

From Stdlib Require Import ZArith List Lia.
From stdpp Require Import base tactics option list.

Local Open Scope Z_scope.

(** ** [utils.hpp] and fixed-width arithmetic *)

Module Utils.

Definition wrap32 (x : Z) : Z := x mod 2 ^ 32.
Definition wrap64 (x : Z) : Z := x mod 2 ^ 64.

Definition is_u8 (x : Z) : Prop := 0 <= x < 2 ^ 8.
Definition is_u32 (x : Z) : Prop := 0 <= x < 2 ^ 32.

Global Instance is_u8_dec x : Decision (is_u8 x) := and_dec _ _.
Global Instance is_u32_dec x : Decision (is_u32 x) := and_dec _ _.

(** [a + b] on [uint32_t]. *)
Definition add32 (a b : Z) : Z := wrap32 (a + b).

(** [rotl<uint32_t>(x, k)]: [(x << k) | (x >> (32 - k))]. *)
Definition rotl (x k : Z) : Z :=
  Z.lor (wrap32 (Z.shiftl x k)) (Z.shiftr x (32 - k)).

End Utils.

Export Utils.

(** ** The entropy source

    [std::random_device] is used through [operator()] only, which returns
    the next [unsigned int].  A device is the sequence [src] of the values
    it will hand out; the state threaded through a constructor is the
    number of calls made so far. *)

Module Entropy.

Definition source := nat -> Z.

(** A computation that calls the device: from the number of calls made
    so far to a result and the new number of calls. *)
Definition draw (A : Type) := nat -> A * nat.

Definition ret {A} (a : A) : draw A := fun n => (a, n).
Definition bind {A B} (m : draw A) (k : A -> draw B) : draw B :=
  fun n => let '(a, n') := m n in k a n'.

(** What call number [k] (counting from zero) returns. *)
Definition value (src : source) (k : nat) : Z := wrap32 (src k).

(** [rd()] *)
Definition rd (src : source) : draw Z := fun n => (value src n, S n).

End Entropy.

Notation "x <~ m ;; k" := (Entropy.bind m (fun x => k))
  (at level 100, m at next level, right associativity).

(** ** [engine.hpp] *)

Module IEngine.

(** [IEngine({})]: the state array is value-initialised. *)
Definition init (N : nat) : list Z := replicate N 0.

End IEngine.

(** ** [class ChaCha20 : public IEngine<uint32_t, 16>] *)

Module ChaCha20.

Definition STATE_SIZE : nat := 16.

Definition EXPAND_32_BYTE_K : list Z :=
  [0x61707865; 0x3320646e; 0x79622d32; 0x6b206574].

(** *** Constructors *)

(** [explicit ChaCha20(std::random_device& rd)] *)
Definition from_device (src : Entropy.source) : Entropy.draw (list Z) :=
  let m_state := IEngine.init STATE_SIZE in
  let m_state :=
    foldl (fun st i => <[i := EXPAND_32_BYTE_K !!! i]> st) m_state (seq 0 4) in
  let key_loop :=
    foldl (fun (acc : Entropy.draw (list Z)) i =>
             st <~ acc ;;
             r0 <~ Entropy.rd src ;;
             let st := <[(4 + i * 2)%nat := r0]> st in
             r1 <~ Entropy.rd src ;;
             let st := <[(5 + i * 2)%nat := r1]> st in
             Entropy.ret st)
          (Entropy.ret m_state) (seq 0 2) in
  m_state <~ key_loop ;;
  let m_state := <[12%nat := 0]> m_state in
  let m_state := <[13%nat := 0]> m_state in
  r <~ Entropy.rd src ;;
  let m_state := <[14%nat := r]> m_state in
  r <~ Entropy.rd src ;;
  let m_state := <[15%nat := r]> m_state in
  Entropy.ret m_state.

(** [ChaCha20(const std::array<uint32_t, 8>& key,
             const std::array<uint32_t, 2>& nonce)] *)
Definition from_key (key nonce : list Z) : list Z :=
  let m_state := IEngine.init STATE_SIZE in
  let m_state :=
    foldl (fun st i => <[i := EXPAND_32_BYTE_K !!! i]> st) m_state (seq 0 4) in
  let m_state :=
    foldl (fun st i => <[(4 + i)%nat := key !!! i]> st) m_state (seq 0 8) in
  let m_state := <[12%nat := 0]> m_state in
  let m_state := <[13%nat := 0]> m_state in
  let m_state := <[14%nat := nonce !!! 0%nat]> m_state in
  let m_state := <[15%nat := nonce !!! 1%nat]> m_state in
  m_state.

(** *** [quarter_round]

    The body is twelve compound assignments through the four pointer
    parameters.  It is kept as the list of its statements, run in order
    on the array the pointers point into. *)

Inductive ptr := Pa | Pb | Pc | Pd.

Inductive stmt :=
| AddAssign (dst src : ptr)        (* [dst += src], both dereferenced *)
| XorAssign (dst src : ptr)        (* [dst ^= src], both dereferenced *)
| RotlAssign (dst : ptr) (k : Z).  (* [dst = rotl(dst, k)], dereferenced *)

Definition quarter_round_body : list stmt :=
  [ AddAssign Pa Pb; XorAssign Pd Pa; RotlAssign Pd 16;
    AddAssign Pc Pd; XorAssign Pb Pc; RotlAssign Pb 12;
    AddAssign Pa Pb; XorAssign Pd Pa; RotlAssign Pd 8;
    AddAssign Pc Pd; XorAssign Pb Pc; RotlAssign Pb 7 ].

(** Where each pointer points: an index of [working_state]. *)
Definition target (a b c d : nat) (p : ptr) : nat :=
  match p with Pa => a | Pb => b | Pc => c | Pd => d end.

Definition exec (a b c d : nat) (ws : list Z) (s : stmt) : list Z :=
  let at_ := target a b c d in
  match s with
  | AddAssign p q => <[at_ p := add32 (ws !!! at_ p) (ws !!! at_ q)]> ws
  | XorAssign p q => <[at_ p := Z.lxor (ws !!! at_ p) (ws !!! at_ q)]> ws
  | RotlAssign p k => <[at_ p := rotl (ws !!! at_ p) k]> ws
  end.

(** [quarter_round(&ws[a], &ws[b], &ws[c], &ws[d])] *)
Definition quarter_round (a b c d : nat) (ws : list Z) : list Z :=
  foldl (exec a b c d) ws quarter_round_body.

(** [round(working_state)] *)
Definition round (working_state : list Z) : list Z :=
  (* Columns *)
  let ws := quarter_round 0 4 8 12 working_state in
  let ws := quarter_round 1 5 9 13 ws in
  let ws := quarter_round 2 6 10 14 ws in
  let ws := quarter_round 3 7 11 15 ws in
  (* Diagonals *)
  let ws := quarter_round 0 5 10 15 ws in
  let ws := quarter_round 1 6 11 12 ws in
  let ws := quarter_round 2 7 8 13 ws in
  let ws := quarter_round 3 4 9 14 ws in
  ws.

(** [block()]: the returned array and [m_state] after the call. *)
Definition block (m_state : list Z) : list Z * list Z :=
  let working_state := m_state in
  let working_state := Nat.iter 10 round working_state in
  let working_state :=
    foldl (fun ws i => <[i := add32 (ws !!! i) (m_state !!! i)]> ws)
          working_state (seq 0 STATE_SIZE) in
  let m_state := <[12%nat := add32 (m_state !!! 12%nat) 1]> m_state in
  let m_state :=
    if decide (m_state !!! 12%nat = 0)
    then <[13%nat := add32 (m_state !!! 13%nat) 1]> m_state
    else m_state in
  (working_state, m_state).

(** [next()] *)
Definition next (m_state : list Z) : Z * list Z :=
  let '(result, m_state) := block m_state in
  let combined :=
    foldl (fun combined j =>
             let i := (2 * j)%nat in
             Z.lxor combined
               (Z.lor (wrap64 (Z.shiftl (result !!! i) 32))
                      (result !!! (i + 1)%nat)))
          0 (seq 0 8) in
  (combined, m_state).

(** [next512()] *)
Definition next512 (m_state : list Z) : list Z * list Z :=
  block m_state.

End ChaCha20.

(** ** Byte order

    [ChaCha20] never looks at the bytes of a word.  [AESCTR] does, through
    [reinterpret_cast<uint32_t*>] and [memcpy]: what it computes depends on
    the byte order of the host, which is a parameter of its model. *)

Module Bytes.

Inductive endian := LittleEndian | BigEndian.

(** The [n] low bytes of [v], least significant first. *)
Fixpoint le_bytes (n : nat) (v : Z) : list Z :=
  match n with
  | O => []
  | S n => v mod 256 :: le_bytes n (v / 256)
  end.

(** The value of a byte string whose first byte is the least significant. *)
Fixpoint le_value (bs : list Z) : Z :=
  match bs with
  | [] => 0
  | b :: bs => b + 256 * le_value bs
  end.

(** An integer object of [n] bytes as it lies in memory, and back. *)
Definition to_bytes (host : endian) (n : nat) (v : Z) : list Z :=
  match host with
  | LittleEndian => le_bytes n v
  | BigEndian => rev (le_bytes n v)
  end.

Definition of_bytes (host : endian) (bs : list Z) : Z :=
  match host with
  | LittleEndian => le_value bs
  | BigEndian => le_value (rev bs)
  end.

(** Reading and writing a [uint32_t] at byte offset [off] of an array. *)
Definition load32 (host : endian) (bs : list Z) (off : nat) : Z :=
  of_bytes host
    [bs !!! off; bs !!! (off + 1)%nat; bs !!! (off + 2)%nat; bs !!! (off + 3)%nat].

Definition store32 (host : endian) (off : nat) (v : Z) (bs : list Z) : list Z :=
  list_inserts off (to_bytes host 4 v) bs.

End Bytes.

Export Bytes.

(** ** [class AESCTR : public IEngine<uint8_t, 16>] *)

Module AESCTR.

Definition Nb : nat := 4.
Definition Nk : nat := 4.
Definition Nr : nat := 10.

Definition SBOX : list Z :=
  [
    0x63; 0x7c; 0x77; 0x7b; 0xf2; 0x6b; 0x6f; 0xc5; 0x30; 0x01; 0x67; 0x2b; 0xfe; 0xd7; 0xab; 0x76;
    0xca; 0x82; 0xc9; 0x7d; 0xfa; 0x59; 0x47; 0xf0; 0xad; 0xd4; 0xa2; 0xaf; 0x9c; 0xa4; 0x72; 0xc0;
    0xb7; 0xfd; 0x93; 0x26; 0x36; 0x3f; 0xf7; 0xcc; 0x34; 0xa5; 0xe5; 0xf1; 0x71; 0xd8; 0x31; 0x15;
    0x04; 0xc7; 0x23; 0xc3; 0x18; 0x96; 0x05; 0x9a; 0x07; 0x12; 0x80; 0xe2; 0xeb; 0x27; 0xb2; 0x75;
    0x09; 0x83; 0x2c; 0x1a; 0x1b; 0x6e; 0x5a; 0xa0; 0x52; 0x3b; 0xd6; 0xb3; 0x29; 0xe3; 0x2f; 0x84;
    0x53; 0xd1; 0x00; 0xed; 0x20; 0xfc; 0xb1; 0x5b; 0x6a; 0xcb; 0xbe; 0x39; 0x4a; 0x4c; 0x58; 0xcf;
    0xd0; 0xef; 0xaa; 0xfb; 0x43; 0x4d; 0x33; 0x85; 0x45; 0xf9; 0x02; 0x7f; 0x50; 0x3c; 0x9f; 0xa8;
    0x51; 0xa3; 0x40; 0x8f; 0x92; 0x9d; 0x38; 0xf5; 0xbc; 0xb6; 0xda; 0x21; 0x10; 0xff; 0xf3; 0xd2;
    0xcd; 0x0c; 0x13; 0xec; 0x5f; 0x97; 0x44; 0x17; 0xc4; 0xa7; 0x7e; 0x3d; 0x64; 0x5d; 0x19; 0x73;
    0x60; 0x81; 0x4f; 0xdc; 0x22; 0x2a; 0x90; 0x88; 0x46; 0xee; 0xb8; 0x14; 0xde; 0x5e; 0x0b; 0xdb;
    0xe0; 0x32; 0x3a; 0x0a; 0x49; 0x06; 0x24; 0x5c; 0xc2; 0xd3; 0xac; 0x62; 0x91; 0x95; 0xe4; 0x79;
    0xe7; 0xc8; 0x37; 0x6d; 0x8d; 0xd5; 0x4e; 0xa9; 0x6c; 0x56; 0xf4; 0xea; 0x65; 0x7a; 0xae; 0x08;
    0xba; 0x78; 0x25; 0x2e; 0x1c; 0xa6; 0xb4; 0xc6; 0xe8; 0xdd; 0x74; 0x1f; 0x4b; 0xbd; 0x8b; 0x8a;
    0x70; 0x3e; 0xb5; 0x66; 0x48; 0x03; 0xf6; 0x0e; 0x61; 0x35; 0x57; 0xb9; 0x86; 0xc1; 0x1d; 0x9e;
    0xe1; 0xf8; 0x98; 0x11; 0x69; 0xd9; 0x8e; 0x94; 0x9b; 0x1e; 0x87; 0xe9; 0xce; 0x55; 0x28; 0xdf;
    0x8c; 0xa1; 0x89; 0x0d; 0xbf; 0xe6; 0x42; 0x68; 0x41; 0x99; 0x2d; 0x0f; 0xb0; 0x54; 0xbb; 0x16
  ].

(** The object: the inherited [m_state], used as the counter, and
    [m_expanded_key]. *)
Record engine := Engine {
  m_state : list Z;
  m_expanded_key : list Z
}.

Section Platform.

(** Byte order of the host. *)
Variable host : endian.

(** [0x01 << k] is a shift of a 32-bit [int]; for [k >= 32] the language
    leaves it undefined.  Nothing is assumed about what it yields then. *)
Variable shl_undefined : nat -> Z.

Definition shl_int_1 (k : nat) : Z :=
  if decide (k < 32)%nat then 2 ^ Z.of_nat k else shl_undefined k.

(** [generate_key(rd)] *)
Definition generate_key (src : Entropy.source) : Entropy.draw (list Z) :=
  words <~ foldl (fun (acc : Entropy.draw (list Z)) (_ : nat) =>
                    ws <~ acc ;;
                    w <~ Entropy.rd src ;;
                    Entropy.ret (ws ++ [w]))
                 (Entropy.ret []) (seq 0 4) ;;
  let key := replicate 16 0 in
  let key :=
    foldl (fun key i =>
             let key := <[(i * 4 + 0)%nat := Z.land (Z.shiftr (words !!! i) 24) 0xFF]> key in
             let key := <[(i * 4 + 1)%nat := Z.land (Z.shiftr (words !!! i) 16) 0xFF]> key in
             let key := <[(i * 4 + 2)%nat := Z.land (Z.shiftr (words !!! i) 8) 0xFF]> key in
             let key := <[(i * 4 + 3)%nat := Z.land (words !!! i) 0xFF]> key in
             key)
          key (seq 0 4) in
  Entropy.ret key.

(** One iteration of the loop of [key_expansion], for index [i]. *)
Definition key_expansion_step (ek : list Z) (i : nat) : list Z :=
  let temp := load32 host ek (4 * (i - 1)) in
  let temp :=
    if decide (i mod Nk = 0)%nat then
      (* Rotation and substitution *)
      let temp := Z.lor (wrap32 (Z.shiftl temp 8)) (Z.shiftr temp 24) in
      let temp_bytes := to_bytes host 4 temp in
      let temp_bytes :=
        foldl (fun tb j => <[j := SBOX !!! Z.to_nat (tb !!! j)]> tb)
              temp_bytes (seq 0 4) in
      let temp := of_bytes host temp_bytes in
      (* XOR with the round constant *)
      Z.lxor temp (wrap32 (shl_int_1 ((i / Nk - 1) * 8)))
    else temp in
  store32 host (4 * i) (Z.lxor (load32 host ek (4 * (i - Nk))) temp) ek.

(** [key_expansion(key)], from the previous contents of
    [m_expanded_key] to the new ones. *)
Definition key_expansion (key : list Z) (m_expanded_key : list Z) : list Z :=
  (* Copy of initial key *)
  let ek := list_inserts 0 key m_expanded_key in
  (* Key expansion *)
  foldl key_expansion_step ek (seq Nk (Nb * (Nr + 1) - Nk)).

(** [++counter[k]] on the counter seen as four [uint32_t]. *)
Definition pre_increment (k : nat) (st : list Z) : list Z :=
  store32 host (4 * k) (add32 (load32 host st (4 * k)) 1) st.

(** [increment_counter()] *)
Definition increment_counter (m_state : list Z) : list Z :=
  let st := pre_increment 3 m_state in
  if decide (load32 host st 12 = 0) then
    let st := pre_increment 2 st in
    if decide (load32 host st 8 = 0) then
      let st := pre_increment 1 st in
      if decide (load32 host st 4 = 0) then
        pre_increment 0 st
      else st
    else st
  else st.

(** [process_block(state)]: the array passed by reference after the
    call, and the object after the call. *)
Definition process_block (state : list Z) (e : engine) : list Z * engine :=
  (* Initial AddRoundKey *)
  let state :=
    foldl (fun st i => <[i := Z.lxor (st !!! i) (m_expanded_key e !!! i)]> st)
          state (seq 0 16) in
  (* SubBytes *)
  let state := (fun byte => SBOX !!! Z.to_nat byte) <$> state in
  (* ShiftRows *)
  let temp := state in
  let state := <[1%nat := temp !!! 5%nat]> state in
  let state := <[5%nat := temp !!! 9%nat]> state in
  let state := <[9%nat := temp !!! 13%nat]> state in
  let state := <[13%nat := temp !!! 1%nat]> state in
  let state := <[2%nat := temp !!! 10%nat]> state in
  let state := <[6%nat := temp !!! 14%nat]> state in
  let state := <[10%nat := temp !!! 2%nat]> state in
  let state := <[14%nat := temp !!! 6%nat]> state in
  let state := <[3%nat := temp !!! 15%nat]> state in
  let state := <[7%nat := temp !!! 3%nat]> state in
  let state := <[11%nat := temp !!! 7%nat]> state in
  let state := <[15%nat := temp !!! 11%nat]> state in
  (* AddRoundKey *)
  let state :=
    foldl (fun st i =>
             <[i := Z.lxor (st !!! i) (m_expanded_key e !!! (16 + i)%nat)]> st)
          state (seq 0 16) in
  (* Increment the counter *)
  (state, Engine (increment_counter (m_state e)) (m_expanded_key e)).

(** [next()] and [next128()] declare [std::array<uint8_t, 16> buffer;]
    without an initialiser and hand it to [process_block]: its sixteen
    bytes are indeterminate.  They are the argument [buffer] here. *)

(** [next()] *)
Definition next (buffer : list Z) (e : engine) : Z * engine :=
  let '(buffer, e) := process_block buffer e in
  let '(high, low) :=
    foldl (fun '(high, low) i =>
             (Z.lor high (wrap64 (Z.shiftl (buffer !!! i) (Z.of_nat i * 8))),
              Z.lor low (wrap64 (Z.shiftl (buffer !!! (i + 8)%nat) (Z.of_nat i * 8)))))
          (0, 0) (seq 0 8) in
  (Z.lxor high low, e).

(** [next128()]: [memcpy] of the sixteen bytes onto two [uint64_t]. *)
Definition next128 (buffer : list Z) (e : engine) : list Z * engine :=
  let '(buffer, e) := process_block buffer e in
  let result := [of_bytes host (take 8 buffer); of_bytes host (take 8 (drop 8 buffer))] in
  (result, e).

(** [explicit AESCTR(std::random_device& rd)]; [indeterminate] is what
    the not yet initialised [m_expanded_key] holds. *)
Definition from_device (indeterminate : list Z) (src : Entropy.source)
  : Entropy.draw engine :=
  let m_state := IEngine.init 16 in
  m_state <~ foldl (fun (acc : Entropy.draw (list Z)) j =>
                      st <~ acc ;;
                      random <~ Entropy.rd src ;;
                      Entropy.ret (store32 host (j * 4) random st))
                   (Entropy.ret m_state) (seq 0 4) ;;
  key <~ generate_key src ;;
  Entropy.ret (Engine m_state (key_expansion key indeterminate)).

(** [AESCTR(const std::array<uint8_t, 16>& key,
           const std::array<uint8_t, 16>& nonce)] *)
Definition from_key (indeterminate : list Z) (key nonce : list Z) : engine :=
  let m_state := IEngine.init 16 in
  let m_state := list_inserts 0 nonce m_state in
  Engine m_state (key_expansion key indeterminate).

End Platform.

End AESCTR.

(** ** The design document's description of ChaCha20

    The definitions of this module follow the words of the design document
    and not the code; the theorems below compare the two. *)

Module ChaCha20_Doc.

Import ChaCha20.

(** A well-formed state: sixteen 32-bit words. *)
Definition wf (st : list Z) : Prop :=
  length st = 16%nat /\ Forall is_u32 st.

(** How many statements of a body satisfy [p]. *)
Definition count_stmt (p : stmt -> bool) (body : list stmt) : nat :=
  length (filter (fun s => p s = true) body).

Definition is_add (s : stmt) : bool :=
  match s with AddAssign _ _ => true | _ => false end.
Definition is_xor (s : stmt) : bool :=
  match s with XorAssign _ _ => true | _ => false end.
Definition is_rotl (s : stmt) : bool :=
  match s with RotlAssign _ _ => true | _ => false end.

(** The rotation amounts of a body, in program order. *)
Definition rotations (body : list stmt) : list Z :=
  omap (fun s => match s with RotlAssign _ k => Some k | _ => None end) body.

(** A body without its group number [g] (an addition, an XOR and a
    rotation each), counting from zero. *)
Definition without_group (g : nat) (body : list stmt) : list stmt :=
  take (3 * g) body ++ drop (3 * g + 3) body.

(** The quarter-round as a function of four words: add, XOR and rotate
    by 16, then by 12, then by 8, then by 7. *)
Definition mix (q : Z * Z * Z * Z) : Z * Z * Z * Z :=
  let '(a, b, c, d) := q in
  let a := add32 a b in let d := rotl (Z.lxor d a) 16 in
  let c := add32 c d in let b := rotl (Z.lxor b c) 12 in
  let a := add32 a b in let d := rotl (Z.lxor d a) 8 in
  let c := add32 c d in let b := rotl (Z.lxor b c) 7 in
  (a, b, c, d).

Definition quad : Type := nat * nat * nat * nat.

Definition columns : list quad :=
  [ (0, 4, 8, 12); (1, 5, 9, 13); (2, 6, 10, 14); (3, 7, 11, 15) ]%nat.

Definition diagonals : list quad :=
  [ (0, 5, 10, 15); (1, 6, 11, 12); (2, 7, 8, 13); (3, 4, 9, 14) ]%nat.

(** The quarter-round applied to the words of a quadruple of positions. *)
Definition mix_at (ws : list Z) (q : quad) : list Z :=
  let '(i, j, k, l) := q in
  let '(a, b, c, d) := mix (ws !!! i, ws !!! j, ws !!! k, ws !!! l) in
  <[l := d]> (<[k := c]> (<[j := b]> (<[i := a]> ws))).

(** A double round: the columns, then the diagonals. *)
Definition double_round (ws : list Z) : list Z :=
  foldl mix_at (foldl mix_at ws columns) diagonals.

(** Word-wise addition modulo 2^32. *)
Definition add_words (xs ys : list Z) : list Z := zip_with add32 xs ys.

(** The 64-bit counter held in words 12 (low) and 13 (high). *)
Definition counter (st : list Z) : Z :=
  st !!! 12%nat + 2 ^ 32 * st !!! 13%nat.

(** Increment of the counter: word 12 first, word 13 when word 12 wraps
    around to zero. *)
Definition bump (st : list Z) : list Z :=
  let lo := add32 (st !!! 12%nat) 1 in
  let st := <[12%nat := lo]> st in
  if decide (lo = 0) then <[13%nat := add32 (st !!! 13%nat) 1]> st else st.

(** The fold rule of [next()]: each adjacent pair is concatenated, high
    word first, and the eight values are XORed together. *)
Definition concat64 (hi lo : Z) : Z := Z.lor (Z.shiftl hi 32) lo.

Fixpoint fold_pairs (ws : list Z) : Z :=
  match ws with
  | hi :: lo :: rest => Z.lxor (concat64 hi lo) (fold_pairs rest)
  | _ => 0
  end.

(** Modelled from the spec: the published test vector the document refers
    to is not part of the repository.  It is the keystream block for the
    all-zero key, nonce and counter of RFC 8439, appendix A.1, test vector
    1 (the same 64 bytes open the keystream of the original ChaCha20 for
    that input), as the bytes are printed there. *)
Definition published_zero_block : list Z :=
  [ 0x76; 0xb8; 0xe0; 0xad; 0xa0; 0xf1; 0x3d; 0x90;
    0x40; 0x5d; 0x6a; 0xe5; 0x53; 0x86; 0xbd; 0x28;
    0xbd; 0xd2; 0x19; 0xb8; 0xa0; 0x8d; 0xed; 0x1a;
    0xa8; 0x36; 0xef; 0xcc; 0x8b; 0x77; 0x0d; 0xc7;
    0xda; 0x41; 0x59; 0x7c; 0x51; 0x57; 0x48; 0x8d;
    0x77; 0x24; 0xe0; 0x3f; 0xb8; 0xd8; 0x4a; 0x37;
    0x6a; 0x43; 0xb8; 0xf4; 0x15; 0x18; 0xa1; 0x1c;
    0xc3; 0x87; 0xb6; 0x69; 0xb2; 0xee; 0x65; 0x86 ].

(** The block function serialises its sixteen words least significant
    byte first. *)
Definition serialize (ws : list Z) : list Z :=
  ws ≫= le_bytes 4.

(** A client's calls on an engine after construction. *)
Inductive call := CallNext | CallNext512.

Definition after_call (st : list Z) (c : call) : list Z :=
  match c with
  | CallNext => snd (next st)
  | CallNext512 => snd (next512 st)
  end.

Definition after_calls (st : list Z) (cs : list call) : list Z :=
  foldl after_call st cs.

End ChaCha20_Doc.

(** ** The design document's description of the AES-counter engine *)

Module AESCTR_Doc.

Import AESCTR.

(** An array of [n] bytes. *)
Definition bytes (n : nat) (bs : list Z) : Prop :=
  length bs = n /\ Forall is_u8 bs.

(** A well-formed object: a 16-byte counter and a 176-byte schedule. *)
Definition wf (e : engine) : Prop :=
  bytes 16 (m_state e) /\ bytes 176 (m_expanded_key e).

(** "Add round key": XOR with sixteen bytes of the schedule. *)
Definition add_round_key (rk blk : list Z) : list Z := zip_with Z.lxor blk rk.

(** "Substitute bytes": each byte through the 256-entry table. *)
Definition sub_byte (b : Z) : Z := SBOX !!! Z.to_nat b.
Definition sub_bytes (blk : list Z) : list Z := sub_byte <$> blk.

(** "Shift rows": the cyclic byte permutation, as the table of the
    position each output byte is taken from. *)
Definition SHIFT_ROWS : list nat :=
  [0; 5; 10; 15; 4; 9; 14; 3; 8; 13; 2; 7; 12; 1; 6; 11]%nat.
Definition shift_rows (blk : list Z) : list Z := (fun i => blk !!! i) <$> SHIFT_ROWS.

(** Round key [r] of a schedule: bytes [16 r] to [16 r + 15]. *)
Definition round_key (ek : list Z) (r : nat) : list Z := take 16 (drop (16 * r) ek).

(** The transform of one block request, applied once to [blk]. *)
Definition transform (ek blk : list Z) : list Z :=
  add_round_key (round_key ek 1)
    (shift_rows (sub_bytes (add_round_key (round_key ek 0) blk))).

Section Platform.

Variable host : endian.
Variable shl_undefined : nat -> Z.

(** Word [i] of a byte array seen as 32-bit words. *)
Definition word (bs : list Z) (i : nat) : Z := load32 host bs (4 * i).

(** The counter as one 128-bit number: word 3 is the least significant,
    word 0 the most significant. *)
Definition counter (st : list Z) : Z :=
  word st 3 + 2 ^ 32 * word st 2 + 2 ^ 64 * word st 1 + 2 ^ 96 * word st 0.

(** What the loop of [key_expansion] computes, word by word, on the
    words as the host loads them.  For every fourth word: the previous
    word rotated by [(temp << 8) | (temp >> 24)], each of its bytes
    substituted, and XORed with the code's [0x01 << ((i / Nk - 1) * 8)],
    which is bit [8 * (i / 4 - 1)] of the word while that is below 32 and
    an undefined shift from word 20 on. *)
Definition sub_word (w : Z) : Z :=
  of_bytes host (sub_byte <$> to_bytes host 4 w).

Definition shifted_one (i : nat) : Z :=
  wrap32 (shl_int_1 shl_undefined ((i / 4 - 1) * 8)).

Definition fourth_word (prev : Z) (i : nat) : Z :=
  Z.lxor (sub_word (rotl prev 8)) (shifted_one i).

(** Word [i >= 4] of the schedule as the code computes it. *)
Definition schedule_word (back prev : Z) (i : nat) : Z :=
  if decide (i mod 4 = 0)%nat
  then Z.lxor back (fourth_word prev i)
  else Z.lxor back prev.

(** The bytes in memory of the array [next128()] returns. *)
Definition memory (result : list Z) : list Z := result ≫= to_bytes host 8.

(** A client's calls on an engine; each carries the contents of the
    array it hands to [process_block]. *)
Inductive call :=
| CallProcessBlock (state : list Z)
| CallNext (buffer : list Z)
| CallNext128 (buffer : list Z).

Definition after_call (e : engine) (c : call) : engine :=
  match c with
  | CallProcessBlock state => snd (process_block host state e)
  | CallNext buffer => snd (next host buffer e)
  | CallNext128 buffer => snd (next128 host buffer e)
  end.

Definition after_calls (e : engine) (cs : list call) : engine :=
  foldl after_call e cs.

End Platform.

(** What an x86-64 or AArch64 build yields for the out-of-range shift:
    the shift count is taken modulo 32. *)
Definition shl_masked (k : nat) : Z := 2 ^ Z.of_nat (k mod 32).

(** What a build yields whose shift gives zero once the count reaches the
    width of the register, as on 32-bit ARM. *)
Definition shl_cleared (k : nat) : Z := if decide (k < 32)%nat then 2 ^ Z.of_nat k else 0.

(** The standard key-expansion recurrence (FIPS 197, section 5.2), on the
    bytes of the schedule, whatever the host.  The round constant of
    round [j >= 1] is the byte [RCON !!! (j - 1)], the powers of two in
    the field of the cipher, XORed into the first byte of the word.  The
    rotation takes the bytes [a0 a1 a2 a3] of the previous word to
    [a1 a2 a3 a0]. *)
Definition RCON : list Z :=
  [0x01; 0x02; 0x04; 0x08; 0x10; 0x20; 0x40; 0x80; 0x1b; 0x36].

Definition standard_step (ek : list Z) (i : nat) : list Z :=
  let prev := take 4 (drop (4 * (i - 1)) ek) in
  let back := take 4 (drop (4 * (i - 4)) ek) in
  let temp :=
    if decide (i mod 4 = 0)%nat then
      zip_with Z.lxor (sub_byte <$> (drop 1 prev ++ take 1 prev))
                      [RCON !!! (i / 4 - 1)%nat; 0; 0; 0]
    else prev in
  ek ++ zip_with Z.lxor back temp.

Definition standard_key_expansion (key : list Z) : list Z :=
  foldl standard_step key (seq 4 40).

End AESCTR_Doc.

(** ** Concrete engines and inputs *)

Module Examples.

(** [ChaCha20(key, nonce)] with the all-zero key and nonce. *)
Definition zero_key : list Z := replicate 8 0.
Definition zero_nonce : list Z := replicate 2 0.
Definition chacha_zero : list Z := ChaCha20.from_key zero_key zero_nonce.

(** The same engine once word 12 has reached its last value. *)
Definition chacha_saturated : list Z := <[12%nat := 0xFFFFFFFF]> chacha_zero.

(** A device that returns 7 at every call. *)
Definition sevens : Entropy.source := fun _ => 7.

(** [AESCTR(key, nonce)] with the all-zero key and nonce, built on a
    little-endian host whose shifts take their count modulo 32, over an
    [m_expanded_key] that held zeros. *)
Definition aes_zero_key : list Z := replicate 16 0.
Definition aes_zero_nonce : list Z := replicate 16 0.
Definition aes_previous : list Z := replicate 176 0.
Definition aes_zero : AESCTR.engine :=
  AESCTR.from_key LittleEndian AESCTR_Doc.shl_masked
    aes_previous aes_zero_key aes_zero_nonce.

(** What the local [buffer] of [next()] may happen to hold. *)
Definition ones_buffer : list Z := replicate 16 0xFF.

(** A counter whose word 3 is all-ones. *)
Definition low_word_saturated : list Z := replicate 12 0 ++ replicate 4 0xFF.

(** Other contents the local [buffer] may happen to hold. *)
Definition counting_buffer : list Z :=
  [1; 2; 3; 4; 5; 6; 7; 8; 9; 10; 11; 12; 13; 14; 15; 16].

(** The cipher key of the key-expansion example of FIPS 197 (appendix
    A.1), and the last round key the standard gives for it there. *)
Definition fips_key : list Z :=
  [0x2b; 0x7e; 0x15; 0x16; 0x28; 0xae; 0xd2; 0xa6;
   0xab; 0xf7; 0x15; 0x88; 0x09; 0xcf; 0x4f; 0x3c].
Definition fips_last_round_key : list Z :=
  [0xd0; 0x14; 0xf9; 0xa8; 0xc9; 0xee; 0x25; 0x89;
   0xe1; 0x3f; 0x0c; 0xc8; 0xb6; 0x63; 0x0c; 0xa6].

End Examples.

From Stdlib Require Ascii.
From stdpp Require Import gmap.

Local Open Scope Z_scope.

(** ** 64-bit values *)

Module Utils64.

Definition is_u64 (x : Z) : Prop := 0 <= x < 2 ^ 64.

Global Instance is_u64_dec x : Decision (is_u64 x) := and_dec _ _.

(** [rotl<uint64_t>(x, k)]: [(x << k) | (x >> (64 - k))]. *)
Definition rotl64 (x k : Z) : Z :=
  Z.lor (wrap64 (Z.shiftl x k)) (Z.shiftr x (64 - k)).

(** [splitmix64(seed)] *)
Definition splitmix64 (seed : Z) : Z :=
  let seed := wrap64 (seed + 0x9e3779b97f4a7c15) in
  let z := seed in
  let z := wrap64 (Z.lxor z (Z.shiftr z 30) * 0xbf58476d1ce4e5b9) in
  let z := wrap64 (Z.lxor z (Z.shiftr z 27) * 0x94d049bb133111eb) in
  Z.lxor z (Z.shiftr z 31).

(** [compile_time()], as a function of the eight characters [HH:MM:SS]
    the compiler puts in [__TIME__].  A character is its code, the
    character zero being 48; the digits are combined as [int] and the rest
    as [uint64_t]. *)
Definition time_char (time : list Ascii.ascii) (i : nat) : Z :=
  Z.of_nat (Ascii.nat_of_ascii (nth i time Ascii.zero)).

Definition compile_time (time : list Ascii.ascii) : Z :=
  let zero := Z.of_nat (Ascii.nat_of_ascii (Ascii.ascii_of_nat 48)) in
  let pair i := 10 * (time_char time i - zero) + (time_char time (i + 1) - zero) in
  wrap64 (wrap64 (wrap64 (wrap64 (pair 0%nat) * 3600)
                  + wrap64 (wrap64 (pair 3%nat) * 60))
          + wrap64 (pair 6%nat)).

End Utils64.

(** The format of [__TIME__], ["HH:MM:SS"]: [time] shows the hour [h],
    the minute [m] and the second [s], each as two decimal digits. *)

Module Utils64_Doc.

Definition digit_pair (time : list Ascii.ascii) (i : nat) (v : Z) : Prop :=
  Utils64.time_char time i = 48 + v / 10 /\
  Utils64.time_char time (i + 1) = 48 + v mod 10.

Definition clock_shows (time : list Ascii.ascii) (h m s : Z) : Prop :=
  digit_pair time 0 h /\ digit_pair time 3 m /\ digit_pair time 6 s.

End Utils64_Doc.

Export Utils64.

(** * The 64-bit engines

    The state [m_state] of an [IEngine<uint64_t, N>] is a list of [N]
    words; [next()] returns the value and the new state. *)

(** ** [class Xoroshiro128p : public IEngine<uint64_t, 2>] *)

Module Xoroshiro128p.

(** [explicit Xoroshiro128p(uint64_t seed)] *)
Definition from_seed (seed : Z) : list Z :=
  [splitmix64 seed; splitmix64 (wrap64 (seed + 1))].

(** [next()] *)
Definition next (m_state : list Z) : Z * list Z :=
  let s0 := m_state !!! 0%nat in
  let s1 := m_state !!! 1%nat in
  let result := wrap64 (s0 + s1) in
  let s1 := Z.lxor s1 s0 in
  let m_state :=
    <[0%nat := Z.lxor (Z.lxor (rotl64 s0 24) s1) (wrap64 (Z.shiftl s1 16))]>
      m_state in
  let m_state := <[1%nat := rotl64 s1 37]> m_state in
  (result, m_state).

End Xoroshiro128p.

(** ** [class Xoroshiro128pp : public IEngine<uint64_t, 2>] *)

Module Xoroshiro128pp.

(** [explicit Xoroshiro128pp(uint64_t seed)] *)
Definition from_seed (seed : Z) : list Z :=
  [splitmix64 seed; splitmix64 (wrap64 (seed + 1))].

(** [next()] *)
Definition next (m_state : list Z) : Z * list Z :=
  let s0 := m_state !!! 0%nat in
  let s1 := m_state !!! 1%nat in
  let result := wrap64 (rotl64 (wrap64 (s0 + s1)) 17 + s0) in
  let s1 := Z.lxor s1 s0 in
  let m_state :=
    <[0%nat := Z.lxor (Z.lxor (rotl64 s0 49) s1) (wrap64 (Z.shiftl s1 21))]>
      m_state in
  let m_state := <[1%nat := rotl64 s1 28]> m_state in
  (result, m_state).

End Xoroshiro128pp.

(** ** [class Xoroshiro128ss : public IEngine<uint64_t, 2>] *)

Module Xoroshiro128ss.

(** [explicit Xoroshiro128ss(uint64_t seed)] *)
Definition from_seed (seed : Z) : list Z :=
  [splitmix64 seed; splitmix64 (wrap64 (seed + 1))].

(** [next()] *)
Definition next (m_state : list Z) : Z * list Z :=
  let s0 := m_state !!! 0%nat in
  let s1 := m_state !!! 1%nat in
  let result := wrap64 (rotl64 (wrap64 (s0 * 5)) 7 * 9) in
  let s1 := Z.lxor s1 s0 in
  let m_state :=
    <[0%nat := Z.lxor (Z.lxor (rotl64 s0 24) s1) (wrap64 (Z.shiftl s1 16))]>
      m_state in
  let m_state := <[1%nat := rotl64 s1 37]> m_state in
  (result, m_state).

End Xoroshiro128ss.

(** ** [class Xoshiro256p : public IEngine<uint64_t, 4>] *)

Module Xoshiro256p.

(** [explicit Xoshiro256p(uint64_t seed)] *)
Definition from_seed (seed : Z) : list Z :=
  [splitmix64 seed; splitmix64 (wrap64 (seed + 1));
   splitmix64 (wrap64 (seed + 2)); splitmix64 (wrap64 (seed + 3))].

(** [next()] *)
Definition next (m_state : list Z) : Z * list Z :=
  let result := wrap64 (m_state !!! 0%nat + m_state !!! 3%nat) in
  let t := wrap64 (Z.shiftl (m_state !!! 1%nat) 17) in
  let m_state := <[2%nat := Z.lxor (m_state !!! 2%nat) (m_state !!! 0%nat)]> m_state in
  let m_state := <[3%nat := Z.lxor (m_state !!! 3%nat) (m_state !!! 1%nat)]> m_state in
  let m_state := <[1%nat := Z.lxor (m_state !!! 1%nat) (m_state !!! 2%nat)]> m_state in
  let m_state := <[0%nat := Z.lxor (m_state !!! 0%nat) (m_state !!! 3%nat)]> m_state in
  let m_state := <[2%nat := Z.lxor (m_state !!! 2%nat) t]> m_state in
  let m_state := <[3%nat := rotl64 (m_state !!! 3%nat) 45]> m_state in
  (result, m_state).

End Xoshiro256p.

(** ** [class Xoshiro256pp : public IEngine<uint64_t, 4>] *)

Module Xoshiro256pp.

(** [explicit Xoshiro256pp(uint64_t seed)] *)
Definition from_seed (seed : Z) : list Z :=
  [splitmix64 seed; splitmix64 (wrap64 (seed + 1));
   splitmix64 (wrap64 (seed + 2)); splitmix64 (wrap64 (seed + 3))].

(** [next()] *)
Definition next (m_state : list Z) : Z * list Z :=
  let result := wrap64 (rotl64 (wrap64 (m_state !!! 0%nat + m_state !!! 3%nat)) 23
            + m_state !!! 0%nat) in
  let t := wrap64 (Z.shiftl (m_state !!! 1%nat) 17) in
  let m_state := <[2%nat := Z.lxor (m_state !!! 2%nat) (m_state !!! 0%nat)]> m_state in
  let m_state := <[3%nat := Z.lxor (m_state !!! 3%nat) (m_state !!! 1%nat)]> m_state in
  let m_state := <[1%nat := Z.lxor (m_state !!! 1%nat) (m_state !!! 2%nat)]> m_state in
  let m_state := <[0%nat := Z.lxor (m_state !!! 0%nat) (m_state !!! 3%nat)]> m_state in
  let m_state := <[2%nat := Z.lxor (m_state !!! 2%nat) t]> m_state in
  let m_state := <[3%nat := rotl64 (m_state !!! 3%nat) 45]> m_state in
  (result, m_state).

End Xoshiro256pp.

(** ** [class Xoshiro256ss : public IEngine<uint64_t, 4>] *)

Module Xoshiro256ss.

(** [explicit Xoshiro256ss(uint64_t seed)] *)
Definition from_seed (seed : Z) : list Z :=
  [splitmix64 seed; splitmix64 (wrap64 (seed + 1));
   splitmix64 (wrap64 (seed + 2)); splitmix64 (wrap64 (seed + 3))].

(** [next()] *)
Definition next (m_state : list Z) : Z * list Z :=
  let result := wrap64 (rotl64 (wrap64 (m_state !!! 1%nat * 5)) 7 * 9) in
  let t := wrap64 (Z.shiftl (m_state !!! 1%nat) 17) in
  let m_state := <[2%nat := Z.lxor (m_state !!! 2%nat) (m_state !!! 0%nat)]> m_state in
  let m_state := <[3%nat := Z.lxor (m_state !!! 3%nat) (m_state !!! 1%nat)]> m_state in
  let m_state := <[1%nat := Z.lxor (m_state !!! 1%nat) (m_state !!! 2%nat)]> m_state in
  let m_state := <[0%nat := Z.lxor (m_state !!! 0%nat) (m_state !!! 3%nat)]> m_state in
  let m_state := <[2%nat := Z.lxor (m_state !!! 2%nat) t]> m_state in
  let m_state := <[3%nat := rotl64 (m_state !!! 3%nat) 45]> m_state in
  (result, m_state).

End Xoshiro256ss.

(** ** [class Xorshift128Plus : public IEngine<uint64_t, 2>] *)

Module Xorshift128Plus.

(** [explicit Xorshift128Plus(uint64_t seed)] *)
Definition from_seed (seed : Z) : list Z :=
  [splitmix64 seed; splitmix64 (wrap64 (seed + 1))].

(** [next()] *)
Definition next (m_state : list Z) : Z * list Z :=
  let s1 := m_state !!! 0%nat in
  let s0 := m_state !!! 1%nat in
  let m_state := <[0%nat := s0]> m_state in
  let s1 := Z.lxor s1 (wrap64 (Z.shiftl s1 23)) in
  let s1 := Z.lxor s1 (Z.shiftr s1 17) in
  let s1 := Z.lxor s1 s0 in
  let s1 := Z.lxor s1 (Z.shiftr s0 26) in
  let m_state := <[1%nat := s1]> m_state in
  (wrap64 (m_state !!! 1%nat + s0), m_state).

End Xorshift128Plus.

(** ** [class Xoroshiro128Plus : public IEngine<uint64_t, 2>] *)

Module Xoroshiro128Plus.

(** [explicit Xoroshiro128Plus(uint64_t seed)] *)
Definition from_seed (seed : Z) : list Z :=
  [splitmix64 seed; splitmix64 (wrap64 (seed + 1))].

(** [next()] *)
Definition next (m_state : list Z) : Z * list Z :=
  let s0 := m_state !!! 0%nat in
  let s1 := m_state !!! 1%nat in
  let result := wrap64 (s0 + s1) in
  let s1 := Z.lxor s1 s0 in
  let m_state :=
    <[0%nat := Z.lxor (Z.lxor (rotl64 s0 55) s1) (wrap64 (Z.shiftl s1 14))]>
      m_state in
  let m_state := <[1%nat := rotl64 s1 36]> m_state in
  (result, m_state).

End Xoroshiro128Plus.

(** ** [class Xoshiro256Star : public IEngine<uint64_t, 4>] *)

Module Xoshiro256Star.

(** [explicit Xoshiro256Star(uint64_t seed)] *)
Definition from_seed (seed : Z) : list Z :=
  [splitmix64 seed; splitmix64 (wrap64 (seed + 1));
   splitmix64 (wrap64 (seed + 2)); splitmix64 (wrap64 (seed + 3))].

(** [next()] *)
Definition next (m_state : list Z) : Z * list Z :=
  let result := wrap64 (rotl64 (wrap64 (m_state !!! 1%nat * 5)) 7 * 9) in
  let t := wrap64 (Z.shiftl (m_state !!! 1%nat) 17) in
  let m_state := <[2%nat := Z.lxor (m_state !!! 2%nat) (m_state !!! 0%nat)]> m_state in
  let m_state := <[3%nat := Z.lxor (m_state !!! 3%nat) (m_state !!! 1%nat)]> m_state in
  let m_state := <[1%nat := Z.lxor (m_state !!! 1%nat) (m_state !!! 2%nat)]> m_state in
  let m_state := <[0%nat := Z.lxor (m_state !!! 0%nat) (m_state !!! 3%nat)]> m_state in
  let m_state := <[2%nat := Z.lxor (m_state !!! 2%nat) t]> m_state in
  let m_state := <[3%nat := rotl64 (m_state !!! 3%nat) 45]> m_state in
  (result, m_state).

End Xoshiro256Star.

(** A state of [n] 64-bit words. *)
Definition words64 (n : nat) (st : list Z) : Prop :=
  length st = n /\ Forall is_u64 st.

(** ** The engines as instances of [IEngine<uint64_t, N>] *)

Module Engines64.

(** A class derived from [IEngine<uint64_t, N>]: its [STATE_SIZE], its
    constructor from a seed and its [next()]. *)
Record engine := Engine64 {
  STATE_SIZE : nat;
  from_seed : Z -> list Z;
  next : list Z -> Z * list Z }.

Definition xoroshiro128p : engine :=
  Engine64 2 Xoroshiro128p.from_seed Xoroshiro128p.next.
Definition xoroshiro128pp : engine :=
  Engine64 2 Xoroshiro128pp.from_seed Xoroshiro128pp.next.
Definition xoroshiro128ss : engine :=
  Engine64 2 Xoroshiro128ss.from_seed Xoroshiro128ss.next.
Definition xoshiro256p : engine :=
  Engine64 4 Xoshiro256p.from_seed Xoshiro256p.next.
Definition xoshiro256pp : engine :=
  Engine64 4 Xoshiro256pp.from_seed Xoshiro256pp.next.
Definition xoshiro256ss : engine :=
  Engine64 4 Xoshiro256ss.from_seed Xoshiro256ss.next.
Definition xorshift128plus : engine :=
  Engine64 2 Xorshift128Plus.from_seed Xorshift128Plus.next.
Definition xoroshiro128plus : engine :=
  Engine64 2 Xoroshiro128Plus.from_seed Xoroshiro128Plus.next.
Definition xoshiro256star : engine :=
  Engine64 4 Xoshiro256Star.from_seed Xoshiro256Star.next.

(** The engines whose [next()] mixes the state with shifts, rotations
    and exclusive or. *)
Definition xor_engines : list engine :=
  [xoroshiro128p; xoroshiro128pp; xoroshiro128ss;
   xoshiro256p; xoshiro256pp; xoshiro256ss;
   xorshift128plus; xoroshiro128plus; xoshiro256star].

(** The state after [n] calls of [next()], and what the call after them
    returns. *)
Definition after (e : engine) (n : nat) (st : list Z) : list Z :=
  Nat.iter n (fun st => snd (next e st)) st.

Definition output (e : engine) (n : nat) (st : list Z) : Z :=
  fst (next e (after e n st)).

(** The state in which every word is zero. *)
Definition zero_state (e : engine) : list Z := replicate (STATE_SIZE e) 0.

End Engines64.

(** The state updates of the three families, written once: what [next()]
    leaves in [m_state], for the rotation and shift amounts of the
    class. *)

Module Engines64_Doc.

Definition xoroshiro_update (r1 sh r2 : Z) (st : list Z) : list Z :=
  let s0 := st !!! 0%nat in
  let s1 := Z.lxor (st !!! 1%nat) s0 in
  [Z.lxor (Z.lxor (rotl64 s0 r1) s1) (wrap64 (Z.shiftl s1 sh)); rotl64 s1 r2].

Definition xoshiro_update (st : list Z) : list Z :=
  let s0 := st !!! 0%nat in
  let s1 := st !!! 1%nat in
  let s2 := st !!! 2%nat in
  let s3 := st !!! 3%nat in
  [Z.lxor s0 (Z.lxor s3 s1);
   Z.lxor s1 (Z.lxor s2 s0);
   Z.lxor (Z.lxor s2 s0) (wrap64 (Z.shiftl s1 17));
   rotl64 (Z.lxor s3 s1) 45].

Definition xorshift_update (st : list Z) : list Z :=
  let s1 := st !!! 0%nat in
  let s0 := st !!! 1%nat in
  let s1 := Z.lxor s1 (wrap64 (Z.shiftl s1 23)) in
  let s1 := Z.lxor s1 (Z.shiftr s1 17) in
  [s0; Z.lxor (Z.lxor s1 s0) (Z.shiftr s0 26)].

End Engines64_Doc.

(** ** [class PCG32 : public IEngine<uint64_t, 1>] *)

Module PCG32.

Definition MUL : Z := 6364136223846793005.
Definition INC : Z := 1442695040888963407.

(** [next32()] *)
Definition next32 (m_state : list Z) : Z * list Z :=
  let state := m_state !!! 0%nat in
  let m_state := <[0%nat := wrap64 (state * MUL + INC)]> m_state in
  let value := wrap32 (Z.shiftr (Z.lxor state (Z.shiftr state 18)) 27) in
  let rot := Z.shiftr state 59 in
  (if decide (rot <> 0)
   then Z.lor (Z.shiftr value rot) (wrap32 (Z.shiftl value (32 - rot)))
   else value,
   m_state).

(** [next()] *)
Definition next (m_state : list Z) : Z * list Z :=
  let '(value, m_state) := next32 m_state in
  let value := wrap64 (Z.shiftl value 32) in
  let '(low, m_state) := next32 m_state in
  let value := Z.lor value low in
  (value, m_state).

(** [explicit PCG32(uint64_t seed)] *)
Definition from_seed (seed : Z) : list Z :=
  let m_state := [0] in
  let m_state := snd (next32 m_state) in
  let m_state := <[0%nat := wrap64 (m_state !!! 0%nat + seed)]> m_state in
  let m_state := snd (next32 m_state) in
  m_state.

(** The loop of [advance(delta)].  Each turn halves [delta]; [fuel] bounds
    the number of turns, and [None] is a loop that has not finished within
    it. *)
Fixpoint advance_loop (fuel : nat)
    (delta cur_mult cur_plus acc_mult acc_plus : Z) : option (Z * Z) :=
  if decide (delta <> 0) then
    match fuel with
    | O => None
    | S fuel =>
        let '(acc_mult, acc_plus) :=
          if decide (Z.land delta 1 <> 0)
          then (wrap64 (acc_mult * cur_mult),
                wrap64 (acc_plus * cur_mult + cur_plus))
          else (acc_mult, acc_plus) in
        let cur_plus := wrap64 (wrap64 (cur_mult + 1) * cur_plus) in
        let cur_mult := wrap64 (cur_mult * cur_mult) in
        let delta := Z.shiftr delta 1 in
        advance_loop fuel delta cur_mult cur_plus acc_mult acc_plus
    end
  else Some (acc_mult, acc_plus).

(** [advance(delta)]; a [uint64_t] has 64 bits to shift out. *)
Definition advance (delta : Z) (m_state : list Z) : option (list Z) :=
  match advance_loop 64 delta MUL INC 1 0 with
  | Some (acc_mult, acc_plus) =>
      Some (<[0%nat := wrap64 (acc_mult * m_state !!! 0%nat + acc_plus)]> m_state)
  | None => None
  end.

End PCG32.

(** What [PCG32] documents: a linear congruential state. *)

Module PCG32_Doc.

(** One step of the state: [state * MUL + INC] on [uint64_t]. *)
Definition step (state : Z) : Z := wrap64 (state * PCG32.MUL + PCG32.INC).

(** The engine's state array after [n] steps. *)
Definition steps (n : nat) (m_state : list Z) : list Z :=
  <[0%nat := Nat.iter n step (m_state !!! 0%nat)]> m_state.

End PCG32_Doc.

(** ** [generator.hpp]

    The integral instances of [rand] and [sequence] for an unsigned [T] of
    [w] bits, [uint32_t] or [uint64_t], whose arithmetic wraps modulo
    [2^w].  [size_t] has 64 bits. *)

Module Generator.

(** The engine a function template is instantiated with: anything with a
    [next()] that returns the next [uint64_t]. *)
Class Engine (St : Type) := engine_next : St -> Z * St.

Global Instance ChaCha20_engine : Engine (list Z) | 10 := ChaCha20.next.

(** How a call ends: it returns, or it runs into behaviour the language
    leaves undefined (a remainder by zero), or its loop has not finished
    within the number of turns allowed. *)
Inductive outcome (A : Type) :=
| Returned (a : A)
| Undefined
| Unfinished.

Arguments Returned {A} a.
Arguments Undefined {A}.
Arguments Unfinished {A}.

(** [v] lies in the closed range from [min] to [max]. *)
Definition in_range (min max v : Z) : Prop := min <= v <= max.

Section Unsigned.

Context {St : Type} {E : Engine St}.

(** Width of [T]. *)
Variable w : Z.

Definition wrap (x : Z) : Z := x mod 2 ^ w.

(** [rand<T>(e)] *)
Definition rand (e : St) : Z * St :=
  let '(x, e) := engine_next e in
  (wrap x, e).

(** [rand<T>(e, min, max)] *)
Definition rand_range (min max : Z) (e : St) : outcome (Z * St) :=
  let range := wrap (max - min + 1) in
  let '(x, e) := engine_next e in
  if decide (range = 0) then Undefined
  else Returned (wrap (min + wrap x mod range), e).

(** The loop of [sequence]. *)
Fixpoint sequence_loop (fuel : nat) (min max count : Z)
    (seq : list Z) (unique_values : gset Z) (e : St) : outcome (list Z * St) :=
  if decide (Z.of_nat (length seq) < count) then
    match fuel with
    | O => Unfinished
    | S fuel =>
        match rand_range min max e with
        | Returned (value, e) =>
            if decide (value ∈ unique_values)
            then sequence_loop fuel min max count seq unique_values e
            else sequence_loop fuel min max count
                   (seq ++ [value]) ({[value]} ∪ unique_values) e
        | Undefined => Undefined
        | Unfinished => Unfinished
        end
    end
  else Returned (seq, e).

(** [sequence<T>(e, min, max, count)], its loop allowed [fuel] turns.
    [seq.reserve(count)] and the growth of the two containers are not
    modelled: memory is taken to suffice. *)
Definition sequence (fuel : nat) (min max count : Z) (e : St)
  : outcome (list Z * St) :=
  let count :=
    if decide (wrap64 (wrap (max - min) + 1) < count)
    then wrap (max - min + 1)
    else count in
  sequence_loop fuel min max count [] ∅ e.

End Unsigned.

(** The instance for [T = int], 32 bits in two's complement.  The
    conversion of a [uint64_t] to [int] keeps the value modulo [2^32]; [%]
    truncates towards zero; an [int] result out of range is undefined. *)

Definition is_int (x : Z) : Prop := - 2 ^ 31 <= x < 2 ^ 31.

Global Instance is_int_dec x : Decision (is_int x) := and_dec _ _.

(** [static_cast<int>(x)] *)
Definition to_int (x : Z) : Z :=
  let y := x mod 2 ^ 32 in
  if decide (y < 2 ^ 31) then y else y - 2 ^ 32.

Section Signed.

Context {St : Type} {E : Engine St}.

(** [rand<int>(e, min, max)] *)
Definition rand_range_int (min max : Z) (e : St) : outcome (Z * St) :=
  let range := max - min + 1 in
  if decide (is_int (max - min) /\ is_int range) then
    let '(x, e) := engine_next e in
    let x := to_int x in
    if decide (range = 0 \/ (x = - 2 ^ 31 /\ range = -1)) then Undefined
    else
      let result := min + Z.rem x range in
      if decide (is_int result) then Returned (result, e) else Undefined
  else Undefined.

End Signed.

End Generator.

(** ** More concrete inputs *)

Module More_Examples.

(** A ChaCha20 engine from a key and a nonce that are not zero. *)
Definition counting_key : list Z := [1; 2; 3; 4; 5; 6; 7; 8].
Definition counting_nonce : list Z := [9; 10].
Definition chacha_counting : list Z :=
  ChaCha20.from_key counting_key counting_nonce.

Definition chacha_calls : list ChaCha20_Doc.call :=
  [ChaCha20_Doc.CallNext; ChaCha20_Doc.CallNext512; ChaCha20_Doc.CallNext].

(** Calls on an AES-counter engine, each with what its buffer held. *)
Definition zero_buffer : list Z := replicate 16 0.
Definition aes_calls : list AESCTR_Doc.call :=
  [AESCTR_Doc.CallNext Examples.ones_buffer;
   AESCTR_Doc.CallNext128 zero_buffer;
   AESCTR_Doc.CallProcessBlock Examples.ones_buffer].

(** [PCG32 engine(42)] *)
Definition pcg_seeded : list Z := PCG32.from_seed 42.

(** [Xoroshiro128p engine(42)] and [Xoshiro256ss engine(42)] *)
Definition xoroshiro_seeded : list Z := Xoroshiro128p.from_seed 42.
Definition xoshiro_seeded : list Z := Xoshiro256ss.from_seed 42.

(** Two states of two words and two of four. *)
Definition two_words : list Z := [1; 2].
Definition two_words' : list Z := [3; 4].
Definition four_words : list Z := [1; 2; 3; 4].
Definition four_words' : list Z := [5; 6; 7; 8].

(** The [__TIME__] of a build at 23:59:58, as character codes. *)
Definition late_build : list Ascii.ascii :=
  map Ascii.ascii_of_nat [50; 51; 58; 53; 57; 58; 53; 56]%nat.

End More_Examples.

(** * Properties

    Helper lemmas first, module by module; the properties of the design
    document come last. *)

(** ** Fixed-width arithmetic *)

Module Utils_Facts.

Lemma wrap32_range x : is_u32 (wrap32 x).
Proof. unfold is_u32, wrap32. apply Z.mod_pos_bound. lia. Qed.

Lemma wrap32_id x : is_u32 x -> wrap32 x = x.
Proof. unfold is_u32, wrap32. intros H. apply Z.mod_small. lia. Qed.

Lemma lxor_u8 a b : is_u8 a -> is_u8 b -> is_u8 (Z.lxor a b).
Proof.
  unfold is_u8. intros Ha Hb.
  assert (0 <= Z.lxor a b) as Hnn by (apply Z.lxor_nonneg; lia).
  split; [done|].
  destruct (decide (Z.lxor a b = 0)) as [->|Hne]; [lia|].
  apply Z.log2_lt_pow2; [lia|].
  eapply Z.le_lt_trans; [apply Z.log2_lxor; lia|].
  apply Z.max_lub_lt.
  - destruct (decide (a = 0)) as [->|]; [done|]. apply Z.log2_lt_pow2; lia.
  - destruct (decide (b = 0)) as [->|]; [done|]. apply Z.log2_lt_pow2; lia.
Qed.

Lemma lxor_u32 a b : is_u32 a -> is_u32 b -> is_u32 (Z.lxor a b).
Proof.
  unfold is_u32. intros Ha Hb.
  assert (0 <= Z.lxor a b) as Hnn by (apply Z.lxor_nonneg; lia).
  split; [done|].
  destruct (decide (Z.lxor a b = 0)) as [->|Hne]; [lia|].
  apply Z.log2_lt_pow2; [lia|].
  eapply Z.le_lt_trans; [apply Z.log2_lxor; lia|].
  apply Z.max_lub_lt.
  - destruct (decide (a = 0)) as [->|]; [done|]. apply Z.log2_lt_pow2; lia.
  - destruct (decide (b = 0)) as [->|]; [done|]. apply Z.log2_lt_pow2; lia.
Qed.

Lemma lor_disjoint a b k :
  0 <= k -> 0 <= a < 2 ^ k -> Z.lor a (b * 2 ^ k) = a + b * 2 ^ k.
Proof.
  intros Hk Ha.
  assert (Z.land a (b * 2 ^ k) = 0) as Hland.
  { apply Z.bits_inj'. intros n Hn. rewrite Z.land_spec, Z.bits_0.
    destruct (decide (n < k)) as [Hlt|Hge].
    - rewrite Z.mul_pow2_bits_low by lia. apply andb_false_r.
    - rewrite <-(Z.mod_small a (2 ^ k)) by lia.
      rewrite Z.mod_pow2_bits_high by lia. done. }
  rewrite <-Z.lxor_lor by done. symmetry. by apply Z.add_nocarry_lxor.
Qed.

Lemma wrap64_shiftl_u32 x : is_u32 x -> wrap64 (Z.shiftl x 32) = Z.shiftl x 32.
Proof.
  unfold is_u32, wrap64. intros Hx. rewrite Z.shiftl_mul_pow2 by lia.
  apply Z.mod_small. lia.
Qed.

Lemma lor_byte acc b k :
  0 <= k <= 56 -> 0 <= acc < 2 ^ k -> is_u8 b ->
  Z.lor acc (wrap64 (Z.shiftl b k)) = acc + b * 2 ^ k.
Proof.
  unfold is_u8, wrap64. intros Hk Hacc Hb.
  rewrite Z.shiftl_mul_pow2 by lia.
  assert (2 ^ k <= 2 ^ 56) by (apply Z.pow_le_mono_r; lia).
  assert (0 < 2 ^ k) by (apply Z.pow_pos_nonneg; lia).
  rewrite Z.mod_small by nia.
  apply lor_disjoint; lia.
Qed.

Lemma add32_1_cases x :
  is_u32 x ->
  (x = 2 ^ 32 - 1 /\ add32 x 1 = 0) \/ (x < 2 ^ 32 - 1 /\ add32 x 1 = x + 1).
Proof.
  unfold is_u32, add32, wrap32. intros Hx.
  destruct (decide (x = 2 ^ 32 - 1)) as [->|Hne]; [by left|right].
  split; [lia|]. apply Z.mod_small. lia.
Qed.

End Utils_Facts.

Import Utils_Facts.

(** ** Byte strings, [load32] and [store32] *)

Module Bytes_Facts.

Lemma length_le_bytes n v : length (le_bytes n v) = n.
Proof. revert v. induction n as [|n IH]; intros v; simpl; [done|]. by rewrite IH. Qed.

Lemma le_bytes_u8 n v : Forall is_u8 (le_bytes n v).
Proof.
  revert v. induction n as [|n IH]; intros v; simpl; constructor; [|done].
  unfold is_u8. apply Z.mod_pos_bound. lia.
Qed.

Lemma le_value_range bs :
  Forall is_u8 bs -> 0 <= le_value bs < 2 ^ (8 * Z.of_nat (length bs)).
Proof.
  induction 1 as [|b bs Hb _ IH]; [simpl; lia|].
  cbn [le_value length]. unfold is_u8 in Hb.
  replace (8 * Z.of_nat (S (length bs))) with (8 + 8 * Z.of_nat (length bs)) by lia.
  rewrite Z.pow_add_r by lia. change (2 ^ 8) with 256 in *. lia.
Qed.

Lemma le_value_le_bytes n v :
  le_value (le_bytes n v) = v mod 2 ^ (8 * Z.of_nat n).
Proof.
  revert v. induction n as [|n IH]; intros v.
  - simpl. by rewrite Z.mod_1_r.
  - cbn [le_bytes le_value]. rewrite IH.
    replace (8 * Z.of_nat (S n)) with (8 + 8 * Z.of_nat n) by lia.
    rewrite Z.pow_add_r by lia. change (2 ^ 8) with 256.
    rewrite Z.rem_mul_r by lia. reflexivity.
Qed.

Lemma le_bytes_le_value bs :
  Forall is_u8 bs -> le_bytes (length bs) (le_value bs) = bs.
Proof.
  induction 1 as [|b bs Hb _ IH]; [done|].
  cbn [length le_bytes le_value]. unfold is_u8 in Hb. change (2 ^ 8) with 256 in Hb.
  f_equal.
  - symmetry. apply (Z.mod_unique_pos _ _ (le_value bs)); lia.
  - replace ((b + 256 * le_value bs) / 256) with (le_value bs); [done|].
    apply (Z.div_unique_pos _ _ _ b); lia.
Qed.

Lemma length_to_bytes host n v : length (to_bytes host n v) = n.
Proof. destruct host; simpl; rewrite ?length_rev; apply length_le_bytes. Qed.

Lemma to_bytes_u8 host n v : Forall is_u8 (to_bytes host n v).
Proof.
  destruct host; simpl; [apply le_bytes_u8|].
  apply Forall_rev, le_bytes_u8.
Qed.

Lemma of_bytes_to_bytes host n v :
  of_bytes host (to_bytes host n v) = v mod 2 ^ (8 * Z.of_nat n).
Proof.
  destruct host; simpl; rewrite ?rev_involutive; apply le_value_le_bytes.
Qed.

Lemma to_bytes_of_bytes host bs :
  Forall is_u8 bs -> to_bytes host (length bs) (of_bytes host bs) = bs.
Proof.
  intros Hbs. destruct host; simpl; [by apply le_bytes_le_value|].
  rewrite <-(length_rev bs), le_bytes_le_value by by apply Forall_rev.
  apply rev_involutive.
Qed.

Lemma of_bytes_range host bs :
  Forall is_u8 bs -> 0 <= of_bytes host bs < 2 ^ (8 * Z.of_nat (length bs)).
Proof.
  intros Hbs. destruct host; simpl; [by apply le_value_range|].
  rewrite <-(length_rev bs). by apply le_value_range, Forall_rev.
Qed.

Lemma length_store32 host off v bs : length (store32 host off v bs) = length bs.
Proof. apply length_inserts. Qed.

Lemma store32_u8 host off v bs :
  Forall is_u8 bs -> Forall is_u8 (store32 host off v bs).
Proof.
  intros Hbs. unfold store32.
  pose proof (to_bytes_u8 host 4 v) as Hk. revert off.
  induction Hk as [|b k Hb _ IH]; intros off; simpl; [done|].
  apply Forall_insert; [apply IH|done].
Qed.

Lemma lookup_total_u8 bs i : Forall is_u8 bs -> is_u8 (bs !!! i).
Proof.
  intros Hbs. destruct (decide (i < length bs)%nat) as [Hlt|Hge].
  - eapply Forall_lookup_1; [done|]. by apply list_lookup_lookup_total_lt.
  - rewrite list_lookup_total_alt, lookup_ge_None_2 by lia. simpl.
    unfold is_u8. lia.
Qed.

Lemma load32_u32 host bs off :
  Forall is_u8 bs -> is_u32 (load32 host bs off).
Proof.
  intros Hbs. unfold load32, is_u32.
  apply (of_bytes_range host
           [bs !!! off; bs !!! (off + 1)%nat; bs !!! (off + 2)%nat; bs !!! (off + 3)%nat]).
  repeat constructor; by apply lookup_total_u8.
Qed.

Lemma load32_store32_eq host off v bs :
  (off + 4 <= length bs)%nat ->
  load32 host (store32 host off v bs) off = wrap32 v.
Proof.
  intros Hoff. unfold load32, store32.
  pose proof (length_to_bytes host 4 v) as Hl.
  rewrite !list_lookup_total_inserts by lia.
  replace (off - off)%nat with 0%nat by lia.
  replace (off + 1 - off)%nat with 1%nat by lia.
  replace (off + 2 - off)%nat with 2%nat by lia.
  replace (off + 3 - off)%nat with 3%nat by lia.
  unfold wrap32. change (2 ^ 32) with (2 ^ (8 * Z.of_nat 4)).
  rewrite <-(of_bytes_to_bytes host 4 v). f_equal.
  destruct (to_bytes host 4 v) as [|b0 [|b1 [|b2 [|b3 [|]]]]]; done.
Qed.

Lemma load32_store32_ne host off off' v bs :
  (off' + 4 <= off \/ off + 4 <= off')%nat ->
  load32 host (store32 host off v bs) off' = load32 host bs off'.
Proof.
  intros Hoff. unfold load32, store32.
  pose proof (length_to_bytes host 4 v) as Hl.
  destruct Hoff.
  - by rewrite !list_lookup_total_inserts_lt by lia.
  - by rewrite !list_lookup_total_inserts_ge by lia.
Qed.

End Bytes_Facts.

Import Bytes_Facts.

(** ** ChaCha20 *)

Module ChaCha20_Facts.

Import ChaCha20 ChaCha20_Doc.

Ltac in_list := apply list_elem_of_In; cbn [In app columns diagonals]; tauto.

Ltac read_insert :=
  repeat first
    [ rewrite list_lookup_total_insert_eq by (rewrite ?length_insert; lia)
    | rewrite list_lookup_total_insert_ne by lia ].

Lemma quarter_round_mix ws q :
  length ws = 16%nat -> q ∈ columns ++ diagonals ->
  let '(a, b, c, d) := q in quarter_round a b c d ws = mix_at ws q.
Proof.
  intros Hlen Hq.
  do 16 (destruct ws as [|? ws]; [discriminate|]).
  destruct ws; [|discriminate].
  unfold columns, diagonals in Hq. simpl in Hq.
  repeat (apply elem_of_cons in Hq as [-> | Hq]; [reflexivity|]).
  by apply elem_of_nil in Hq.
Qed.

Lemma length_mix_at ws q : length (mix_at ws q) = length ws.
Proof.
  destruct q as [[[i j] k] l]. unfold mix_at.
  destruct (mix _) as [[[a b] c] d]. by rewrite !length_insert.
Qed.

Lemma length_double_round ws : length (double_round ws) = length ws.
Proof.
  unfold double_round, columns, diagonals. cbn [foldl].
  by rewrite !length_mix_at.
Qed.

Lemma round_double_round ws : length ws = 16%nat -> round ws = double_round ws.
Proof.
  intros Hlen. unfold round, double_round, columns, diagonals. cbn [foldl].
  rewrite (quarter_round_mix ws (0, 4, 8, 12)%nat) by (done || in_list).
  repeat match goal with
  | |- context [quarter_round ?a ?b ?c ?d (mix_at ?w ?q)] =>
      rewrite (quarter_round_mix (mix_at w q) (a, b, c, d));
      [ | by rewrite ?length_mix_at | in_list ]
  end.
  reflexivity.
Qed.

Lemma iter_round ws n :
  length ws = 16%nat ->
  Nat.iter n round ws = Nat.iter n double_round ws /\
  length (Nat.iter n double_round ws) = 16%nat.
Proof.
  intros Hlen. induction n as [|n [IH1 IH2]]; [done|].
  rewrite !Nat.iter_succ.
  rewrite IH1, round_double_round, length_double_round by done. done.
Qed.

Lemma final_addition ws st :
  length ws = 16%nat -> length st = 16%nat ->
  foldl (fun w i => <[i := add32 (w !!! i) (st !!! i)]> w) ws (seq 0 STATE_SIZE)
  = add_words ws st.
Proof.
  intros Hw Hs.
  do 16 (destruct ws as [|? ws]; [discriminate|]). destruct ws; [|discriminate].
  do 16 (destruct st as [|? st]; [discriminate|]). destruct st; [|discriminate].
  reflexivity.
Qed.

Lemma block_eq st :
  length st = 16%nat ->
  block st = (add_words (Nat.iter 10 double_round st) st, bump st).
Proof.
  intros Hlen. unfold block.
  destruct (iter_round st 10 Hlen) as [-> Hl].
  rewrite final_addition by done.
  unfold bump. f_equal.
  rewrite list_lookup_total_insert_eq by lia. reflexivity.
Qed.

Lemma bump_counter st :
  length st = 16%nat -> is_u32 (st !!! 12%nat) -> is_u32 (st !!! 13%nat) ->
  counter (bump st) = wrap64 (counter st + 1).
Proof.
  intros Hlen H12 H13. unfold bump, counter, add32, wrap32, wrap64, is_u32 in *.
  set (lo := st !!! 12%nat) in *. set (hi := st !!! 13%nat) in *.
  case_decide as Hz; read_insert; fold lo hi.
  - rewrite Hz.
    assert (lo = 2 ^ 32 - 1) as ->.
    { destruct (decide (lo = 2 ^ 32 - 1)) as [|Hne]; [done|].
      rewrite Z.mod_small in Hz; lia. }
    destruct (decide (hi = 2 ^ 32 - 1)) as [->|Hne]; [reflexivity|].
    rewrite (Z.mod_small (hi + 1)) by lia.
    rewrite Z.mod_small by lia. lia.
  - assert (lo <> 2 ^ 32 - 1) by (intros ->; by apply Hz).
    rewrite (Z.mod_small (lo + 1)) by lia.
    rewrite Z.mod_small by lia. lia.
Qed.

Lemma wf_add_words xs ys :
  length xs = 16%nat -> length ys = 16%nat -> wf (add_words xs ys).
Proof.
  intros Hx Hy. split.
  - unfold add_words. rewrite length_zip_with. lia.
  - unfold add_words. apply Forall_forall. intros w Hw.
    apply elem_of_lookup_zip_with in Hw as (i & x & y & -> & _ & _).
    apply wrap32_range.
Qed.

Lemma fold_loop_pairs r :
  wf r ->
  foldl (fun combined j =>
           let i := (2 * j)%nat in
           Z.lxor combined
             (Z.lor (wrap64 (Z.shiftl (r !!! i) 32)) (r !!! (i + 1)%nat)))
        0 (seq 0 8)
  = fold_pairs r.
Proof.
  intros [Hlen Hr].
  do 16 (destruct r as [|? r]; [discriminate|]). destruct r; [|discriminate].
  repeat match goal with
  | H : Forall _ (_ :: _) |- _ => apply Forall_cons in H as [? H]
  end.
  cbn [foldl seq Nat.mul Nat.add fold_pairs].
  change (2 * 0)%nat with 0%nat.
  cbn [lookup_total list_lookup_total].
  rewrite !wrap64_shiftl_u32 by done.
  unfold concat64. rewrite Z.lxor_0_l, Z.lxor_0_r, !Z.lxor_assoc. reflexivity.
Qed.

Lemma next_fold st :
  length st = 16%nat ->
  next st = (fold_pairs (fst (next512 st)), snd (next512 st)).
Proof.
  intros Hlen. unfold next, next512. rewrite block_eq by done. cbn [fst snd].
  rewrite fold_loop_pairs; [done|].
  apply wf_add_words; [|done]. by apply iter_round.
Qed.

Lemma block_frame st :
  take 12 (snd (block st)) = take 12 st /\ drop 14 (snd (block st)) = drop 14 st.
Proof.
  unfold block. cbn [snd]. case_decide.
  - by rewrite !take_insert_ge, !drop_insert_lt by lia.
  - by rewrite !take_insert_ge, !drop_insert_lt by lia.
Qed.

Lemma after_call_block st c : after_call st c = snd (block st).
Proof.
  destruct c; unfold after_call, next, next512; [|done].
  by destruct (block st).
Qed.

Lemma after_calls_frame cs : forall st,
  take 12 (after_calls st cs) = take 12 st /\
  drop 14 (after_calls st cs) = drop 14 st.
Proof.
  induction cs as [|c cs IH]; intros st; [done|].
  unfold after_calls in *. cbn [foldl].
  destruct (IH (after_call st c)) as [-> ->].
  rewrite after_call_block. apply block_frame.
Qed.

Lemma take_4_of_12 (l k : list Z) : take 12 l = take 12 k -> take 4 l = take 4 k.
Proof.
  intros H. apply (f_equal (take 4)) in H. by rewrite !take_take in H.
Qed.

Lemma block_carry st :
  length st = 16%nat -> st !!! 12%nat = 0xFFFFFFFF ->
  snd (block st) !!! 12%nat = 0 /\
  snd (block st) !!! 13%nat = add32 (st !!! 13%nat) 1.
Proof.
  intros Hlen H12. unfold block. cbn [snd]. read_insert.
  rewrite H12. change (add32 0xFFFFFFFF 1) with 0.
  rewrite decide_True by done. by read_insert.
Qed.

Lemma from_device_eq src n :
  from_device src n =
    (EXPAND_32_BYTE_K
       ++ [Entropy.value src n; Entropy.value src (1 + n);
           Entropy.value src (2 + n); Entropy.value src (3 + n)]
       ++ [0; 0; 0; 0]
       ++ [0; 0]
       ++ [Entropy.value src (4 + n); Entropy.value src (5 + n)],
     (6 + n)%nat).
Proof. unfold from_device, Entropy.bind, Entropy.rd, Entropy.ret. reflexivity. Qed.

End ChaCha20_Facts.

(** ** The AES-counter engine *)

Module AESCTR_Facts.

Import AESCTR AESCTR_Doc.

Lemma SBOX_u8 : Forall is_u8 SBOX.
Proof. apply (bool_decide_unpack (Forall is_u8 SBOX)). vm_compute. exact I. Qed.

Lemma sub_byte_u8 b : is_u8 (sub_byte b).
Proof. apply lookup_total_u8, SBOX_u8. Qed.

Lemma Forall_list_inserts (P : Z -> Prop) k : forall off l,
  Forall P k -> Forall P l -> Forall P (list_inserts off k l).
Proof.
  induction k as [|y k IH]; intros off l Hk Hl; simpl; [done|].
  apply Forall_cons in Hk as [Hy Hk]. apply Forall_insert; [by apply IH|done].
Qed.

Lemma take_list_inserts_ge (k : list Z) : forall n off l,
  (n <= off)%nat -> take n (list_inserts off k l) = take n l.
Proof.
  induction k as [|y k IH]; intros n off l Hn; simpl; [done|].
  rewrite take_insert_ge by lia. apply IH. lia.
Qed.

Section KeySchedule.

Variable host : endian.
Variable shl_undefined : nat -> Z.

Local Abbreviation step := (key_expansion_step host shl_undefined).

Lemma substitution_loop w :
  foldl (fun tb j => <[j := SBOX !!! Z.to_nat (tb !!! j)]> tb)
        (to_bytes host 4 w) (seq 0 4)
  = sub_byte <$> to_bytes host 4 w.
Proof.
  pose proof (length_to_bytes host 4 w) as Hl.
  destruct (to_bytes host 4 w) as [|b0 [|b1 [|b2 [|b3 [|]]]]]; done.
Qed.

Lemma sub_word_u32 w : is_u32 (sub_word host w).
Proof.
  unfold sub_word.
  pose proof (of_bytes_range host (sub_byte <$> to_bytes host 4 w)) as H.
  rewrite length_fmap, length_to_bytes in H. apply H.
  apply Forall_fmap, Forall_forall. intros b _. apply sub_byte_u8.
Qed.

Lemma length_step ek i : length (step ek i) = length ek.
Proof. apply length_store32. Qed.

Lemma step_u8 ek i : Forall is_u8 ek -> Forall is_u8 (step ek i).
Proof. apply store32_u8. Qed.

Lemma take_16_step ek i : (4 <= i)%nat -> take 16 (step ek i) = take 16 ek.
Proof. intros Hi. apply take_list_inserts_ge. lia. Qed.

Lemma word_step_ne ek i j : i <> j -> word host (step ek i) j = word host ek j.
Proof. intros Hij. apply load32_store32_ne. lia. Qed.

Lemma word_step_eq ek i :
  (4 <= i < 44)%nat -> length ek = 176%nat -> Forall is_u8 ek ->
  word host (step ek i) i
  = schedule_word host shl_undefined
      (word host ek (i - 4)) (word host ek (i - 1)) i.
Proof.
  intros Hi Hlen Hek. unfold key_expansion_step, word.
  rewrite load32_store32_eq by lia.
  unfold schedule_word, fourth_word, Nk.
  pose proof (load32_u32 host ek (4 * (i - 4)) Hek) as Hback.
  pose proof (load32_u32 host ek (4 * (i - 1)) Hek) as Hprev.
  case_decide.
  - rewrite substitution_loop. apply wrap32_id.
    apply lxor_u32; [done|]. apply lxor_u32; [apply sub_word_u32|apply wrap32_range].
  - apply wrap32_id. by apply lxor_u32.
Qed.

Lemma expansion_invariant key ek0 k :
  bytes 16 key -> bytes 176 ek0 -> (k <= 40)%nat ->
  let ek := foldl step (list_inserts 0 key ek0) (seq 4 k) in
  length ek = 176%nat /\ Forall is_u8 ek /\ take 16 ek = key /\
  forall i, (4 <= i < 4 + k)%nat ->
    word host ek i
    = schedule_word host shl_undefined
        (word host ek (i - 4)) (word host ek (i - 1)) i.
Proof.
  intros [Hkl Hkey] [Hel Hek0]. induction k as [|k IH]; intros Hk ek.
  - subst ek. cbn [seq foldl]. split; [by rewrite length_inserts|].
    split; [by apply Forall_list_inserts|]. split; [|intros i Hi; lia].
    rewrite <-(take_drop 16 ek0).
    rewrite list_inserts_0_r by (rewrite length_take; lia).
    rewrite take_app_length'; [done|lia].
  - subst ek. rewrite seq_S, foldl_app. cbn [foldl].
    destruct IH as (Hlen & Hu8 & Htake & Hrec); [lia|].
    set (ek := foldl step (list_inserts 0 key ek0) (seq 4 k)) in *.
    split; [by rewrite length_step|]. split; [by apply step_u8|].
    split; [rewrite take_16_step by lia; done|].
    intros i Hi. destruct (decide (i = 4 + k)%nat) as [->|Hne].
    + rewrite word_step_eq by (done || lia).
      by rewrite !word_step_ne by lia.
    + rewrite !word_step_ne by lia. apply Hrec. lia.
Qed.

Lemma word_take_16 ek i :
  (i < 4)%nat -> word host (take 16 ek) i = word host ek i.
Proof.
  intros Hi. unfold word, load32. by rewrite !lookup_total_take_lt by lia.
Qed.

End KeySchedule.

Lemma key_expansion_loop host shl_undefined key indeterminate :
  key_expansion host shl_undefined key indeterminate
  = foldl (key_expansion_step host shl_undefined)
      (list_inserts 0 key indeterminate) (seq 4 40).
Proof. unfold key_expansion. reflexivity. Qed.

Lemma four_bytes_at (bs : list Z) : forall n,
  (n + 4 <= length bs)%nat ->
  take 4 (drop n bs)
  = [bs !!! n; bs !!! (n + 1)%nat; bs !!! (n + 2)%nat; bs !!! (n + 3)%nat].
Proof.
  induction bs as [|b bs IH]; intros n Hn; [cbn in Hn; lia|].
  destruct n as [|n].
  - do 3 (destruct bs as [|? bs]; [cbn in Hn; lia|]). reflexivity.
  - cbn [drop]. rewrite IH by (cbn in Hn; lia). reflexivity.
Qed.

Lemma word_in_memory host bs i :
  Forall is_u8 bs -> (4 * i + 4 <= length bs)%nat ->
  take 4 (drop (4 * i) bs) = to_bytes host 4 (word host bs i).
Proof.
  intros Hbs Hlen. rewrite four_bytes_at by lia. symmetry.
  unfold word, load32.
  apply (to_bytes_of_bytes host
           [bs !!! (4 * i)%nat; bs !!! (4 * i + 1)%nat;
            bs !!! (4 * i + 2)%nat; bs !!! (4 * i + 3)%nat]).
  repeat constructor; by apply lookup_total_u8.
Qed.

(** The first round key the code derives from the key of the standard's
    example, whatever [m_expanded_key] held and whatever the undefined
    shift yields: word 4 takes a shift by zero. *)
Lemma fips_first_round_key host shl_undefined previous :
  bytes 176 previous ->
  let ek := key_expansion host shl_undefined Examples.fips_key previous in
  length ek = 176%nat /\
  take 16 ek = Examples.fips_key /\
  take 4 (drop 16 ek)
  = match host with
    | LittleEndian => [0xc1; 0x7f; 0x9f; 0x92]
    | BigEndian => [0xa1; 0xfa; 0xfe; 0x16]
    end.
Proof.
  intros Hprev ek. subst ek. rewrite key_expansion_loop.
  assert (bytes 16 Examples.fips_key) as Hkey.
  { split; [reflexivity|]. apply (bool_decide_unpack _). vm_compute. exact I. }
  pose proof (expansion_invariant host shl_undefined _ previous 40 Hkey Hprev) as H.
  cbv zeta in H. destruct H as (Hlen & Hu8 & Htake & Hrec); [lia|].
  split; [exact Hlen|]. split; [exact Htake|].
  rewrite (word_in_memory host _ 4) by (done || lia).
  rewrite Hrec by lia.
  rewrite <-(word_take_16 host _ (4 - 4)), <-(word_take_16 host _ (4 - 1)) by lia.
  rewrite Htake. destruct host; vm_compute; reflexivity.
Qed.

(** The schedule the standard recurrence gives for that key. *)
Lemma standard_fips_schedule :
  let std := standard_key_expansion Examples.fips_key in
  length std = 176%nat /\
  take 16 std = Examples.fips_key /\
  take 4 (drop 16 std) = [0xa0; 0xfa; 0xfe; 0x17] /\
  drop 160 std = Examples.fips_last_round_key.
Proof. vm_compute. repeat split. Qed.

Section Engine.

Variable host : endian.

Lemma process_block_transform state e :
  length state = 16%nat -> (32 <= length (m_expanded_key e))%nat ->
  fst (process_block host state e) = transform (m_expanded_key e) state.
Proof.
  intros Hs He. destruct e as [ctr ek]. cbn [m_expanded_key] in *.
  do 16 (destruct state as [|? state]; [discriminate|]).
  destruct state; [|discriminate].
  do 32 (destruct ek as [|? ek]; [simpl in He; lia|]).
  reflexivity.
Qed.

Lemma process_block_engine state e :
  snd (process_block host state e)
  = Engine (increment_counter host (m_state e)) (m_expanded_key e).
Proof. reflexivity. Qed.

Lemma transform_bytes ek blk :
  Forall is_u8 ek -> (32 <= length ek)%nat -> length blk = 16%nat ->
  bytes 16 (transform ek blk).
Proof.
  intros Hek Hlen Hblk. unfold transform, add_round_key, round_key. split.
  - rewrite length_zip_with, length_take, length_drop. unfold shift_rows.
    rewrite length_fmap. change (length SHIFT_ROWS) with 16%nat. lia.
  - apply Forall_forall. intros b Hb.
    apply elem_of_lookup_zip_with in Hb as (i & x & y & -> & Hx & Hy).
    apply lxor_u8.
    + unfold shift_rows in Hx. apply list_lookup_fmap_Some in Hx as (j & -> & _).
      apply lookup_total_u8. unfold sub_bytes.
      apply Forall_fmap, Forall_forall. intros b _. apply sub_byte_u8.
    + eapply Forall_lookup_1; [|done]. by apply Forall_take, Forall_drop.
Qed.

Lemma length_pre_increment k st :
  length (pre_increment host k st) = length st.
Proof. apply length_store32. Qed.

Lemma pre_increment_u8 k st :
  Forall is_u8 st -> Forall is_u8 (pre_increment host k st).
Proof. apply store32_u8. Qed.

Lemma word_pre_increment_eq k st :
  (4 * k + 4 <= length st)%nat ->
  word host (pre_increment host k st) k = add32 (word host st k) 1.
Proof.
  intros Hk. unfold word, pre_increment. rewrite load32_store32_eq by done.
  apply wrap32_id, wrap32_range.
Qed.

Lemma word_pre_increment_ne k j st :
  k <> j -> word host (pre_increment host k st) j = word host st j.
Proof. intros Hkj. apply load32_store32_ne. lia. Qed.

Lemma increment_counter_bytes st :
  bytes 16 st -> bytes 16 (increment_counter host st).
Proof.
  intros [Hlen Hst]. unfold increment_counter.
  repeat case_decide; split;
    rewrite ?length_pre_increment; auto using pre_increment_u8.
Qed.

Lemma increment_counter_add st :
  bytes 16 st ->
  counter host (increment_counter host st) = (counter host st + 1) mod 2 ^ 128.
Proof.
  intros [Hlen Hst]. unfold increment_counter, counter.
  change (load32 host ?s 12) with (word host s 3).
  change (load32 host ?s 8) with (word host s 2).
  change (load32 host ?s 4) with (word host s 1).
  pose proof (load32_u32 host st 0 Hst) as H0.
  pose proof (load32_u32 host st 4 Hst) as H1.
  pose proof (load32_u32 host st 8 Hst) as H2.
  pose proof (load32_u32 host st 12 Hst) as H3.
  change (load32 host st 12) with (word host st 3) in H3.
  change (load32 host st 8) with (word host st 2) in H2.
  change (load32 host st 4) with (word host st 1) in H1.
  change (load32 host st 0) with (word host st 0) in H0.
  repeat first
    [ rewrite word_pre_increment_eq by (rewrite ?length_pre_increment; lia)
    | rewrite word_pre_increment_ne by lia ].
  set (w0 := word host st 0) in *. set (w1 := word host st 1) in *.
  set (w2 := word host st 2) in *. set (w3 := word host st 3) in *.
  destruct (add32_1_cases w0 H0) as [[E0 E0']|[E0 E0']];
  destruct (add32_1_cases w1 H1) as [[E1 E1']|[E1 E1']];
  destruct (add32_1_cases w2 H2) as [[E2 E2']|[E2 E2']];
  destruct (add32_1_cases w3 H3) as [[E3 E3']|[E3 E3']];
  unfold is_u32 in *;
  repeat (case_decide;
          repeat first
            [ rewrite word_pre_increment_eq by (rewrite ?length_pre_increment; lia)
            | rewrite word_pre_increment_ne by lia ];
          fold w0 w1 w2 w3);
  rewrite ?E0', ?E1', ?E2', ?E3' in *; try lia;
  try (rewrite Z.mod_small by lia; lia).
  rewrite E0, E1, E2, E3. reflexivity.
Qed.

Lemma assemble_halves buffer :
  bytes 16 buffer ->
  foldl (fun '(high, low) i =>
           (Z.lor high (wrap64 (Z.shiftl (buffer !!! i) (Z.of_nat i * 8))),
            Z.lor low (wrap64 (Z.shiftl (buffer !!! (i + 8)%nat) (Z.of_nat i * 8)))))
        (0, 0) (seq 0 8)
  = (le_value (take 8 buffer), le_value (drop 8 buffer)).
Proof.
  intros [Hlen Hb].
  do 16 (destruct buffer as [|? buffer]; [discriminate|]).
  destruct buffer; [|discriminate].
  repeat match goal with
  | H : Forall _ (_ :: _) |- _ => apply Forall_cons in H as [? H]
  end.
  cbn [foldl seq take drop le_value lookup_total list_lookup_total Nat.add].
  change (Z.of_nat 0 * 8) with 0. change (Z.of_nat 1 * 8) with 8.
  change (Z.of_nat 2 * 8) with 16. change (Z.of_nat 3 * 8) with 24.
  change (Z.of_nat 4 * 8) with 32. change (Z.of_nat 5 * 8) with 40.
  change (Z.of_nat 6 * 8) with 48. change (Z.of_nat 7 * 8) with 56.
  repeat match goal with
  | |- context [Z.lor ?acc (wrap64 (Z.shiftl ?b ?k))] =>
      lazymatch acc with context [Z.lor] => fail | _ => idtac end;
      rewrite (lor_byte acc b k) by (unfold is_u8 in *; (done || lia))
  end.
  f_equal; lia.
Qed.

Lemma increment_counter_carry ctr :
  bytes 16 ctr -> word host ctr 3 = 0xFFFFFFFF ->
  word host (increment_counter host ctr) 3 = 0 /\
  word host (increment_counter host ctr) 2 = add32 (word host ctr 2) 1.
Proof.
  intros [Hlen Hctr] H3. unfold increment_counter.
  change (load32 host ?s 12) with (word host s 3).
  change (load32 host ?s 8) with (word host s 2).
  change (load32 host ?s 4) with (word host s 1).
  rewrite word_pre_increment_eq by lia. rewrite H3.
  change (add32 0xFFFFFFFF 1) with 0. rewrite decide_True by done.
  repeat case_decide;
    repeat first
      [ rewrite word_pre_increment_eq by (rewrite ?length_pre_increment; lia)
      | rewrite word_pre_increment_ne by lia ];
    by rewrite ?H3.
Qed.

Lemma increment_counter_wraps :
  increment_counter host (replicate 16 0xFF) = replicate 16 0.
Proof. destruct host; vm_compute; reflexivity. Qed.

Lemma memory_next128 buffer e :
  bytes 16 buffer -> wf e ->
  memory host (fst (next128 host buffer e)) = fst (process_block host buffer e).
Proof.
  intros [Hlen Hb] [_ [Hel Hek]].
  pose proof (transform_bytes (m_expanded_key e) buffer Hek) as [Hl Hu];
    [lia|done|].
  rewrite <-process_block_transform in Hl, Hu by (done || lia).
  unfold next128.
  destruct (process_block host buffer e) as [blk e'] eqn:Hpb. cbn [fst] in *.
  unfold memory. cbn [mbind list_bind app].
  rewrite app_nil_r.
  assert (length (take 8 blk) = 8%nat) as H1 by (rewrite length_take; lia).
  assert (length (take 8 (drop 8 blk)) = 8%nat) as H2
    by (rewrite length_take, length_drop; lia).
  pose proof (to_bytes_of_bytes host (take 8 blk)) as R1.
  pose proof (to_bytes_of_bytes host (take 8 (drop 8 blk))) as R2.
  rewrite H1 in R1. rewrite H2 in R2.
  rewrite R1 by by apply Forall_take.
  rewrite R2 by by apply Forall_take, Forall_drop.
  rewrite (take_ge (drop 8 blk)) by (rewrite length_drop; lia).
  apply take_drop.
Qed.

Lemma next_halves buffer e :
  bytes 16 buffer -> wf e ->
  let blk := memory host (fst (next128 host buffer e)) in
  next host buffer e
  = (Z.lxor (le_value (take 8 blk)) (le_value (drop 8 blk)),
     snd (next128 host buffer e)).
Proof.
  intros Hbuf He blk. subst blk. rewrite memory_next128 by done.
  destruct Hbuf as [Hlen Hb]. destruct He as [_ [Hel Hek]].
  pose proof (transform_bytes (m_expanded_key e) buffer Hek) as Hblk.
  rewrite <-process_block_transform in Hblk by (done || lia).
  unfold next, next128.
  destruct (process_block host buffer e) as [blk e'] eqn:Hpb. cbn [fst snd] in *.
  rewrite assemble_halves by (apply Hblk; lia). reflexivity.
Qed.

Lemma after_call_schedule e c :
  m_expanded_key (after_call host e c) = m_expanded_key e.
Proof.
  destruct c as [state|buffer|buffer]; unfold after_call, next, next128.
  - reflexivity.
  - destruct (process_block host buffer e) as [blk e'] eqn:Hpb.
    pose proof (process_block_engine buffer e) as He'.
    rewrite Hpb in He'. cbn [snd] in He'. subst e'.
    by destruct (foldl _ _ _).
  - reflexivity.
Qed.

Lemma after_calls_schedule cs : forall e,
  m_expanded_key (after_calls host e cs) = m_expanded_key e.
Proof.
  induction cs as [|c cs IH]; intros e; [done|].
  unfold after_calls in *. cbn [foldl]. rewrite IH. apply after_call_schedule.
Qed.

End Engine.

End AESCTR_Facts.

(** * The properties of the design document *)

Ltac by_evaluation :=
  repeat split;
  first [ reflexivity | apply (bool_decide_unpack _); vm_compute; exact I ].

(** C1, as amended.  For every state of sixteen 32-bit words, [block()]
    returns the state after ten double rounds plus the state it started
    from, word by word modulo 2^32, and leaves the 64-bit counter of words
    12-13 incremented by one, the carry going from word 12 into word 13.  A
    double round is the quarter-round on the four columns and then on the
    four diagonals, and the quarter-round is four additions, four XORs and
    four left rotations, by 16, 12, 8 and 7 bits. *)
Theorem ChaCha20_block_ten_double_rounds st :
  ChaCha20_Doc.wf st ->
  (ChaCha20_Doc.count_stmt ChaCha20_Doc.is_add ChaCha20.quarter_round_body = 4%nat /\
   ChaCha20_Doc.count_stmt ChaCha20_Doc.is_xor ChaCha20.quarter_round_body = 4%nat /\
   ChaCha20_Doc.count_stmt ChaCha20_Doc.is_rotl ChaCha20.quarter_round_body = 4%nat /\
   ChaCha20_Doc.rotations ChaCha20.quarter_round_body = [16; 12; 8; 7]) /\
  (forall q, q ∈ ChaCha20_Doc.columns ++ ChaCha20_Doc.diagonals ->
     forall ws, length ws = 16%nat ->
     let '(a, b, c, d) := q in
     ChaCha20.quarter_round a b c d ws = ChaCha20_Doc.mix_at ws q) /\
  (forall ws, length ws = 16%nat ->
     ChaCha20.round ws = ChaCha20_Doc.double_round ws) /\
  ChaCha20.block st
  = (ChaCha20_Doc.add_words (Nat.iter 10 ChaCha20_Doc.double_round st) st,
     ChaCha20_Doc.bump st) /\
  ChaCha20_Doc.counter (snd (ChaCha20.block st))
  = wrap64 (ChaCha20_Doc.counter st + 1).
Proof.
  intros [Hlen Hst]. split; [by vm_compute|]. split; [|split; [|split]].
  - intros q Hq ws Hws. by apply ChaCha20_Facts.quarter_round_mix.
  - apply ChaCha20_Facts.round_double_round.
  - by apply ChaCha20_Facts.block_eq.
  - rewrite ChaCha20_Facts.block_eq by done. cbn [snd].
    apply ChaCha20_Facts.bump_counter; [done| |].
    + eapply Forall_lookup_1; [done|]. apply list_lookup_lookup_total_lt. lia.
    + eapply Forall_lookup_1; [done|]. apply list_lookup_lookup_total_lt. lia.
Qed.

Lemma ChaCha20_block_ten_double_rounds_witness :
  ChaCha20_Doc.wf Examples.chacha_saturated /\
  ChaCha20.block Examples.chacha_saturated
  = (ChaCha20_Doc.add_words
       (Nat.iter 10 ChaCha20_Doc.double_round Examples.chacha_saturated)
       Examples.chacha_saturated,
     ChaCha20_Doc.bump Examples.chacha_saturated) /\
  ChaCha20_Doc.counter (snd (ChaCha20.block Examples.chacha_saturated))
  = wrap64 (ChaCha20_Doc.counter Examples.chacha_saturated + 1).
Proof.
  assert (ChaCha20_Doc.wf Examples.chacha_saturated) as Hwf by by_evaluation.
  split; [exact Hwf|].
  exact (proj2 (proj2 (proj2
           (ChaCha20_block_ten_double_rounds Examples.chacha_saturated Hwf)))).
Defined.

(** C1, as the document words it, fails: the quarter-round of the code does
    not consist of three additions, three XORs and three rotations, and no
    body obtained by leaving one of its four add/XOR/rotate groups out
    computes what it computes. *)
Lemma ChaCha20_quarter_round_not_three_of_each :
  ~ (ChaCha20_Doc.count_stmt ChaCha20_Doc.is_add ChaCha20.quarter_round_body = 3%nat /\
     ChaCha20_Doc.count_stmt ChaCha20_Doc.is_xor ChaCha20.quarter_round_body = 3%nat /\
     ChaCha20_Doc.count_stmt ChaCha20_Doc.is_rotl ChaCha20.quarter_round_body = 3%nat) /\
  (forall g, (g < 4)%nat ->
     foldl (ChaCha20.exec 0 1 2 3) [1; 2; 3; 4]
       (ChaCha20_Doc.without_group g ChaCha20.quarter_round_body)
     <> ChaCha20.quarter_round 0 1 2 3 [1; 2; 3; 4]).
Proof.
  split.
  - intros [H _]. vm_compute in H. discriminate H.
  - intros g Hg.
    destruct g as [|[|[|[|g]]]]; [| | | |lia]; vm_compute; discriminate.
Qed.

(** C2.  The engine built from the all-zero key and the all-zero nonce
    returns, at its first [next512()], the sixteen words whose little-endian
    bytes are the published ChaCha20 block for the all-zero key, nonce and
    counter. *)
Theorem ChaCha20_zero_key_block_is_published_vector :
  ChaCha20_Doc.serialize
    (fst (ChaCha20.next512 (ChaCha20.from_key (replicate 8 0) (replicate 2 0))))
  = ChaCha20_Doc.published_zero_block.
Proof. vm_compute. reflexivity. Qed.

(** C3, at an input where the code departs from it.  [process_block]
    transforms the array it is handed, which [next()] and [next128()] leave
    uninitialised, and never reads the counter: on the engine built from the
    all-zero key and nonce, with a buffer of sixteen [0xFF] bytes, the
    result is the transform of the buffer and differs from the transform of
    the counter; and on any host, two engines with the same schedule and
    different counters produce the same block. *)
Theorem AESCTR_process_block_ignores_counter :
  fst (AESCTR.process_block LittleEndian Examples.ones_buffer Examples.aes_zero)
  = AESCTR_Doc.transform (AESCTR.m_expanded_key Examples.aes_zero)
      Examples.ones_buffer /\
  fst (AESCTR.process_block LittleEndian Examples.ones_buffer Examples.aes_zero)
  <> AESCTR_Doc.transform (AESCTR.m_expanded_key Examples.aes_zero)
       (AESCTR.m_state Examples.aes_zero) /\
  forall host state ctr ctr' ek,
    fst (AESCTR.process_block host state (AESCTR.Engine ctr ek))
    = fst (AESCTR.process_block host state (AESCTR.Engine ctr' ek)).
Proof.
  split; [vm_compute; reflexivity|]. split; [vm_compute; discriminate|].
  intros host state ctr ctr' ek. unfold AESCTR.process_block.
  cbn [AESCTR.m_expanded_key fst]. reflexivity.
Qed.

(** C4, as amended.  The constructor from an entropy source calls the
    source six times.  Words 0-3 are the protocol constants, key words 4-7
    are the first four values in the order drawn, key words 8-11 are not
    drawn and are zero, the counter words 12-13 are zero, and the nonce
    words 14-15 are the fifth and sixth values. *)
Theorem ChaCha20_from_device_layout src n :
  let '(st, calls) := ChaCha20.from_device src n in
  length st = 16%nat /\
  take 4 st = ChaCha20.EXPAND_32_BYTE_K /\
  take 4 (drop 4 st) = Entropy.value src <$> seq n 4 /\
  take 4 (drop 8 st) = [0; 0; 0; 0] /\
  take 2 (drop 12 st) = [0; 0] /\
  drop 14 st = Entropy.value src <$> seq (4 + n) 2 /\
  calls = (6 + n)%nat.
Proof. rewrite ChaCha20_Facts.from_device_eq. repeat split. Qed.

(** C4, as the document words it, fails.  With a source that always returns
    7 the constructor has made six calls, not four, and word 8 of the key
    holds a value the source never returned. *)
Lemma ChaCha20_from_device_not_eight_key_words :
  let '(st, calls) := ChaCha20.from_device Examples.sevens 0%nat in
  calls <> 4%nat /\
  ~ (forall i, (4 <= i < 12)%nat ->
       exists k, st !!! i = Entropy.value Examples.sevens k).
Proof.
  rewrite ChaCha20_Facts.from_device_eq. split; [discriminate|].
  intros H. destruct (H 8%nat) as [k Hk]; [lia|]. discriminate Hk.
Qed.

(** C5.  One [block()] call on a ChaCha20 state whose word 12 is
    [0xFFFFFFFF] leaves word 12 at 0 and word 13 incremented by one.  One
    [increment_counter()] on an AES counter whose word 3 is all-ones leaves
    word 3 at 0 and word 2 incremented by one; on every counter it adds one
    to the 128-bit number whose least significant word is word 3, modulo
    2^128; and the all-ones counter becomes the all-zero counter. *)
Theorem counters_carry host st ctr :
  ChaCha20_Doc.wf st -> st !!! 12%nat = 0xFFFFFFFF ->
  AESCTR_Doc.bytes 16 ctr -> AESCTR_Doc.word host ctr 3 = 0xFFFFFFFF ->
  (snd (ChaCha20.block st) !!! 12%nat = 0 /\
   snd (ChaCha20.block st) !!! 13%nat = add32 (st !!! 13%nat) 1) /\
  (AESCTR_Doc.word host (AESCTR.increment_counter host ctr) 3 = 0 /\
   AESCTR_Doc.word host (AESCTR.increment_counter host ctr) 2
   = add32 (AESCTR_Doc.word host ctr 2) 1) /\
  AESCTR_Doc.counter host (AESCTR.increment_counter host ctr)
  = (AESCTR_Doc.counter host ctr + 1) mod 2 ^ 128 /\
  AESCTR.increment_counter host (replicate 16 0xFF) = replicate 16 0.
Proof.
  intros [Hlen _] H12 Hctr H3.
  split; [by apply ChaCha20_Facts.block_carry|].
  split; [by apply AESCTR_Facts.increment_counter_carry|].
  split; [by apply AESCTR_Facts.increment_counter_add|].
  apply AESCTR_Facts.increment_counter_wraps.
Qed.

Lemma counters_carry_witness :
  (ChaCha20_Doc.wf Examples.chacha_saturated /\
   Examples.chacha_saturated !!! 12%nat = 0xFFFFFFFF /\
   AESCTR_Doc.bytes 16 Examples.low_word_saturated /\
   AESCTR_Doc.word LittleEndian Examples.low_word_saturated 3 = 0xFFFFFFFF) /\
  (snd (ChaCha20.block Examples.chacha_saturated) !!! 12%nat = 0 /\
   snd (ChaCha20.block Examples.chacha_saturated) !!! 13%nat
   = add32 (Examples.chacha_saturated !!! 13%nat) 1) /\
  (AESCTR_Doc.word LittleEndian
     (AESCTR.increment_counter LittleEndian Examples.low_word_saturated) 3 = 0 /\
   AESCTR_Doc.word LittleEndian
     (AESCTR.increment_counter LittleEndian Examples.low_word_saturated) 2
   = add32 (AESCTR_Doc.word LittleEndian Examples.low_word_saturated 2) 1).
Proof.
  assert (ChaCha20_Doc.wf Examples.chacha_saturated) as H1 by by_evaluation.
  assert (Examples.chacha_saturated !!! 12%nat = 0xFFFFFFFF) as H2 by reflexivity.
  assert (AESCTR_Doc.bytes 16 Examples.low_word_saturated) as H3 by by_evaluation.
  assert (AESCTR_Doc.word LittleEndian Examples.low_word_saturated 3 = 0xFFFFFFFF)
    as H4 by reflexivity.
  pose proof (counters_carry LittleEndian _ _ H1 H2 H3 H4) as (Hc & Ha & _).
  exact (conj (conj H1 (conj H2 (conj H3 H4))) (conj Hc Ha)).
Defined.

(** C6, at an input where the code departs from it.  For the cipher key
    of the standard's own example, the standard key-expansion recurrence
    gives a 176-byte schedule that starts with the key, continues with the
    word [a0 fa fe 17] and ends with the published last round key.
    [key_expansion] also leaves 176 bytes that start with the key, but its
    next word is [c1 7f 9f 92] on a little-endian host and [a1 fa fe 16]
    on a big-endian one, whatever [m_expanded_key] held before and
    whatever the undefined shift yields: its rotation and its round
    constant act on the word as the host loads it, and the round constant
    is a shifted 1 instead of the constants of the standard.  From word
    20 on the shift count is 32 or more, and the schedule depends on what
    that undefined shift yields. *)
Theorem AESCTR_key_expansion_not_standard host shl_undefined previous :
  AESCTR_Doc.bytes 176 previous ->
  let ek := AESCTR.key_expansion host shl_undefined Examples.fips_key previous in
  let std := AESCTR_Doc.standard_key_expansion Examples.fips_key in
  (length std = 176%nat /\ take 16 std = Examples.fips_key /\
   take 4 (drop 16 std) = [0xa0; 0xfa; 0xfe; 0x17] /\
   drop 160 std = Examples.fips_last_round_key) /\
  (length ek = 176%nat /\ take 16 ek = Examples.fips_key /\
   take 4 (drop 16 ek)
   = match host with
     | LittleEndian => [0xc1; 0x7f; 0x9f; 0x92]
     | BigEndian => [0xa1; 0xfa; 0xfe; 0x16]
     end) /\
  ek <> std /\
  (take 80 (AESCTR.key_expansion host AESCTR_Doc.shl_masked
              Examples.fips_key Examples.aes_previous)
   = take 80 (AESCTR.key_expansion host AESCTR_Doc.shl_cleared
                Examples.fips_key Examples.aes_previous) /\
   take 4 (drop 80 (AESCTR.key_expansion host AESCTR_Doc.shl_masked
                      Examples.fips_key Examples.aes_previous))
   <> take 4 (drop 80 (AESCTR.key_expansion host AESCTR_Doc.shl_cleared
                         Examples.fips_key Examples.aes_previous))).
Proof.
  intros Hprev ek std.
  pose proof AESCTR_Facts.standard_fips_schedule as Hstd.
  pose proof (AESCTR_Facts.fips_first_round_key host shl_undefined previous Hprev)
    as Hcode.
  cbv zeta in Hstd, Hcode. fold ek in Hcode. fold std in Hstd.
  split; [exact Hstd|]. split; [exact Hcode|]. split.
  - intros E. destruct Hstd as (_ & _ & Hs & _). destruct Hcode as (_ & _ & Hc).
    rewrite E, Hs in Hc. destruct host; discriminate Hc.
  - destruct host; (split; [vm_compute; reflexivity|vm_compute; discriminate]).
Qed.

Lemma AESCTR_key_expansion_not_standard_witness :
  AESCTR_Doc.bytes 176 Examples.aes_previous /\
  take 4 (drop 16 (AESCTR.key_expansion LittleEndian AESCTR_Doc.shl_masked
                     Examples.fips_key Examples.aes_previous))
  = [0xc1; 0x7f; 0x9f; 0x92] /\
  take 4 (drop 16 (AESCTR_Doc.standard_key_expansion Examples.fips_key))
  = [0xa0; 0xfa; 0xfe; 0x17].
Proof.
  assert (AESCTR_Doc.bytes 176 Examples.aes_previous) as H1 by by_evaluation.
  split; [exact H1|].
  pose proof (AESCTR_key_expansion_not_standard LittleEndian AESCTR_Doc.shl_masked
                _ H1) as (Hstd & Hcode & _).
  split; [exact (proj2 (proj2 Hcode))|exact (proj1 (proj2 (proj2 Hstd)))].
Defined.

(** C7, at an input where the code departs from it.  For every ChaCha20
    state, [next()] returns the XOR of the eight concatenations (high word
    first) of the adjacent word pairs of what [next512()] returns from the
    same state, and leaves the same state behind.  For AESCTR the value
    of [next()] and the block of [next128()] come from the local buffer
    of the call, which neither call initialises, and not from the engine
    state.  They agree, by the XOR of the two 8-byte halves assembled
    least significant byte first, when the two buffers happen to hold the
    same bytes; from the same engine, with sixteen [0xFF] bytes in the
    buffer of [next()] and the bytes 1 to 16 in the buffer of
    [next128()], [next()] returns 0 and the halves of the block of
    [next128()] XOR to another value, though both calls leave the same
    engine behind. *)
Theorem AESCTR_step_not_fold_of_wide_block host st :
  ChaCha20_Doc.wf st ->
  ChaCha20.next st
  = (ChaCha20_Doc.fold_pairs (fst (ChaCha20.next512 st)),
     snd (ChaCha20.next512 st)) /\
  (forall buffer e,
     AESCTR_Doc.bytes 16 buffer -> AESCTR_Doc.wf e ->
     let blk := AESCTR_Doc.memory host (fst (AESCTR.next128 host buffer e)) in
     AESCTR.next host buffer e
     = (Z.lxor (le_value (take 8 blk)) (le_value (drop 8 blk)),
        snd (AESCTR.next128 host buffer e))) /\
  (let e := Examples.aes_zero in
   let blk :=
     AESCTR_Doc.memory host
       (fst (AESCTR.next128 host Examples.counting_buffer e)) in
   snd (AESCTR.next host Examples.ones_buffer e)
   = snd (AESCTR.next128 host Examples.counting_buffer e) /\
   fst (AESCTR.next host Examples.ones_buffer e) = 0 /\
   Z.lxor (le_value (take 8 blk)) (le_value (drop 8 blk)) = 0xcb310bcfa50c47d /\
   fst (AESCTR.next host Examples.ones_buffer e)
   <> Z.lxor (le_value (take 8 blk)) (le_value (drop 8 blk))).
Proof.
  intros [Hlen _].
  split; [by apply ChaCha20_Facts.next_fold|].
  split; [intros buffer e Hbuf He; by apply AESCTR_Facts.next_halves|].
  destruct host; vm_compute; (split; [reflexivity|]); (split; [reflexivity|]);
    (split; [reflexivity|discriminate]).
Qed.

Lemma AESCTR_step_not_fold_of_wide_block_witness :
  ChaCha20_Doc.wf Examples.chacha_zero /\
  fst (ChaCha20.next Examples.chacha_zero)
  = ChaCha20_Doc.fold_pairs (fst (ChaCha20.next512 Examples.chacha_zero)) /\
  fst (AESCTR.next LittleEndian Examples.ones_buffer Examples.aes_zero)
  <> Z.lxor
       (fst (AESCTR.next128 LittleEndian Examples.counting_buffer
               Examples.aes_zero) !!! 0%nat)
       (fst (AESCTR.next128 LittleEndian Examples.counting_buffer
               Examples.aes_zero) !!! 1%nat).
Proof.
  assert (ChaCha20_Doc.wf Examples.chacha_zero) as H1 by by_evaluation.
  pose proof (AESCTR_step_not_fold_of_wide_block LittleEndian _ H1)
    as (Hc & _ & _ & _ & _ & Hne).
  split; [exact H1|]. split; [exact (f_equal fst Hc)|exact Hne].
Defined.

(** C8.  Whatever the engine was constructed from, and whatever sequence of
    [next()] and [next512()] calls follows, words 0-3 of the state are the
    four protocol constants and words 0-11 and 14-15 are what they were
    after construction: only the counter words 12-13 change. *)
Theorem ChaCha20_only_counter_changes key nonce src n cs :
  let st0 := ChaCha20.from_key key nonce in
  let st1 := fst (ChaCha20.from_device src n) in
  (take 4 (ChaCha20_Doc.after_calls st0 cs) = ChaCha20.EXPAND_32_BYTE_K /\
   take 12 (ChaCha20_Doc.after_calls st0 cs) = take 12 st0 /\
   drop 14 (ChaCha20_Doc.after_calls st0 cs) = drop 14 st0) /\
  (take 4 (ChaCha20_Doc.after_calls st1 cs) = ChaCha20.EXPAND_32_BYTE_K /\
   take 12 (ChaCha20_Doc.after_calls st1 cs) = take 12 st1 /\
   drop 14 (ChaCha20_Doc.after_calls st1 cs) = drop 14 st1).
Proof.
  intros st0 st1.
  destruct (ChaCha20_Facts.after_calls_frame cs st0) as [H0 H0'].
  destruct (ChaCha20_Facts.after_calls_frame cs st1) as [H1 H1'].
  repeat split; try done.
  - by rewrite (ChaCha20_Facts.take_4_of_12 _ _ H0).
  - by rewrite (ChaCha20_Facts.take_4_of_12 _ _ H1).
Qed.

(** C9.  Expanding a 16-byte key leaves exactly 176 schedule bytes, the
    first sixteen of which are the key; and no sequence of [process_block],
    [next()] and [next128()] calls changes the schedule of an engine,
    whichever way the engine was obtained. *)
Theorem AESCTR_schedule_fixed host shl_undefined key nonce previous cs :
  AESCTR_Doc.bytes 16 key -> AESCTR_Doc.bytes 176 previous ->
  let ek := AESCTR.key_expansion host shl_undefined key previous in
  let e := AESCTR.from_key host shl_undefined previous key nonce in
  length ek = 176%nat /\
  take 16 ek = key /\
  AESCTR.m_expanded_key (AESCTR_Doc.after_calls host e cs) = ek /\
  forall e', AESCTR.m_expanded_key (AESCTR_Doc.after_calls host e' cs)
             = AESCTR.m_expanded_key e'.
Proof.
  intros Hkey Hprev ek e.
  assert (AESCTR.m_expanded_key e = ek) as He by reflexivity.
  rewrite AESCTR_Facts.after_calls_schedule, He. clear He e. subst ek.
  rewrite AESCTR_Facts.key_expansion_loop.
  pose proof (AESCTR_Facts.expansion_invariant host shl_undefined key previous 40
                Hkey Hprev) as H.
  cbv zeta in H. destruct H as (Hlen & _ & Htake & _); [lia|].
  split; [exact Hlen|]. split; [exact Htake|]. split; [reflexivity|].
  intros e'. apply AESCTR_Facts.after_calls_schedule.
Qed.

Lemma AESCTR_schedule_fixed_witness :
  (AESCTR_Doc.bytes 16 Examples.aes_zero_key /\
   AESCTR_Doc.bytes 176 Examples.aes_previous) /\
  take 16 (AESCTR.key_expansion LittleEndian AESCTR_Doc.shl_masked
             Examples.aes_zero_key Examples.aes_previous)
  = Examples.aes_zero_key /\
  AESCTR.m_expanded_key
    (AESCTR_Doc.after_calls LittleEndian Examples.aes_zero
       [AESCTR_Doc.CallNext Examples.ones_buffer;
        AESCTR_Doc.CallNext128 Examples.ones_buffer])
  = AESCTR.key_expansion LittleEndian AESCTR_Doc.shl_masked
      Examples.aes_zero_key Examples.aes_previous.
Proof.
  assert (AESCTR_Doc.bytes 16 Examples.aes_zero_key) as H1 by by_evaluation.
  assert (AESCTR_Doc.bytes 176 Examples.aes_previous) as H2 by by_evaluation.
  pose proof (AESCTR_schedule_fixed LittleEndian AESCTR_Doc.shl_masked
                Examples.aes_zero_key Examples.aes_zero_nonce Examples.aes_previous
                [AESCTR_Doc.CallNext Examples.ones_buffer;
                 AESCTR_Doc.CallNext128 Examples.ones_buffer] H1 H2)
    as (_ & Ht & Hs & _).
  exact (conj (conj H1 H2) (conj Ht Hs)).
Defined.

(** C10.  Whatever the source returns, key words 8-11 of an engine
    constructed from it are zero; the source reaches words 4-7 and 14-15
    only, so two constructions from any two sources agree on words 0-3 and
    8-13. *)
Theorem ChaCha20_from_device_upper_key_zero src n src' n' :
  take 4 (drop 8 (fst (ChaCha20.from_device src n))) = [0; 0; 0; 0] /\
  take 4 (fst (ChaCha20.from_device src n))
  = take 4 (fst (ChaCha20.from_device src' n')) /\
  take 6 (drop 8 (fst (ChaCha20.from_device src n)))
  = take 6 (drop 8 (fst (ChaCha20.from_device src' n'))).
Proof. rewrite !ChaCha20_Facts.from_device_eq. repeat split. Qed.

From Stdlib Require Import Wf_nat Zdiv Setoid Morphisms.

Local Open Scope Z_scope.

(** * Further properties of the code

    Helper lemmas by module, then the properties. *)

(** ** [rotl] and one-to-one word operations *)

Module Word_Facts.

(** *** Rotations *)

Lemma pow2_split k : 0 <= k <= 32 -> 2 ^ 32 = 2 ^ (32 - k) * 2 ^ k.
Proof. intros Hk. rewrite <-Z.pow_add_r by lia. f_equal. lia. Qed.

Lemma rotl_split x k :
  0 < k < 32 -> is_u32 x ->
  rotl x k = (x mod 2 ^ (32 - k)) * 2 ^ k + x / 2 ^ (32 - k) /\
  0 <= x mod 2 ^ (32 - k) < 2 ^ (32 - k) /\
  0 <= x / 2 ^ (32 - k) < 2 ^ k.
Proof.
  unfold is_u32. intros Hk Hx.
  assert (0 < 2 ^ k) as Hpk by (apply Z.pow_pos_nonneg; lia).
  assert (0 < 2 ^ (32 - k)) as Hpk' by (apply Z.pow_pos_nonneg; lia).
  assert (0 <= x / 2 ^ (32 - k) < 2 ^ k) as Hhi.
  { split; [apply Z.div_pos; lia|].
    apply Z.div_lt_upper_bound; [lia|]. rewrite <-pow2_split by lia. lia. }
  split; [|split; [by apply Z.mod_pos_bound|done]].
  unfold rotl, wrap32.
  rewrite Z.shiftl_mul_pow2, Z.shiftr_div_pow2 by lia.
  rewrite (pow2_split k) at 1 by lia.
  rewrite Z.mul_mod_distr_r by lia.
  rewrite Z.lor_comm, lor_disjoint by lia. lia.
Qed.

Lemma rotl_u32 x k : 0 < k < 32 -> is_u32 x -> is_u32 (rotl x k).
Proof.
  intros Hk Hx. destruct (rotl_split x k Hk Hx) as (-> & Hlo & Hhi).
  unfold is_u32. rewrite (pow2_split k) by lia. nia.
Qed.

Lemma rotl_rotl_inverse x k :
  0 < k < 32 -> is_u32 x -> rotl (rotl x k) (32 - k) = x.
Proof.
  intros Hk Hx. pose proof (rotl_u32 x k Hk Hx) as Hy.
  destruct (rotl_split x k Hk Hx) as (E & Hlo & Hhi).
  destruct (rotl_split (rotl x k) (32 - k)) as (-> & _ & _); [lia|done|].
  replace (32 - (32 - k)) with k by lia. rewrite E.
  assert (0 < 2 ^ k) as Hpk by (apply Z.pow_pos_nonneg; lia).
  rewrite (Z.add_comm (_ * 2 ^ k)).
  rewrite Z.mod_add, Z.div_add by lia.
  rewrite (Z.mod_small (x / _)), (Z.div_small (x / _)) by lia.
  rewrite Z.add_0_l.
  pose proof (Z.div_mod x (2 ^ (32 - k))) as Hd. lia.
Qed.

Lemma rotl_inj x y k :
  0 < k < 32 -> is_u32 x -> is_u32 y -> rotl x k = rotl y k -> x = y.
Proof.
  intros Hk Hx Hy E.
  rewrite <-(rotl_rotl_inverse x k), <-(rotl_rotl_inverse y k) by done.
  by rewrite E.
Qed.

Lemma add32_u32 a b : is_u32 (add32 a b).
Proof. apply wrap32_range. Qed.

Lemma add32_inj_l a a' b :
  is_u32 a -> is_u32 a' -> add32 a b = add32 a' b -> a = a'.
Proof.
  unfold is_u32, add32, wrap32. intros Ha Ha' E.
  apply (f_equal (fun v => (v - b) mod 2 ^ 32)) in E.
  rewrite !Zminus_mod_idemp_l in E.
  replace (a + b - b) with a in E by lia. replace (a' + b - b) with a' in E by lia.
  by rewrite !Z.mod_small in E by lia.
Qed.

Lemma lxor_inj_l a a' b : Z.lxor a b = Z.lxor a' b -> a = a'.
Proof.
  intros E. apply (f_equal (fun v => Z.lxor v b)) in E.
  by rewrite !Z.lxor_assoc, Z.lxor_nilpotent, !Z.lxor_0_r in E.
Qed.

Lemma lxor_range n a b :
  0 <= n -> 0 <= a < 2 ^ n -> 0 <= b < 2 ^ n -> 0 <= Z.lxor a b < 2 ^ n.
Proof.
  intros Hn Ha Hb.
  assert (0 <= Z.lxor a b) as Hnn by (apply Z.lxor_nonneg; lia).
  split; [done|].
  destruct (decide (Z.lxor a b = 0)) as [->|Hne]; [lia|].
  assert (0 < n) as Hpos.
  { destruct (decide (n = 0)) as [->|]; [|lia].
    assert (a = 0) as -> by lia. assert (b = 0) as -> by lia. done. }
  apply Z.log2_lt_pow2; [lia|].
  eapply Z.le_lt_trans; [apply Z.log2_lxor; lia|].
  apply Z.max_lub_lt.
  - destruct (decide (a = 0)) as [->|]; [simpl; lia|]. apply Z.log2_lt_pow2; lia.
  - destruct (decide (b = 0)) as [->|]; [simpl; lia|]. apply Z.log2_lt_pow2; lia.
Qed.

End Word_Facts.

Import Word_Facts.

(** ** ChaCha20: the rounds, the state and the counter *)

Module ChaCha20_More.

Import ChaCha20 ChaCha20_Doc ChaCha20_Facts.

Lemma lookup_total_u32 ws i : Forall is_u32 ws -> is_u32 (ws !!! i).
Proof.
  intros Hws. destruct (decide (i < length ws)%nat) as [Hlt|Hge].
  - eapply Forall_lookup_1; [done|]. by apply list_lookup_lookup_total_lt.
  - rewrite list_lookup_total_alt, lookup_ge_None_2 by lia. simpl.
    unfold is_u32. lia.
Qed.

Lemma mix_u32 a b c d :
  is_u32 a -> is_u32 b -> is_u32 c -> is_u32 d ->
  let '(a', b', c', d') := mix (a, b, c, d) in
  is_u32 a' /\ is_u32 b' /\ is_u32 c' /\ is_u32 d'.
Proof.
  intros Ha Hb Hc Hd. unfold mix.
  repeat split;
    repeat first [ apply add32_u32 | apply rotl_u32; [lia|] | apply lxor_u32 ];
    done.
Qed.

Lemma mix_inj a b c d a' b' c' d' :
  is_u32 a -> is_u32 b -> is_u32 c -> is_u32 d ->
  is_u32 a' -> is_u32 b' -> is_u32 c' -> is_u32 d' ->
  mix (a, b, c, d) = mix (a', b', c', d') ->
  (a, b, c, d) = (a', b', c', d').
Proof.
  intros Ha Hb Hc Hd Ha' Hb' Hc' Hd'. unfold mix. intros E.
  injection E as Ea2 Eb2 Ec2 Ed2.
  set (a1 := add32 a b) in *. set (a1' := add32 a' b') in *.
  set (d1 := rotl (Z.lxor d a1) 16) in *. set (d1' := rotl (Z.lxor d' a1') 16) in *.
  set (c1 := add32 c d1) in *. set (c1' := add32 c' d1') in *.
  set (b1 := rotl (Z.lxor b c1) 12) in *. set (b1' := rotl (Z.lxor b' c1') 12) in *.
  set (a2 := add32 a1 b1) in *. set (a2' := add32 a1' b1') in *.
  set (d2 := rotl (Z.lxor d1 a2) 8) in *. set (d2' := rotl (Z.lxor d1' a2') 8) in *.
  set (c2 := add32 c1 d2) in *. set (c2' := add32 c1' d2') in *.
  assert (is_u32 a1) by apply add32_u32. assert (is_u32 a1') by apply add32_u32.
  assert (is_u32 d1) by (apply rotl_u32; [lia|by apply lxor_u32]).
  assert (is_u32 d1') by (apply rotl_u32; [lia|by apply lxor_u32]).
  assert (is_u32 c1) by apply add32_u32. assert (is_u32 c1') by apply add32_u32.
  assert (is_u32 b1) by (apply rotl_u32; [lia|by apply lxor_u32]).
  assert (is_u32 b1') by (apply rotl_u32; [lia|by apply lxor_u32]).
  assert (is_u32 a2) by apply add32_u32. assert (is_u32 a2') by apply add32_u32.
  assert (is_u32 d2) by (apply rotl_u32; [lia|by apply lxor_u32]).
  assert (is_u32 d2') by (apply rotl_u32; [lia|by apply lxor_u32]).
  assert (is_u32 c2) by apply add32_u32. assert (is_u32 c2') by apply add32_u32.
  (* undo the fourth line *)
  apply rotl_inj in Eb2; [|lia|by apply lxor_u32..]. rewrite Ec2 in Eb2.
  apply lxor_inj_l in Eb2.
  fold d2 d2' in Ed2. fold c2 c2' in Ec2.
  unfold c2, c2' in Ec2. rewrite Ed2 in Ec2. apply add32_inj_l in Ec2; [|done..].
  (* the third line *)
  unfold d2, d2' in Ed2. apply rotl_inj in Ed2; [|lia|by apply lxor_u32..].
  rewrite Ea2 in Ed2. apply lxor_inj_l in Ed2.
  unfold a2, a2' in Ea2. rewrite Eb2 in Ea2. apply add32_inj_l in Ea2; [|done..].
  (* the second line *)
  unfold b1, b1' in Eb2. apply rotl_inj in Eb2; [|lia|by apply lxor_u32..].
  rewrite Ec2 in Eb2. apply lxor_inj_l in Eb2.
  unfold c1, c1' in Ec2. rewrite Ed2 in Ec2. apply add32_inj_l in Ec2; [|done..].
  (* the first line *)
  unfold d1, d1' in Ed2. apply rotl_inj in Ed2; [|lia|by apply lxor_u32..].
  rewrite Ea2 in Ed2. apply lxor_inj_l in Ed2.
  unfold a1, a1' in Ea2. rewrite Eb2 in Ea2. apply add32_inj_l in Ea2; [|done..].
  congruence.
Qed.

Lemma wf_mix_at ws q : wf ws -> wf (mix_at ws q).
Proof.
  intros [Hlen Hws]. destruct q as [[[i j] k] l]. unfold mix_at.
  pose proof (mix_u32 (ws !!! i) (ws !!! j) (ws !!! k) (ws !!! l)) as Hm.
  destruct (mix _) as [[[a b] c] d].
  destruct Hm as (Ha & Hb & Hc & Hd); [by apply lookup_total_u32..|].
  split; [by rewrite !length_insert|].
  by repeat apply Forall_insert.
Qed.

Lemma mix_at_inj ws ws' q :
  wf ws -> wf ws' -> q ∈ columns ++ diagonals ->
  mix_at ws q = mix_at ws' q -> ws = ws'.
Proof.
  intros [Hlen Hws] [Hlen' Hws'] Hq E.
  do 16 (destruct ws as [|? ws]; [discriminate|]). destruct ws; [|discriminate].
  do 16 (destruct ws' as [|? ws']; [discriminate|]). destruct ws'; [|discriminate].
  repeat match goal with
  | H : Forall _ (_ :: _) |- _ => apply Forall_cons in H as [? H]
  end.
  unfold columns, diagonals in Hq. cbn [app] in Hq.
  repeat (apply elem_of_cons in Hq as [-> | Hq]);
    [..|by apply elem_of_nil in Hq];
    unfold mix_at in E; cbn [lookup_total list_lookup_total] in E;
    match type of E with
    | ?L = ?R =>
        match L with
        | context [mix (?a, ?b, ?c, ?d)] =>
            match R with
            | context [mix (?a', ?b', ?c', ?d')] =>
                pose proof (mix_inj a b c d a' b' c' d') as Hinj;
                destruct (mix (a, b, c, d)) as [[[? ?] ?] ?];
                destruct (mix (a', b', c', d')) as [[[? ?] ?] ?]
            end
        end
    end;
    cbn in E; injection E as ?; subst;
    specialize (Hinj ltac:(done) ltac:(done) ltac:(done) ltac:(done)
                     ltac:(done) ltac:(done) ltac:(done) ltac:(done)
                     ltac:(reflexivity));
    injection Hinj as ?; subst; reflexivity.
Qed.

Lemma wf_double_round ws : wf ws -> wf (double_round ws).
Proof.
  intros Hws. unfold double_round, columns, diagonals. cbn [foldl].
  by repeat apply wf_mix_at.
Qed.

Lemma double_round_inj ws ws' :
  wf ws -> wf ws' -> double_round ws = double_round ws' -> ws = ws'.
Proof.
  intros Hws Hws'. unfold double_round, columns, diagonals. cbn [foldl].
  intros E.
  repeat (apply mix_at_inj in E;
          [|by repeat apply wf_mix_at..|in_list]).
  done.
Qed.

Lemma wf_iter_double_round n ws : wf ws -> wf (Nat.iter n double_round ws).
Proof.
  intros Hws. induction n as [|n IH]; [done|].
  rewrite Nat.iter_succ. by apply wf_double_round.
Qed.

Lemma iter_double_round_inj n ws ws' :
  wf ws -> wf ws' ->
  Nat.iter n double_round ws = Nat.iter n double_round ws' -> ws = ws'.
Proof.
  intros Hws Hws'. induction n as [|n IH]; [done|].
  rewrite !Nat.iter_succ. intros E.
  apply double_round_inj in E; [by apply IH|by apply wf_iter_double_round..].
Qed.

Lemma wf_bump st : wf st -> wf (bump st).
Proof.
  intros [Hlen Hst]. unfold bump. case_decide; split;
    rewrite ?length_insert; try done;
    repeat apply Forall_insert; auto using add32_u32.
Qed.

Lemma wf_block st : wf st -> wf (fst (block st)) /\ wf (snd (block st)).
Proof.
  intros Hst. rewrite block_eq by apply Hst. cbn [fst snd].
  split; [|by apply wf_bump].
  apply wf_add_words; [|apply Hst]. apply wf_iter_double_round, Hst.
Qed.

Lemma from_key_layout key nonce :
  length key = 8%nat -> length nonce = 2%nat ->
  from_key key nonce = EXPAND_32_BYTE_K ++ key ++ [0; 0] ++ nonce.
Proof.
  intros Hk Hn.
  do 8 (destruct key as [|? key]; [discriminate|]). destruct key; [|discriminate].
  do 2 (destruct nonce as [|? nonce]; [discriminate|]).
  destruct nonce; [|discriminate].
  reflexivity.
Qed.

Lemma wf_from_key key nonce :
  length key = 8%nat -> Forall is_u32 key ->
  length nonce = 2%nat -> Forall is_u32 nonce ->
  wf (from_key key nonce).
Proof.
  intros Hk Hku Hn Hnu. rewrite from_key_layout by done. split.
  - rewrite !length_app, Hk, Hn. reflexivity.
  - repeat apply Forall_app_2; try done;
      repeat apply Forall_cons_2; try done; unfold is_u32; lia.
Qed.

Lemma wf_from_device src n : wf (fst (from_device src n)).
Proof.
  rewrite from_device_eq. cbn [fst]. split; [reflexivity|].
  assert (forall k, is_u32 (Entropy.value src k)) as Hv
    by (intros k; apply wrap32_range).
  repeat apply Forall_app_2; repeat apply Forall_cons_2; try done;
    unfold is_u32; lia.
Qed.

Lemma wf_after_call st c : wf st -> wf (after_call st c).
Proof. intros Hst. rewrite after_call_block. by apply wf_block. Qed.

Lemma counter_after_call st c :
  wf st -> counter (after_call st c) = wrap64 (counter st + 1).
Proof.
  intros Hst. rewrite after_call_block, block_eq by apply Hst. cbn [snd].
  destruct Hst as [Hlen Hst].
  apply bump_counter; [done|by apply lookup_total_u32..].
Qed.

Lemma after_calls_counter cs : forall st,
  wf st ->
  wf (after_calls st cs) /\
  counter (after_calls st cs) = wrap64 (counter st + Z.of_nat (length cs)).
Proof.
  induction cs as [|c cs IH]; intros st Hst.
  - split; [done|]. cbn [length after_calls foldl]. unfold wrap64.
    rewrite Z.add_0_r. symmetry. apply Z.mod_small.
    destruct Hst as [Hlen Hst].
    pose proof (lookup_total_u32 st 12 Hst). pose proof (lookup_total_u32 st 13 Hst).
    unfold counter, is_u32 in *. lia.
  - unfold after_calls in *. cbn [foldl length].
    destruct (IH (after_call st c)) as [Hwf Hc]; [by apply wf_after_call|].
    split; [done|]. rewrite Hc, counter_after_call by done. unfold wrap64.
    rewrite Zplus_mod_idemp_l. f_equal. lia.
Qed.

Lemma counter_range st : wf st -> 0 <= counter st < 2 ^ 64.
Proof.
  intros [Hlen Hst].
  pose proof (lookup_total_u32 st 12 Hst). pose proof (lookup_total_u32 st 13 Hst).
  unfold counter, is_u32 in *. lia.
Qed.

Lemma after_calls_moves st cs :
  wf st -> (0 < length cs)%nat -> Z.of_nat (length cs) < 2 ^ 64 ->
  after_calls st cs <> st.
Proof.
  intros Hst Hpos Hlt E.
  destruct (after_calls_counter cs st Hst) as [_ Hc]. rewrite E in Hc.
  pose proof (counter_range st Hst) as Hr. unfold wrap64 in Hc.
  set (c := counter st) in *. set (n := Z.of_nat (length cs)) in *.
  assert (0 < n) by lia.
  destruct (decide (c + n < 2 ^ 64)) as [Hs|Hb].
  - rewrite Z.mod_small in Hc by lia. lia.
  - replace (c + n) with (c + n - 2 ^ 64 + 1 * 2 ^ 64) in Hc by lia.
    rewrite Z.mod_add, Z.mod_small in Hc by lia. lia.
Qed.

Lemma concat64_range hi lo : is_u32 hi -> is_u32 lo -> 0 <= concat64 hi lo < 2 ^ 64.
Proof.
  unfold is_u32, concat64. intros Hhi Hlo.
  rewrite Z.shiftl_mul_pow2, Z.lor_comm, lor_disjoint by lia. lia.
Qed.

Lemma fold_pairs_range ws : Forall is_u32 ws -> 0 <= fold_pairs ws < 2 ^ 64.
Proof.
  revert ws. fix IH 1. intros [|hi [|lo ws]] Hws; cbn [fold_pairs]; [lia..|].
  apply Forall_cons in Hws as [Hhi Hws]. apply Forall_cons in Hws as [Hlo Hws].
  apply lxor_range; [lia|by apply concat64_range|by apply IH].
Qed.

Lemma next_range st : wf st -> 0 <= fst (next st) < 2 ^ 64.
Proof.
  intros Hst. rewrite next_fold by apply Hst. cbn [fst].
  apply fold_pairs_range. unfold next512. by apply wf_block.
Qed.

End ChaCha20_More.

(** ** The AES-counter engine: construction, invariants, schedule *)

Module AESCTR_More.

Import AESCTR AESCTR_Doc AESCTR_Facts ChaCha20_More.

Lemma land_shiftr_byte w k :
  0 <= k -> Z.land (Z.shiftr w k) 0xFF = (w / 2 ^ k) mod 256.
Proof.
  intros Hk. change 0xFF with (Z.ones 8).
  rewrite Z.land_ones, Z.shiftr_div_pow2 by lia. reflexivity.
Qed.

Lemma generate_key_eq src n :
  generate_key src n =
    ([Entropy.value src n; Entropy.value src (1 + n);
      Entropy.value src (2 + n); Entropy.value src (3 + n)]
       ≫= to_bytes BigEndian 4,
     (4 + n)%nat).
Proof.
  unfold generate_key, Entropy.bind, Entropy.rd, Entropy.ret.
  cbn [foldl seq app fst snd]. cbn [lookup_total list_lookup_total].
  f_equal. cbn [replicate foldl seq Nat.mul Nat.add].
  cbn [insert list_insert].
  rewrite !land_shiftr_byte by lia.
  change (Z.land ?x 255) with (Z.land (Z.shiftr x 0) 255).
  rewrite !land_shiftr_byte by lia.
  cbn [mbind list_bind to_bytes le_bytes rev app].
  rewrite !Z.div_div by lia. change (2 ^ 0) with 1. rewrite !Z.div_1_r.
  reflexivity.
Qed.

Lemma counter_fill host v0 v1 v2 v3 :
  store32 host 12 v3 (store32 host 8 v2 (store32 host 4 v1
    (store32 host 0 v0 (IEngine.init 16))))
  = [v0; v1; v2; v3] ≫= to_bytes host 4.
Proof. destruct host; reflexivity. Qed.

Lemma aes_from_device_eq host shl previous src n :
  from_device host shl previous src n =
    (Engine
       ([Entropy.value src n; Entropy.value src (1 + n);
         Entropy.value src (2 + n); Entropy.value src (3 + n)]
          ≫= to_bytes host 4)
       (key_expansion host shl
          ([Entropy.value src (4 + n); Entropy.value src (5 + n);
            Entropy.value src (6 + n); Entropy.value src (7 + n)]
             ≫= to_bytes BigEndian 4)
          previous),
     (8 + n)%nat).
Proof.
  rewrite <-counter_fill.
  cbv [from_device Entropy.bind Entropy.rd Entropy.ret foldl seq Nat.mul Nat.add].
  rewrite generate_key_eq. reflexivity.
Qed.

Lemma bytes_bind_to_bytes host (vs : list Z) :
  bytes (4 * length vs) (vs ≫= to_bytes host 4).
Proof.
  induction vs as [|v vs [IHl IHu]]; [by split|].
  cbn [mbind list_bind length]. split.
  - rewrite length_app, length_to_bytes. cbn [mbind] in IHl. rewrite IHl. lia.
  - apply Forall_app_2; [apply to_bytes_u8|done].
Qed.

Section Invariants.

Variable host : endian.

Lemma wf_process_block state e :
  wf e -> wf (snd (process_block host state e)).
Proof.
  intros [Hs Hk]. rewrite process_block_engine. split; [|done].
  by apply increment_counter_bytes.
Qed.

Lemma after_call_engine e c :
  after_call host e c = Engine (increment_counter host (m_state e)) (m_expanded_key e).
Proof.
  destruct c as [state|buffer|buffer]; unfold after_call, next, next128.
  - reflexivity.
  - destruct (process_block host buffer e) as [blk e'] eqn:Hpb.
    pose proof (process_block_engine host buffer e) as He'.
    rewrite Hpb in He'. cbn [snd] in He'. subst e'.
    by destruct (foldl _ _ _).
  - reflexivity.
Qed.

Lemma aes_wf_after_call e c : wf e -> wf (after_call host e c).
Proof.
  intros [Hs Hk]. rewrite after_call_engine. split; [|done].
  by apply increment_counter_bytes.
Qed.

Lemma aes_counter_range st : bytes 16 st -> 0 <= counter host st < 2 ^ 128.
Proof.
  intros [Hlen Hst]. unfold counter, word.
  pose proof (load32_u32 host st (4 * 0) Hst).
  pose proof (load32_u32 host st (4 * 1) Hst).
  pose proof (load32_u32 host st (4 * 2) Hst).
  pose proof (load32_u32 host st (4 * 3) Hst).
  unfold is_u32 in *. lia.
Qed.

Lemma aes_after_calls_counter cs : forall e,
  wf e ->
  wf (after_calls host e cs) /\
  counter host (m_state (after_calls host e cs))
  = (counter host (m_state e) + Z.of_nat (length cs)) mod 2 ^ 128.
Proof.
  induction cs as [|c cs IH]; intros e He.
  - split; [done|]. cbn [length after_calls foldl]. rewrite Z.add_0_r.
    symmetry. apply Z.mod_small. apply aes_counter_range, He.
  - unfold after_calls in *. cbn [foldl length].
    destruct (IH (after_call host e c)) as [Hwf Hc]; [by apply aes_wf_after_call|].
    split; [done|]. rewrite Hc, after_call_engine. cbn [m_state].
    rewrite increment_counter_add by apply He.
    rewrite Zplus_mod_idemp_l. f_equal. lia.
Qed.

Lemma aes_after_calls_moves e cs :
  wf e -> (0 < length cs)%nat -> Z.of_nat (length cs) < 2 ^ 128 ->
  after_calls host e cs <> e.
Proof.
  intros He Hpos Hlt E.
  destruct (aes_after_calls_counter cs e He) as [_ Hc]. rewrite E in Hc.
  pose proof (aes_counter_range (m_state e) (proj1 He)) as Hr.
  set (c := counter host (m_state e)) in *. set (n := Z.of_nat (length cs)) in *.
  assert (0 < n) by lia.
  destruct (decide (c + n < 2 ^ 128)) as [Hs|Hb].
  - rewrite Z.mod_small in Hc by lia. lia.
  - replace (c + n) with (c + n - 2 ^ 128 + 1 * 2 ^ 128) in Hc by lia.
    rewrite Z.mod_add, Z.mod_small in Hc by lia. lia.
Qed.

Lemma process_block_bytes state e :
  length state = 16%nat -> wf e -> bytes 16 (fst (process_block host state e)).
Proof.
  intros Hs [_ [Hl Hk]]. rewrite process_block_transform by (done || lia).
  apply transform_bytes; (done || lia).
Qed.

Lemma le_value_8_range bs :
  length bs = 8%nat -> Forall is_u8 bs -> 0 <= le_value bs < 2 ^ 64.
Proof.
  intros Hl Hb. pose proof (le_value_range bs Hb) as H. rewrite Hl in H. exact H.
Qed.

Lemma aes_next_range buffer e :
  bytes 16 buffer -> wf e -> 0 <= fst (next host buffer e) < 2 ^ 64.
Proof.
  intros Hb He.
  pose proof (process_block_bytes buffer e (proj1 Hb) He) as [Hl Hu].
  unfold next. destruct (process_block host buffer e) as [blk e'].
  cbn [fst] in Hl, Hu. rewrite assemble_halves by done. cbn [fst].
  apply lxor_range; [lia|apply le_value_8_range..].
  - rewrite length_take. lia.
  - by apply Forall_take.
  - rewrite length_drop. lia.
  - by apply Forall_drop.
Qed.

Lemma next128_range buffer e :
  bytes 16 buffer -> wf e ->
  length (fst (next128 host buffer e)) = 2%nat /\
  Forall is_u64 (fst (next128 host buffer e)).
Proof.
  intros Hb He.
  pose proof (process_block_bytes buffer e (proj1 Hb) He) as [Hl Hu].
  unfold next128. destruct (process_block host buffer e) as [blk e'].
  cbn [fst] in *. split; [done|].
  assert (forall bs, length bs = 8%nat -> Forall is_u8 bs -> is_u64 (of_bytes host bs))
    as H8.
  { intros bs Hbl Hbu. pose proof (of_bytes_range host bs Hbu) as H.
    rewrite Hbl in H. exact H. }
  repeat apply Forall_cons_2; [apply H8..|done].
  - rewrite length_take. lia.
  - by apply Forall_take.
  - rewrite length_take, length_drop. lia.
  - by apply Forall_take, Forall_drop.
Qed.

End Invariants.

Lemma chunk_of_word host bs i :
  Forall is_u8 bs ->
  to_bytes host 4 (word host bs i)
  = [bs !!! (4 * i)%nat; bs !!! (4 * i + 1)%nat;
     bs !!! (4 * i + 2)%nat; bs !!! (4 * i + 3)%nat].
Proof.
  intros Hbs. unfold word, load32.
  apply (to_bytes_of_bytes host
           [bs !!! (4 * i)%nat; bs !!! (4 * i + 1)%nat;
            bs !!! (4 * i + 2)%nat; bs !!! (4 * i + 3)%nat]).
  repeat constructor; by apply lookup_total_u8.
Qed.

Lemma bytes_from_words host a b n :
  bytes (4 * n) a -> bytes (4 * n) b ->
  (forall i, (i < n)%nat -> word host a i = word host b i) ->
  a = b.
Proof.
  intros [Hal Hau] [Hbl Hbu] Hw.
  apply (list_eq_same_length _ _ (4 * n)); [done..|].
  intros j x y Hj Hx Hy.
  apply list_lookup_total_correct in Hx, Hy. subst x y.
  pose proof (chunk_of_word host a (j / 4) Hau) as Ha.
  pose proof (chunk_of_word host b (j / 4) Hbu) as Hb.
  rewrite Hw in Ha by (apply Nat.Div0.div_lt_upper_bound; lia).
  rewrite Ha in Hb. injection Hb as H0 H1 H2 H3.
  pose proof (Nat.div_mod_eq j 4) as Hdm.
  pose proof (Nat.mod_upper_bound j 4 ltac:(lia)) as Hr.
  destruct (j mod 4)%nat as [|[|[|[|r]]]] eqn:Er; [| | | |lia].
  - replace j with (4 * (j / 4))%nat by lia. done.
  - replace j with (4 * (j / 4) + 1)%nat by lia. done.
  - replace j with (4 * (j / 4) + 2)%nat by lia. done.
  - replace j with (4 * (j / 4) + 3)%nat by lia. done.
Qed.

Lemma key_expansion_spec host shl key previous :
  bytes 16 key -> bytes 176 previous ->
  let ek := key_expansion host shl key previous in
  bytes 176 ek /\ take 16 ek = key /\
  forall i, (4 <= i < 44)%nat ->
    word host ek i
    = schedule_word host shl (word host ek (i - 4)) (word host ek (i - 1)) i.
Proof.
  intros Hkey Hprev ek. subst ek. rewrite key_expansion_loop.
  pose proof (expansion_invariant host shl key previous 40 Hkey Hprev) as H.
  cbv zeta in H. destruct H as (Hlen & Hu & Htake & Hrec); [lia|].
  split; [by split|]. split; [exact Htake|exact Hrec].
Qed.

Lemma key_expansion_previous host shl key previous previous' :
  bytes 16 key -> bytes 176 previous -> bytes 176 previous' ->
  key_expansion host shl key previous = key_expansion host shl key previous'.
Proof.
  intros Hkey Hp Hp'.
  destruct (key_expansion_spec host shl key previous Hkey Hp) as (Hb & Ht & Hr).
  destruct (key_expansion_spec host shl key previous' Hkey Hp') as (Hb' & Ht' & Hr').
  set (ek := key_expansion host shl key previous) in *.
  set (ek' := key_expansion host shl key previous') in *.
  apply (bytes_from_words host _ _ 44); [done..|].
  intros i. induction i as [i IH] using lt_wf_ind. intros Hi.
  destruct (decide (i < 4)%nat) as [Hlt|Hge].
  - rewrite <-(word_take_16 host ek i Hlt), <-(word_take_16 host ek' i Hlt).
    by rewrite Ht, Ht'.
  - rewrite Hr, Hr' by lia. rewrite (IH (i - 4)%nat), (IH (i - 1)%nat) by lia.
    reflexivity.
Qed.

(** *** The block transform is one-to-one *)

Lemma SBOX_NoDup : NoDup SBOX.
Proof. apply (bool_decide_unpack (NoDup SBOX)). vm_compute. exact I. Qed.

Lemma sub_byte_inj x y : is_u8 x -> is_u8 y -> sub_byte x = sub_byte y -> x = y.
Proof.
  unfold is_u8, sub_byte. intros Hx Hy E.
  assert (Z.to_nat x < length SBOX)%nat as Hlx by (change (length SBOX) with 256%nat; lia).
  assert (Z.to_nat y < length SBOX)%nat as Hly by (change (length SBOX) with 256%nat; lia).
  apply list_lookup_lookup_total_lt in Hlx, Hly. rewrite E in Hlx.
  pose proof (NoDup_lookup _ _ _ _ SBOX_NoDup Hlx Hly). lia.
Qed.

Lemma cell_inj x y k k' :
  is_u8 x -> is_u8 y -> is_u8 k ->
  Z.lxor (sub_byte (Z.lxor x k)) k' = Z.lxor (sub_byte (Z.lxor y k)) k' ->
  x = y.
Proof.
  intros Hx Hy Hk E. apply lxor_inj_l in E.
  apply sub_byte_inj in E; [|by apply lxor_u8..]. by apply lxor_inj_l in E.
Qed.

Lemma transform_inj ek blk blk' :
  Forall is_u8 ek -> (32 <= length ek)%nat ->
  bytes 16 blk -> bytes 16 blk' ->
  transform ek blk = transform ek blk' -> blk = blk'.
Proof.
  intros Hek Hlen [Hl Hu] [Hl' Hu'] E.
  do 16 (destruct blk as [|? blk]; [discriminate|]). destruct blk; [|discriminate].
  do 16 (destruct blk' as [|? blk']; [discriminate|]). destruct blk'; [|discriminate].
  do 32 (destruct ek as [|? ek]; [simpl in Hlen; lia|]).
  repeat match goal with
  | H : Forall _ (_ :: _) |- _ => apply Forall_cons in H as [? H]
  end.
  unfold transform, round_key, add_round_key, shift_rows, sub_bytes, SHIFT_ROWS in E.
  cbn [take drop Nat.mul Nat.add zip_with fmap list_fmap lookup_total list_lookup_total] in E.
  injection E as ?.
  repeat match goal with
  | H : Z.lxor (sub_byte (Z.lxor ?x ?k)) ?k' = Z.lxor (sub_byte (Z.lxor ?y ?k)) ?k' |- _ =>
      apply cell_inj in H; [|done..]
  end.
  congruence.
Qed.

End AESCTR_More.

(** ** [rand] and [sequence] *)

Module Generator_Facts.

Import Generator.

Section RandFacts.

Context {St : Type} {E : Engine St}.
Variable w : Z.

Lemma wrap_small x : 0 <= x < 2 ^ w -> wrap w x = x.
Proof. intros Hx. unfold wrap. by apply Z.mod_small. Qed.

Lemma rand_range_returns min max e :
  0 <= min <= max -> max < 2 ^ w -> max - min + 1 < 2 ^ w ->
  exists v,
    rand_range w min max e = Returned (v, snd (engine_next e)) /\
    min <= v <= max /\
    v = min + (fst (engine_next e) mod 2 ^ w) mod (max - min + 1).
Proof.
  intros Hmin Hmax Hr. unfold rand_range.
  rewrite (wrap_small (max - min + 1)) by lia.
  destruct (engine_next e) as [x e']. cbn [fst snd].
  rewrite decide_False by lia.
  pose proof (Z.mod_pos_bound (wrap w x) (max - min + 1) ltac:(lia)) as Hm.
  eexists. split; [reflexivity|].
  rewrite wrap_small by lia. split; [lia|reflexivity].
Qed.

Lemma rand_range_full_range min max e :
  max - min + 1 = 2 ^ w -> rand_range w min max e = Undefined.
Proof.
  intros Hr. unfold rand_range, wrap. rewrite Hr.
  destruct (engine_next e) as [x e'].
  destruct (decide (w < 0)) as [Hw|Hw].
  - rewrite Z.pow_neg_r by done. by rewrite Z.mod_0_r, decide_True.
  - rewrite Z.mod_same by (apply Z.pow_nonzero; lia). by rewrite decide_True.
Qed.

Lemma sequence_loop_sound min max count fuel :
  0 <= min <= max -> max < 2 ^ w -> max - min + 1 < 2 ^ w ->
  forall seq (unique_values : gset Z) e,
    NoDup seq -> (forall v, v ∈ unique_values <-> v ∈ seq) ->
    Forall (in_range min max) seq ->
    match sequence_loop w fuel min max count seq unique_values e with
    | Returned (seq', _) =>
        NoDup seq' /\ Forall (in_range min max) seq' /\
        Z.of_nat (length seq') = Z.max count (Z.of_nat (length seq))
    | Undefined => False
    | Unfinished => True
    end.
Proof.
  intros Hmin Hmax Hr. induction fuel as [|fuel IH]; intros seq uniq e Hnd Hu Hin.
  - cbn [sequence_loop]. case_decide; [exact I|]. split; [done|]. split; [done|lia].
  - cbn [sequence_loop]. case_decide as Hc; [|split; [done|]; split; [done|lia]].
    destruct (rand_range_returns min max e Hmin Hmax Hr) as (v & -> & Hv & _).
    case_decide as Hmem.
    + apply IH; done.
    + assert (NoDup (seq ++ [v])) as Hnd1.
      { apply NoDup_app. split; [done|]. split; [|apply NoDup_singleton].
        intros x Hx Hx'. apply list_elem_of_singleton in Hx'. subst x.
        apply Hmem, Hu, Hx. }
      assert (forall x, x ∈ ({[v]} ∪ uniq : gset Z) <-> x ∈ seq ++ [v]) as Hu1.
      { intros x. rewrite elem_of_union, elem_of_singleton, elem_of_app,
          list_elem_of_singleton, Hu. tauto. }
      assert (Forall (in_range min max) (seq ++ [v])) as Hin1.
      { apply Forall_app_2; [done|]. by apply Forall_singleton. }
      specialize (IH (seq ++ [v]) ({[v]} ∪ uniq) (snd (engine_next e)) Hnd1 Hu1 Hin1).
      destruct (sequence_loop _ _ _ _ _ _ _ _) as [[seq' e']| |]; [|done..].
      destruct IH as (Hnd' & Hin' & Hlen').
      split; [done|]. split; [done|]. rewrite Hlen', length_app. cbn [length]. lia.
Qed.

End RandFacts.

Section SequenceFacts.

Context {St : Type} {E : Engine St}.

Lemma sequence_sound w fuel min max count e :
  0 <= min <= max -> max < 2 ^ w -> max - min + 1 < 2 ^ w -> w <= 64 ->
  0 <= count ->
  match sequence w fuel min max count e with
  | Returned (seq, _) =>
      NoDup seq /\ Forall (in_range min max) seq /\
      Z.of_nat (length seq) = Z.min count (max - min + 1)
  | Undefined => False
  | Unfinished => True
  end.
Proof.
  intros Hmin Hmax Hr Hw Hc. unfold sequence.
  assert (2 ^ w <= 2 ^ 64) as Hp by (apply Z.pow_le_mono_r; lia).
  rewrite (wrap_small w (max - min)), (wrap_small w (max - min + 1)) by lia.
  unfold wrap64. rewrite Z.mod_small by lia.
  set (count' := if decide (max - min + 1 < count) then max - min + 1 else count).
  assert (count' = Z.min count (max - min + 1)) as Hc'
    by (subst count'; case_decide; lia).
  pose proof (sequence_loop_sound w min max count' fuel Hmin Hmax Hr [] ∅ e) as H.
  destruct (sequence_loop _ _ _ _ _ _ _ _) as [[seq e']| |].
  - destruct H as (Hnd & Hin & Hlen);
      [apply NoDup_nil_2|intros v; by rewrite elem_of_empty, elem_of_nil|done|].
    split; [done|]. split; [done|]. cbn [length] in Hlen. lia.
  - apply H; [apply NoDup_nil_2|intros v; by rewrite elem_of_empty, elem_of_nil|done].
  - exact I.
Qed.

Lemma sequence_nothing_asked w fuel min max e :
  sequence w fuel min max 0 e = Returned ([], e).
Proof.
  unfold sequence.
  assert (0 <= wrap64 (wrap w (max - min) + 1)) as H
    by (apply Z.mod_pos_bound; lia).
  rewrite decide_False by lia. by destruct fuel.
Qed.

Lemma sequence_whole_uint64 fuel count e :
  0 < count -> sequence 64 fuel 0 (2 ^ 64 - 1) count e = Returned ([], e).
Proof.
  intros Hc. unfold sequence.
  change (wrap64 (wrap 64 (2 ^ 64 - 1 - 0) + 1)) with 0.
  rewrite decide_True by done. change (wrap 64 (2 ^ 64 - 1 - 0 + 1)) with 0.
  by destruct fuel.
Qed.

Lemma sequence_whole_uint32 fuel count e :
  0 < count <= 2 ^ 32 ->
  sequence 32 (S fuel) 0 (2 ^ 32 - 1) count e = Undefined.
Proof.
  intros Hc. unfold sequence.
  change (wrap64 (wrap 32 (2 ^ 32 - 1 - 0) + 1)) with (2 ^ 32).
  rewrite decide_False by lia. cbn [sequence_loop length].
  rewrite decide_True by lia.
  by rewrite (rand_range_full_range 32 0 (2 ^ 32 - 1) e).
Qed.

End SequenceFacts.

Lemma to_int_range x : is_int (to_int x).
Proof.
  unfold is_int, to_int.
  pose proof (Z.mod_pos_bound x (2 ^ 32) ltac:(lia)). case_decide; lia.
Qed.

Section SignedFacts.

Context {St : Type} {E : Engine St}.

Lemma rand_range_int_returns min max e :
  is_int min -> is_int max -> min <= max ->
  max - min + 1 < 2 ^ 31 -> - 2 ^ 31 <= min - (max - min) ->
  let r := Z.rem (to_int (fst (engine_next e))) (max - min + 1) in
  rand_range_int min max e = Returned (min + r, snd (engine_next e)) /\
  - (max - min) <= r <= max - min /\
  (r < 0 <-> to_int (fst (engine_next e)) < 0 /\ r <> 0).
Proof.
  intros Hmin Hmax Hle Hr Hlow r. subst r. unfold rand_range_int, is_int in *.
  destruct (engine_next e) as [x e']. cbn [fst snd].
  set (range := max - min + 1) in *. set (y := to_int x).
  assert (0 < range) as Hpos by (unfold range; lia).
  assert (Z.abs (Z.rem y range) < Z.abs range) as Hb
    by (apply Z.rem_bound_abs; lia).
  rewrite decide_True by lia. rewrite decide_False by lia.
  rewrite decide_True by (unfold range in *; lia).
  split; [reflexivity|]. split; [unfold range in *; lia|].
  destruct (decide (Z.rem y range = 0)) as [E0|Hne]; [lia|].
  pose proof (Z.rem_sign_nz y range ltac:(lia) Hne) as Hsg. lia.
Qed.

End SignedFacts.

End Generator_Facts.

(** ** PCG32 *)

Module PCG32_Facts.

Import PCG32 PCG32_Doc.

Local Existing Instances eqm_setoid Zplus_eqm Zmult_eqm.

(** One step of the generator's state. *)
Lemma wrap64_eqm a : eqm (2 ^ 64) (wrap64 a) a.
Proof. apply Zmod_eqm. Qed.

Lemma eqm_wrap64 a b : eqm (2 ^ 64) a b -> wrap64 a = wrap64 b.
Proof. intros H. exact H. Qed.

Lemma affine_compose cm cp am ap x :
  wrap64 (wrap64 (am * cm) * x + wrap64 (ap * cm + cp))
  = wrap64 (cm * wrap64 (am * x + ap) + cp).
Proof.
  apply eqm_wrap64. rewrite !wrap64_eqm.
  apply (f_equal (fun z => z mod 2 ^ 64)). ring.
Qed.

Lemma affine_square cm cp x :
  wrap64 (wrap64 (cm * cm) * x + wrap64 (wrap64 (cm + 1) * cp))
  = wrap64 (cm * wrap64 (cm * x + cp) + cp).
Proof.
  apply eqm_wrap64. rewrite !wrap64_eqm.
  apply (f_equal (fun z => z mod 2 ^ 64)). ring.
Qed.


Lemma wrap64_u64 x : is_u64 (wrap64 x).
Proof. unfold is_u64, wrap64. apply Z.mod_pos_bound. lia. Qed.

Lemma step_u64 x : is_u64 (step x).
Proof. apply wrap64_u64. Qed.

Lemma iter_step_u64 n x : is_u64 x -> is_u64 (Nat.iter n step x).
Proof. intros Hx. destruct n; [done|]. rewrite Nat.iter_succ. apply step_u64. Qed.

Lemma advance_loop_spec fuel : forall delta cm cp am ap k j,
  0 <= delta < 2 ^ Z.of_nat fuel ->
  (forall x, is_u64 x -> wrap64 (cm * x + cp) = Nat.iter k step x) ->
  (forall x, is_u64 x -> wrap64 (am * x + ap) = Nat.iter j step x) ->
  exists am' ap',
    advance_loop fuel delta cm cp am ap = Some (am', ap') /\
    forall x, is_u64 x ->
      wrap64 (am' * x + ap') = Nat.iter (j + k * Z.to_nat delta) step x.
Proof.
  induction fuel as [|fuel IH]; intros delta cm cp am ap k j Hd Hcur Hacc.
  - assert (delta = 0) as -> by (change (2 ^ Z.of_nat 0) with 1 in Hd; lia).
    exists am, ap. split; [reflexivity|]. intros x Hx.
    rewrite Hacc by done. f_equal. lia.
  - cbn [advance_loop]. case_decide as Hz.
    2:{ assert (delta = 0) as -> by lia.
        exists am, ap. split; [reflexivity|]. intros x Hx.
        rewrite Hacc by done. f_equal. lia. }
    assert (Z.land delta 1 = delta mod 2) as Hbit
      by (change 1 with (Z.ones 1); rewrite Z.land_ones by lia; reflexivity).
    assert (Z.shiftr delta 1 = delta / 2) as Hhalf
      by (rewrite Z.shiftr_div_pow2 by lia; reflexivity).
    rewrite Hbit, Hhalf.
    pose proof (Z.div_mod delta 2 ltac:(lia)) as Hdm.
    pose proof (Z.mod_pos_bound delta 2 ltac:(lia)) as Hm.
    assert (0 <= delta / 2 < 2 ^ Z.of_nat fuel) as Hd'.
    { rewrite Nat2Z.inj_succ, Z.pow_succ_r in Hd by lia. lia. }
    assert (forall x, is_u64 x ->
              wrap64 (wrap64 (cm * cm) * x + wrap64 (wrap64 (cm + 1) * cp))
              = Nat.iter (k + k) step x) as Hcur'.
    { intros x Hx. rewrite affine_square.
      rewrite (Hcur (wrap64 _)) by apply wrap64_u64.
      rewrite Hcur by done. by rewrite Nat.iter_add. }
    case_decide as Hodd.
    + assert (forall x, is_u64 x ->
                wrap64 (wrap64 (am * cm) * x + wrap64 (ap * cm + cp))
                = Nat.iter (j + k) step x) as Hacc'.
      { intros x Hx. rewrite affine_compose.
        rewrite (Hcur (wrap64 _)) by apply wrap64_u64.
        rewrite Hacc by done.
        rewrite <-Nat.iter_add. f_equal. lia. }
      destruct (IH (delta / 2) _ _ _ _ (k + k)%nat (j + k)%nat Hd' Hcur' Hacc')
        as (am' & ap' & -> & Hres).
      exists am', ap'. split; [reflexivity|]. intros x Hx.
      rewrite Hres by done. f_equal.
      assert (Z.to_nat delta = (2 * Z.to_nat (delta / 2) + 1)%nat) as -> by lia.
      lia.
    + destruct (IH (delta / 2) _ _ _ _ (k + k)%nat j Hd' Hcur' Hacc)
        as (am' & ap' & -> & Hres).
      exists am', ap'. split; [reflexivity|]. intros x Hx.
      rewrite Hres by done. f_equal.
      assert (Z.to_nat delta = (2 * Z.to_nat (delta / 2))%nat) as -> by lia.
      lia.
Qed.

Lemma next32_state st : snd (next32 st) = steps 1 st.
Proof. reflexivity. Qed.

Lemma steps_succ n st : (0 < length st)%nat -> steps (S n) st = steps 1 (steps n st).
Proof.
  intros Hl. unfold steps. rewrite list_lookup_total_insert_eq by done.
  rewrite list_insert_insert_eq. reflexivity.
Qed.

Lemma iter_next32 n st :
  (0 < length st)%nat -> is_u64 (st !!! 0%nat) ->
  Nat.iter n (fun s => snd (next32 s)) st = steps n st.
Proof.
  intros Hl Hu. induction n as [|n IH].
  - unfold steps. cbn [Nat.iter nat_rect]. symmetry. apply list_insert_id.
    by apply list_lookup_lookup_total_lt.
  - rewrite Nat.iter_succ, IH, next32_state. symmetry. by apply steps_succ.
Qed.

Lemma advance_steps delta st :
  0 <= delta < 2 ^ 64 -> is_u64 (st !!! 0%nat) ->
  advance delta st = Some (steps (Z.to_nat delta) st).
Proof.
  intros Hd Hu. unfold advance.
  destruct (advance_loop_spec 64 delta MUL INC 1 0 1 0) as (am & ap & -> & H).
  - exact Hd.
  - intros x Hx. cbn [Nat.iter nat_rect]. unfold step. f_equal. lia.
  - intros x Hx. cbn [Nat.iter nat_rect]. unfold wrap64.
    rewrite Z.mod_small; [lia|]. unfold is_u64 in Hx. lia.
  - rewrite H by done. unfold steps. do 3 f_equal. lia.
Qed.

Lemma next32_output st :
  is_u64 (st !!! 0%nat) ->
  let state := st !!! 0%nat in
  let value := wrap32 (Z.shiftr (Z.lxor state (Z.shiftr state 18)) 27) in
  let rot := Z.shiftr state 59 in
  0 <= rot < 32 /\
  fst (next32 st) = (if decide (rot = 0) then value else rotl value (32 - rot)) /\
  is_u32 (fst (next32 st)).
Proof.
  intros Hu state value rot. unfold is_u64 in Hu. fold state in Hu.
  assert (0 <= rot < 32) as Hrot.
  { subst rot. rewrite Z.shiftr_div_pow2 by lia. split; [apply Z.div_pos; lia|].
    apply Z.div_lt_upper_bound; lia. }
  assert (is_u32 value) as Hv by apply wrap32_range.
  assert (fst (next32 st)
          = if decide (rot = 0) then value else rotl value (32 - rot)) as Hout.
  { unfold next32. cbn [fst]. fold state. fold value. fold rot.
    destruct (decide (rot = 0)) as [E|E].
    - by rewrite decide_False by (by intros ?).
    - rewrite decide_True by done. unfold rotl.
      replace (32 - (32 - rot)) with rot by lia. apply Z.lor_comm. }
  split; [done|]. split; [done|]. rewrite Hout. case_decide; [done|].
  apply rotl_u32; [lia|done].
Qed.

Lemma next_two_draws st :
  (0 < length st)%nat -> is_u64 (st !!! 0%nat) ->
  let '(high, st1) := next32 st in
  let '(low, st2) := next32 st1 in
  is_u32 high /\ is_u32 low /\
  next st = (high * 2 ^ 32 + low, st2) /\ st2 = steps 2 st.
Proof.
  intros Hl Hu.
  pose proof (next32_output st Hu) as (_ & _ & Hhigh).
  pose proof (next32_state st) as Hs1.
  unfold next. destruct (next32 st) as [high st1]. cbn [fst snd] in *.
  assert (is_u64 (st1 !!! 0%nat)) as Hu1.
  { rewrite Hs1. unfold steps. rewrite list_lookup_total_insert_eq by done.
    by apply iter_step_u64. }
  pose proof (next32_output st1 Hu1) as (_ & _ & Hlow).
  pose proof (next32_state st1) as Hs2.
  destruct (next32 st1) as [low st2]. cbn [fst snd] in *.
  split; [done|]. split; [done|]. split.
  - f_equal. unfold is_u32, wrap64 in *. rewrite Z.shiftl_mul_pow2 by lia.
    rewrite Z.mod_small by lia. rewrite Z.lor_comm, lor_disjoint by lia. lia.
  - rewrite Hs2, Hs1. symmetry. by apply steps_succ.
Qed.

Lemma from_seed_state seed :
  from_seed seed = [step (wrap64 (step 0 + seed))].
Proof. reflexivity. Qed.

End PCG32_Facts.

(** ** The shift-and-xor engines, [splitmix64] and [compile_time] *)

Module Engines64_Facts.

Import Engines64 Engines64_Doc.

(** *** 64-bit words *)

Lemma u64_wrap x : is_u64 (wrap64 x).
Proof. unfold is_u64, wrap64. apply Z.mod_pos_bound. lia. Qed.

Lemma wrap64_id x : is_u64 x -> wrap64 x = x.
Proof. unfold is_u64, wrap64. intros Hx. by apply Z.mod_small. Qed.

Lemma u64_high_bit x n : is_u64 x -> 64 <= n -> Z.testbit x n = false.
Proof.
  intros Hx Hn. rewrite <-(wrap64_id x) by done. unfold wrap64.
  apply Z.mod_pow2_bits_high. lia.
Qed.

Lemma lxor_u64 a b : is_u64 a -> is_u64 b -> is_u64 (Z.lxor a b).
Proof. unfold is_u64. intros Ha Hb. apply lxor_range; lia. Qed.

Lemma shiftr_u64 a k : 0 <= k -> is_u64 a -> is_u64 (Z.shiftr a k).
Proof.
  unfold is_u64. intros Hk Ha. rewrite Z.shiftr_div_pow2 by lia.
  assert (0 < 2 ^ k) as Hp by (apply Z.pow_pos_nonneg; lia).
  split; [apply Z.div_pos; lia|].
  apply Z.div_lt_upper_bound; [lia|]. nia.
Qed.

(** *** [rotl<uint64_t>] *)

Lemma pow2_split64 k : 0 <= k <= 64 -> 2 ^ 64 = 2 ^ (64 - k) * 2 ^ k.
Proof. intros Hk. rewrite <-Z.pow_add_r by lia. f_equal. lia. Qed.

Lemma rotl64_split x k :
  0 < k < 64 -> is_u64 x ->
  rotl64 x k = (x mod 2 ^ (64 - k)) * 2 ^ k + x / 2 ^ (64 - k) /\
  0 <= x mod 2 ^ (64 - k) < 2 ^ (64 - k) /\
  0 <= x / 2 ^ (64 - k) < 2 ^ k.
Proof.
  unfold is_u64. intros Hk Hx.
  assert (0 < 2 ^ k) as Hpk by (apply Z.pow_pos_nonneg; lia).
  assert (0 < 2 ^ (64 - k)) as Hpk' by (apply Z.pow_pos_nonneg; lia).
  assert (0 <= x / 2 ^ (64 - k) < 2 ^ k) as Hhi.
  { split; [apply Z.div_pos; lia|].
    apply Z.div_lt_upper_bound; [lia|]. rewrite <-pow2_split64 by lia. lia. }
  split; [|split; [by apply Z.mod_pos_bound|done]].
  unfold rotl64, wrap64.
  rewrite Z.shiftl_mul_pow2, Z.shiftr_div_pow2 by lia.
  rewrite (pow2_split64 k) at 1 by lia.
  rewrite Z.mul_mod_distr_r by lia.
  rewrite Z.lor_comm, lor_disjoint by lia. lia.
Qed.

Lemma rotl64_u64 x k : 0 < k < 64 -> is_u64 x -> is_u64 (rotl64 x k).
Proof.
  intros Hk Hx. destruct (rotl64_split x k Hk Hx) as (-> & Hlo & Hhi).
  unfold is_u64. rewrite (pow2_split64 k) by lia. nia.
Qed.

Lemma rotl64_rotl64_inverse x k :
  0 < k < 64 -> is_u64 x -> rotl64 (rotl64 x k) (64 - k) = x.
Proof.
  intros Hk Hx. pose proof (rotl64_u64 x k Hk Hx) as Hy.
  destruct (rotl64_split x k Hk Hx) as (E & Hlo & Hhi).
  destruct (rotl64_split (rotl64 x k) (64 - k)) as (-> & _ & _); [lia|done|].
  replace (64 - (64 - k)) with k by lia. rewrite E.
  assert (0 < 2 ^ k) as Hpk by (apply Z.pow_pos_nonneg; lia).
  rewrite (Z.add_comm (_ * 2 ^ k)).
  rewrite Z.mod_add, Z.div_add by lia.
  rewrite (Z.mod_small (x / _)), (Z.div_small (x / _)) by lia.
  rewrite Z.add_0_l.
  pose proof (Z.div_mod x (2 ^ (64 - k))) as Hd. lia.
Qed.

Lemma rotl64_inj x y k :
  0 < k < 64 -> is_u64 x -> is_u64 y -> rotl64 x k = rotl64 y k -> x = y.
Proof.
  intros Hk Hx Hy E.
  rewrite <-(rotl64_rotl64_inverse x k), <-(rotl64_rotl64_inverse y k) by done.
  by rewrite E.
Qed.

Lemma rotl64_zero k : rotl64 0 k = 0.
Proof. unfold rotl64. by rewrite Z.shiftl_0_l, Z.shiftr_0_l. Qed.

(** *** The xorshift steps are one-to-one *)

Lemma xorb_cancel_r a b c : xorb a c = xorb b c -> a = b.
Proof. by destruct a, b, c. Qed.

Lemma shl_xor_bit x k n :
  0 <= k -> 0 <= n < 64 ->
  Z.testbit (Z.lxor x (wrap64 (Z.shiftl x k))) n
  = xorb (Z.testbit x n) (Z.testbit x (n - k)).
Proof.
  intros Hk Hn. unfold wrap64.
  by rewrite Z.lxor_spec, Z.mod_pow2_bits_low, Z.shiftl_spec by lia.
Qed.

Lemma xorshift_left_inj k x y :
  0 < k -> is_u64 x -> is_u64 y ->
  Z.lxor x (wrap64 (Z.shiftl x k)) = Z.lxor y (wrap64 (Z.shiftl y k)) ->
  x = y.
Proof.
  intros Hk Hx Hy E. apply Z.bits_inj'. intros n Hn. revert n Hn.
  apply (Wf_Z.Zlt_0_ind (fun n => Z.testbit x n = Z.testbit y n)).
  intros n IH Hn.
  destruct (decide (64 <= n)) as [Hhi|Hlo].
  { by rewrite !u64_high_bit by done. }
  apply (f_equal (fun v => Z.testbit v n)) in E.
  rewrite !shl_xor_bit in E by lia.
  destruct (decide (n < k)) as [Hlt|Hge].
  - rewrite !(Z.testbit_neg_r _ (n - k)) in E by lia.
    by apply xorb_cancel_r in E.
  - rewrite (IH (n - k)) in E by lia. by apply xorb_cancel_r in E.
Qed.

Lemma xorshift_right_inj k x y :
  0 < k -> is_u64 x -> is_u64 y ->
  Z.lxor x (Z.shiftr x k) = Z.lxor y (Z.shiftr y k) ->
  x = y.
Proof.
  intros Hk Hx Hy E. apply Z.bits_inj'.
  assert (forall m : nat, forall n, 0 <= n -> 64 - n <= Z.of_nat m ->
                                    Z.testbit x n = Z.testbit y n) as Hdown.
  { induction m as [|m IH]; intros n Hn Hm.
    - by rewrite !u64_high_bit by (done || lia).
    - destruct (decide (64 <= n)) as [Hhi|Hlo].
      { by rewrite !u64_high_bit by done. }
      apply (f_equal (fun v => Z.testbit v n)) in E.
      rewrite !Z.lxor_spec, !Z.shiftr_spec in E by lia.
      rewrite (IH (n + k)) in E by lia. by apply xorb_cancel_r in E. }
  intros n Hn. apply (Hdown (Z.to_nat 64)); lia.
Qed.

(** *** Additions and odd multiplications are one-to-one *)

Lemma add64_inj a b c :
  is_u64 a -> is_u64 b -> wrap64 (a + c) = wrap64 (b + c) -> a = b.
Proof.
  unfold is_u64, wrap64. intros Ha Hb E.
  apply (f_equal (fun v => (v - c) mod 2 ^ 64)) in E.
  rewrite !Zminus_mod_idemp_l in E.
  replace (a + c - c) with a in E by lia. replace (b + c - c) with b in E by lia.
  by rewrite !Z.mod_small in E by lia.
Qed.

Lemma mul64_inj c c' a b :
  wrap64 (c * c') = 1 ->
  is_u64 a -> is_u64 b -> wrap64 (a * c) = wrap64 (b * c) -> a = b.
Proof.
  unfold is_u64, wrap64. intros Hc Ha Hb E.
  apply (f_equal (fun v => (v * c') mod 2 ^ 64)) in E.
  rewrite !Zmult_mod_idemp_l, <-!Z.mul_assoc in E.
  rewrite <-(Zmult_mod_idemp_r (c * c') a), <-(Zmult_mod_idemp_r (c * c') b) in E.
  rewrite Hc, !Z.mul_1_r in E.
  by rewrite !Z.mod_small in E by lia.
Qed.

(** *** [splitmix64] *)

Lemma splitmix64_u64 seed : is_u64 (splitmix64 seed).
Proof.
  unfold splitmix64. cbv zeta.
  apply lxor_u64; [|apply shiftr_u64; [lia|]]; apply u64_wrap.
Qed.

Lemma splitmix64_inj a b :
  is_u64 a -> is_u64 b -> splitmix64 a = splitmix64 b -> a = b.
Proof.
  unfold splitmix64. cbv zeta. intros Ha Hb E.
  apply xorshift_right_inj in E; [|lia|apply u64_wrap..].
  apply (mul64_inj _ 0x319642b2d24d8ec3) in E;
    [|reflexivity|apply lxor_u64; [|apply shiftr_u64; [lia|]]; apply u64_wrap..].
  apply xorshift_right_inj in E; [|lia|apply u64_wrap..].
  apply (mul64_inj _ 0x96de1b173f119089) in E;
    [|reflexivity|apply lxor_u64; [|apply shiftr_u64; [lia|]]; apply u64_wrap..].
  apply xorshift_right_inj in E; [|lia|apply u64_wrap..].
  by apply add64_inj in E.
Qed.

Lemma wrap64_succ_ne seed : is_u64 seed -> wrap64 (seed + 1) <> seed.
Proof.
  unfold is_u64, wrap64. intros Hs E.
  destruct (decide (seed + 1 = 2 ^ 64)) as [E'|Hne].
  - rewrite E', Z.mod_same in E by lia. lia.
  - rewrite Z.mod_small in E by lia. lia.
Qed.

(** *** States of two and of four words *)

Lemma words64_2 st :
  words64 2 st -> exists a b, st = [a; b] /\ is_u64 a /\ is_u64 b.
Proof.
  intros [Hlen Hall]. destruct st as [|a [|b [|? ?]]]; try done.
  exists a, b. rewrite !Forall_cons in Hall.
  destruct Hall as (Ha & Hb & _). done.
Qed.

Lemma words64_4 st :
  words64 4 st ->
  exists a b c d, st = [a; b; c; d] /\ is_u64 a /\ is_u64 b /\ is_u64 c /\ is_u64 d.
Proof.
  intros [Hlen Hall]. destruct st as [|a [|b [|c [|d [|? ?]]]]]; try done.
  exists a, b, c, d. rewrite !Forall_cons in Hall.
  destruct Hall as (Ha & Hb & Hc & Hd & _). done.
Qed.

Lemma words64_intro_2 a b : is_u64 a -> is_u64 b -> words64 2 [a; b].
Proof. intros Ha Hb. split; [done|]. by repeat apply Forall_cons_2. Qed.

Lemma words64_intro_4 a b c d :
  is_u64 a -> is_u64 b -> is_u64 c -> is_u64 d -> words64 4 [a; b; c; d].
Proof. intros Ha Hb Hc Hd. split; [done|]. by repeat apply Forall_cons_2. Qed.

(** *** The xoroshiro update, for any of its three constants *)

Lemma xoroshiro_update_words r1 sh r2 st :
  0 < r1 < 64 -> 0 < r2 < 64 ->
  words64 2 st -> words64 2 (xoroshiro_update r1 sh r2 st).
Proof.
  intros Hr1 Hr2 (a & b & -> & Ha & Hb)%words64_2.
  unfold xoroshiro_update. cbn [lookup_total list_lookup_total].
  apply words64_intro_2;
    repeat first [apply lxor_u64 | apply rotl64_u64 | apply u64_wrap | done].
Qed.

Lemma xoroshiro_update_inj r1 sh r2 st st' :
  0 < r1 < 64 -> 0 < r2 < 64 ->
  words64 2 st -> words64 2 st' ->
  xoroshiro_update r1 sh r2 st = xoroshiro_update r1 sh r2 st' -> st = st'.
Proof.
  intros Hr1 Hr2 (a & b & -> & Ha & Hb)%words64_2 (a' & b' & -> & Ha' & Hb')%words64_2.
  unfold xoroshiro_update. cbn [lookup_total list_lookup_total].
  intros E. injection E as E0 E1.
  apply rotl64_inj in E1; [|done|by apply lxor_u64..].
  rewrite E1 in E0. do 2 apply lxor_inj_l in E0.
  apply rotl64_inj in E0; [|done..]. subst a'.
  apply lxor_inj_l in E1. by subst b'.
Qed.

Lemma xoroshiro_update_zero r1 sh r2 :
  xoroshiro_update r1 sh r2 [0; 0] = [0; 0].
Proof.
  unfold xoroshiro_update. cbn [lookup_total list_lookup_total].
  rewrite Z.lxor_0_r, !rotl64_zero, Z.shiftl_0_l. reflexivity.
Qed.

(** *** The xoshiro update *)

Lemma lxor_cancel_mid b x t : Z.lxor (Z.lxor b x) (Z.lxor x t) = Z.lxor b t.
Proof.
  by rewrite Z.lxor_assoc, <-(Z.lxor_assoc x), Z.lxor_nilpotent, Z.lxor_0_l.
Qed.

Lemma xoshiro_update_words st : words64 4 st -> words64 4 (xoshiro_update st).
Proof.
  intros (a & b & c & d & -> & Ha & Hb & Hc & Hd)%words64_4.
  unfold xoshiro_update. cbn [lookup_total list_lookup_total].
  apply words64_intro_4;
    repeat first [apply lxor_u64 | apply rotl64_u64 | apply u64_wrap | done | lia].
Qed.

Lemma xoshiro_update_inj st st' :
  words64 4 st -> words64 4 st' ->
  xoshiro_update st = xoshiro_update st' -> st = st'.
Proof.
  intros (a & b & c & d & -> & Ha & Hb & Hc & Hd)%words64_4
         (a' & b' & c' & d' & -> & Ha' & Hb' & Hc' & Hd')%words64_4.
  unfold xoshiro_update. cbn [lookup_total list_lookup_total].
  intros E. injection E as E0 E1 E2 E3.
  apply rotl64_inj in E3; [|lia|by apply lxor_u64..].
  assert (b = b') as <-.
  { apply (xorshift_left_inj 17); [lia|done..|].
    rewrite <-(lxor_cancel_mid b (Z.lxor c a)), <-(lxor_cancel_mid b' (Z.lxor c' a')).
    by rewrite E1, E2. }
  apply lxor_inj_l in E3. subst d'.
  apply lxor_inj_l in E0. subst a'.
  rewrite !(Z.lxor_comm b) in E1. apply lxor_inj_l in E1.
  apply lxor_inj_l in E1. by subst c'.
Qed.

Lemma xoshiro_update_zero : xoshiro_update [0; 0; 0; 0] = [0; 0; 0; 0].
Proof. reflexivity. Qed.

(** *** The xorshift update *)

Lemma xorshift_update_words st : words64 2 st -> words64 2 (xorshift_update st).
Proof.
  intros (a & b & -> & Ha & Hb)%words64_2.
  unfold xorshift_update. cbn [lookup_total list_lookup_total].
  apply words64_intro_2;
    repeat first [apply lxor_u64 | apply shiftr_u64 | apply u64_wrap | done | lia].
Qed.

Lemma xorshift_update_inj st st' :
  words64 2 st -> words64 2 st' ->
  xorshift_update st = xorshift_update st' -> st = st'.
Proof.
  intros (a & b & -> & Ha & Hb)%words64_2 (a' & b' & -> & Ha' & Hb')%words64_2.
  unfold xorshift_update. cbn [lookup_total list_lookup_total].
  intros E. injection E as E0 E1. subst b'.
  do 2 apply lxor_inj_l in E1.
  apply xorshift_right_inj in E1;
    [|lia|apply lxor_u64; [done|apply u64_wrap]..].
  apply xorshift_left_inj in E1; [|lia|done..]. by subst a'.
Qed.

Lemma xorshift_update_zero : xorshift_update [0; 0] = [0; 0].
Proof. reflexivity. Qed.

(** *** What each [next()] leaves in the state *)

Ltac two_words H :=
  let a := fresh "a" in let b := fresh "b" in
  destruct (words64_2 _ H) as (a & b & -> & _ & _); reflexivity.

Ltac four_words H :=
  let a := fresh "a" in let b := fresh "b" in
  let c := fresh "c" in let d := fresh "d" in
  destruct (words64_4 _ H) as (a & b & c & d & -> & _ & _ & _ & _); reflexivity.

Lemma Xoroshiro128p_state st :
  words64 2 st -> snd (Xoroshiro128p.next st) = xoroshiro_update 24 16 37 st.
Proof. intros H. two_words H. Qed.

Lemma Xoroshiro128pp_state st :
  words64 2 st -> snd (Xoroshiro128pp.next st) = xoroshiro_update 49 21 28 st.
Proof. intros H. two_words H. Qed.

Lemma Xoroshiro128ss_state st :
  words64 2 st -> snd (Xoroshiro128ss.next st) = xoroshiro_update 24 16 37 st.
Proof. intros H. two_words H. Qed.

Lemma Xoroshiro128Plus_state st :
  words64 2 st -> snd (Xoroshiro128Plus.next st) = xoroshiro_update 55 14 36 st.
Proof. intros H. two_words H. Qed.

Lemma Xorshift128Plus_state st :
  words64 2 st -> snd (Xorshift128Plus.next st) = xorshift_update st.
Proof. intros H. two_words H. Qed.

Lemma Xoshiro256p_state st :
  words64 4 st -> snd (Xoshiro256p.next st) = xoshiro_update st.
Proof. intros H. four_words H. Qed.

Lemma Xoshiro256pp_state st :
  words64 4 st -> snd (Xoshiro256pp.next st) = xoshiro_update st.
Proof. intros H. four_words H. Qed.

Lemma Xoshiro256ss_state st :
  words64 4 st -> snd (Xoshiro256ss.next st) = xoshiro_update st.
Proof. intros H. four_words H. Qed.

Lemma Xoshiro256Star_state st :
  words64 4 st -> snd (Xoshiro256Star.next st) = xoshiro_update st.
Proof. intros H. four_words H. Qed.

(** *** The engines together *)

Ltac each_engine H :=
  unfold xor_engines in H; cbn [In] in H;
  repeat (destruct H as [<-|H]); [..|destruct H].

(** The update of an engine of the list. *)
Lemma engine_update e :
  In e xor_engines ->
  exists upd,
    (forall st, words64 (STATE_SIZE e) st -> snd (next e st) = upd st) /\
    (forall st, words64 (STATE_SIZE e) st -> words64 (STATE_SIZE e) (upd st)) /\
    (forall st st', words64 (STATE_SIZE e) st -> words64 (STATE_SIZE e) st' ->
                    upd st = upd st' -> st = st') /\
    upd (zero_state e) = zero_state e.
Proof.
  intros H. each_engine H; cbn [STATE_SIZE next xoroshiro128p xoroshiro128pp
    xoroshiro128ss xoshiro256p xoshiro256pp xoshiro256ss xorshift128plus
    xoroshiro128plus xoshiro256star].
  - exists (xoroshiro_update 24 16 37).
    split; [apply Xoroshiro128p_state|].
    split; [intros st; by apply xoroshiro_update_words|].
    split; [intros st st'; by apply xoroshiro_update_inj|].
    apply xoroshiro_update_zero.
  - exists (xoroshiro_update 49 21 28).
    split; [apply Xoroshiro128pp_state|].
    split; [intros st; by apply xoroshiro_update_words|].
    split; [intros st st'; by apply xoroshiro_update_inj|].
    apply xoroshiro_update_zero.
  - exists (xoroshiro_update 24 16 37).
    split; [apply Xoroshiro128ss_state|].
    split; [intros st; by apply xoroshiro_update_words|].
    split; [intros st st'; by apply xoroshiro_update_inj|].
    apply xoroshiro_update_zero.
  - exists xoshiro_update.
    split; [apply Xoshiro256p_state|].
    split; [apply xoshiro_update_words|].
    split; [apply xoshiro_update_inj|apply xoshiro_update_zero].
  - exists xoshiro_update.
    split; [apply Xoshiro256pp_state|].
    split; [apply xoshiro_update_words|].
    split; [apply xoshiro_update_inj|apply xoshiro_update_zero].
  - exists xoshiro_update.
    split; [apply Xoshiro256ss_state|].
    split; [apply xoshiro_update_words|].
    split; [apply xoshiro_update_inj|apply xoshiro_update_zero].
  - exists xorshift_update.
    split; [apply Xorshift128Plus_state|].
    split; [apply xorshift_update_words|].
    split; [apply xorshift_update_inj|apply xorshift_update_zero].
  - exists (xoroshiro_update 55 14 36).
    split; [apply Xoroshiro128Plus_state|].
    split; [intros st; by apply xoroshiro_update_words|].
    split; [intros st st'; by apply xoroshiro_update_inj|].
    apply xoroshiro_update_zero.
  - exists xoshiro_update.
    split; [apply Xoshiro256Star_state|].
    split; [apply xoshiro_update_words|].
    split; [apply xoshiro_update_inj|apply xoshiro_update_zero].
Qed.

Lemma zero_state_words e : In e xor_engines -> words64 (STATE_SIZE e) (zero_state e).
Proof.
  intros H. each_engine H; (split; [reflexivity|]);
    repeat apply Forall_cons_2; try apply Forall_nil_2; unfold is_u64; lia.
Qed.

Lemma next_words e st :
  In e xor_engines -> words64 (STATE_SIZE e) st ->
  words64 (STATE_SIZE e) (snd (next e st)).
Proof.
  intros He Hst. destruct (engine_update e He) as (upd & Hupd & Hw & _).
  rewrite Hupd by done. by apply Hw.
Qed.

Lemma next_inj e st st' :
  In e xor_engines -> words64 (STATE_SIZE e) st -> words64 (STATE_SIZE e) st' ->
  snd (next e st) = snd (next e st') -> st = st'.
Proof.
  intros He Hst Hst'. destruct (engine_update e He) as (upd & Hupd & _ & Hinj & _).
  rewrite !Hupd by done. by apply Hinj.
Qed.

Lemma next_zero e : In e xor_engines -> next e (zero_state e) = (0, zero_state e).
Proof. intros H. each_engine H; reflexivity. Qed.

Lemma next_value_u64 e st : In e xor_engines -> is_u64 (fst (next e st)).
Proof. intros H. each_engine H; apply u64_wrap. Qed.

Lemma from_seed_words e seed :
  In e xor_engines -> words64 (STATE_SIZE e) (from_seed e seed).
Proof.
  intros H. each_engine H; (split; [reflexivity|]);
    repeat apply Forall_cons_2; try apply Forall_nil_2; apply splitmix64_u64.
Qed.

Lemma from_seed_head e seed :
  In e xor_engines ->
  exists rest,
    from_seed e seed = splitmix64 seed :: splitmix64 (wrap64 (seed + 1)) :: rest.
Proof. intros H. each_engine H; eexists; reflexivity. Qed.

Lemma from_seed_not_zero e seed :
  In e xor_engines -> is_u64 seed -> from_seed e seed <> zero_state e.
Proof.
  intros He Hs E. destruct (from_seed_head e seed He) as (rest & Hhead).
  rewrite Hhead in E.
  assert (splitmix64 seed = splitmix64 (wrap64 (seed + 1))) as Heq.
  { clear Hhead. each_engine He; injection E; congruence. }
  apply splitmix64_inj in Heq; [|done|apply u64_wrap].
  by apply (wrap64_succ_ne seed).
Qed.

Lemma from_seed_inj e seed seed' :
  In e xor_engines -> is_u64 seed -> is_u64 seed' ->
  from_seed e seed = from_seed e seed' -> seed = seed'.
Proof.
  intros He Hs Hs' E.
  destruct (from_seed_head e seed He) as (rest & Hhead).
  destruct (from_seed_head e seed' He) as (rest' & Hhead').
  rewrite Hhead, Hhead' in E. injection E as E _. by apply splitmix64_inj.
Qed.

(** *** After [n] calls *)

Lemma after_succ e n st : after e (S n) st = snd (next e (after e n st)).
Proof. reflexivity. Qed.

Lemma after_words e n st :
  In e xor_engines -> words64 (STATE_SIZE e) st ->
  words64 (STATE_SIZE e) (after e n st).
Proof.
  intros He Hst. induction n as [|n IH]; [done|].
  rewrite after_succ. by apply next_words.
Qed.

Lemma after_inj e n st st' :
  In e xor_engines -> words64 (STATE_SIZE e) st -> words64 (STATE_SIZE e) st' ->
  after e n st = after e n st' -> st = st'.
Proof.
  intros He Hst Hst'. induction n as [|n IH]; [done|].
  rewrite !after_succ. intros E. apply IH.
  apply (next_inj e); [done|by apply after_words..|done].
Qed.

Lemma after_zero e n : In e xor_engines -> after e n (zero_state e) = zero_state e.
Proof.
  intros He. induction n as [|n IH]; [done|].
  by rewrite after_succ, IH, next_zero.
Qed.

(** *** Engines that share their state update *)

Lemma after_ext e e' n st :
  (forall s, snd (next e s) = snd (next e' s)) -> after e n st = after e' n st.
Proof.
  intros H. induction n as [|n IH]; [done|].
  by rewrite !after_succ, IH, H.
Qed.

(** *** [compile_time] *)

Lemma two_digits v : 10 * (v / 10) + v mod 10 = v.
Proof. pose proof (Z.div_mod v 10). lia. Qed.

Lemma compile_time_seconds time h m s :
  0 <= h < 100 -> 0 <= m < 100 -> 0 <= s < 100 ->
  Utils64_Doc.clock_shows time h m s ->
  compile_time time = 3600 * h + 60 * m + s.
Proof.
  intros Hh Hm Hs ((H0 & H1) & (H3 & H4) & (H6 & H7)).
  unfold compile_time.
  change (Z.of_nat (Ascii.nat_of_ascii (Ascii.ascii_of_nat 48))) with 48.
  cbv zeta. rewrite H0, H1, H3, H4, H6, H7.
  replace (10 * (48 + h / 10 - 48) + (48 + h mod 10 - 48)) with h
    by (pose proof (two_digits h); lia).
  replace (10 * (48 + m / 10 - 48) + (48 + m mod 10 - 48)) with m
    by (pose proof (two_digits m); lia).
  replace (10 * (48 + s / 10 - 48) + (48 + s mod 10 - 48)) with s
    by (pose proof (two_digits s); lia).
  unfold wrap64. rewrite (Z.mod_small h), (Z.mod_small m), (Z.mod_small s) by lia.
  rewrite (Z.mod_small (h * 3600)), (Z.mod_small (m * 60)) by lia.
  rewrite (Z.mod_small (h * 3600 + m * 60)) by lia.
  rewrite Z.mod_small by lia. lia.
Qed.

End Engines64_Facts.

(** * Further properties *)

(** X1.  [rotl] on a 32-bit word, for a count strictly between 0 and 32,
    is a rotation: the result is a 32-bit word, its high part is the low
    [32 - k] bits of [x] and its low part the high [k] bits of [x], and
    rotating on by [32 - k] gives [x] back. *)
Theorem rotl_is_a_rotation x k :
  0 < k < 32 -> is_u32 x ->
  is_u32 (rotl x k) /\
  rotl x k = (x mod 2 ^ (32 - k)) * 2 ^ k + x / 2 ^ (32 - k) /\
  rotl (rotl x k) (32 - k) = x.
Proof.
  intros Hk Hx. split; [by apply rotl_u32|].
  split; [apply (rotl_split x k Hk Hx)|by apply rotl_rotl_inverse].
Qed.

Lemma rotl_is_a_rotation_witness :
  (0 < 7 < 32 /\ is_u32 0x80000001) /\
  rotl 0x80000001 7 = 0x000000C0 /\
  rotl (rotl 0x80000001 7) (32 - 7) = 0x80000001.
Proof.
  assert (0 < 7 < 32) as H1 by lia.
  assert (is_u32 0x80000001) as H2 by (unfold is_u32; lia).
  pose proof (rotl_is_a_rotation 0x80000001 7 H1 H2) as (_ & _ & Hinv).
  split; [exact (conj H1 H2)|]. split; [reflexivity|exact Hinv].
Defined.

(** X2.  The constructor from a key and a nonce copies the eight key words
    to words 4-11 and the two nonce words to words 14-15 as they are, after
    the four constants and around a zero counter; the state is sixteen
    32-bit words when the key and the nonce are. *)
Theorem ChaCha20_from_key_layout key nonce :
  length key = 8%nat -> length nonce = 2%nat ->
  ChaCha20.from_key key nonce
  = ChaCha20.EXPAND_32_BYTE_K ++ key ++ [0; 0] ++ nonce /\
  (Forall is_u32 key -> Forall is_u32 nonce ->
   ChaCha20_Doc.wf (ChaCha20.from_key key nonce)).
Proof.
  intros Hk Hn. split; [by apply ChaCha20_More.from_key_layout|].
  intros Hku Hnu. by apply ChaCha20_More.wf_from_key.
Qed.

Lemma ChaCha20_from_key_layout_witness :
  (length More_Examples.counting_key = 8%nat /\
   length More_Examples.counting_nonce = 2%nat) /\
  More_Examples.chacha_counting
  = ChaCha20.EXPAND_32_BYTE_K ++ [1; 2; 3; 4; 5; 6; 7; 8] ++ [0; 0] ++ [9; 10].
Proof.
  assert (length More_Examples.counting_key = 8%nat) as H1 by reflexivity.
  assert (length More_Examples.counting_nonce = 2%nat) as H2 by reflexivity.
  split; [exact (conj H1 H2)|].
  exact (proj1 (ChaCha20_from_key_layout _ _ H1 H2)).
Defined.

(** X3.  A state of sixteen 32-bit words stays one under every sequence of
    [next()] and [next512()] calls; the block returned is sixteen 32-bit
    words and the value [next()] returns fits in 64 bits.  The constructor
    from an entropy source always builds such a state. *)
Theorem ChaCha20_state_stays_well_formed st cs :
  ChaCha20_Doc.wf st ->
  ChaCha20_Doc.wf (ChaCha20_Doc.after_calls st cs) /\
  ChaCha20_Doc.wf (fst (ChaCha20.next512 st)) /\
  0 <= fst (ChaCha20.next st) < 2 ^ 64 /\
  (forall src n, ChaCha20_Doc.wf (fst (ChaCha20.from_device src n))).
Proof.
  intros Hst.
  split; [apply (ChaCha20_More.after_calls_counter cs st Hst)|].
  split; [apply (ChaCha20_More.wf_block st Hst)|].
  split; [by apply ChaCha20_More.next_range|].
  apply ChaCha20_More.wf_from_device.
Qed.

Lemma ChaCha20_state_stays_well_formed_witness :
  ChaCha20_Doc.wf More_Examples.chacha_counting /\
  ChaCha20_Doc.wf
    (ChaCha20_Doc.after_calls More_Examples.chacha_counting
       More_Examples.chacha_calls) /\
  0 <= fst (ChaCha20.next More_Examples.chacha_counting) < 2 ^ 64.
Proof.
  assert (ChaCha20_Doc.wf More_Examples.chacha_counting) as H by by_evaluation.
  pose proof (ChaCha20_state_stays_well_formed _ More_Examples.chacha_calls H)
    as (Ha & _ & Hn & _).
  exact (conj H (conj Ha Hn)).
Defined.

(** X4.  Every [next()] or [next512()] call adds one to the 64-bit counter
    of words 12-13, modulo 2^64: after a sequence of calls the counter has
    advanced by their number, so the state differs from the one the
    sequence started from unless 2^64 or more calls were made. *)
Theorem ChaCha20_counter_counts_calls st cs :
  ChaCha20_Doc.wf st ->
  ChaCha20_Doc.counter (ChaCha20_Doc.after_calls st cs)
  = wrap64 (ChaCha20_Doc.counter st + Z.of_nat (length cs)) /\
  ((0 < length cs)%nat -> Z.of_nat (length cs) < 2 ^ 64 ->
   ChaCha20_Doc.after_calls st cs <> st).
Proof.
  intros Hst. split; [apply (ChaCha20_More.after_calls_counter cs st Hst)|].
  by apply ChaCha20_More.after_calls_moves.
Qed.

Lemma ChaCha20_counter_counts_calls_witness :
  ChaCha20_Doc.wf Examples.chacha_saturated /\
  ChaCha20_Doc.counter
    (ChaCha20_Doc.after_calls Examples.chacha_saturated More_Examples.chacha_calls)
  = 0xFFFFFFFF + 3.
Proof.
  assert (ChaCha20_Doc.wf Examples.chacha_saturated) as H by by_evaluation.
  split; [exact H|].
  exact (proj1 (ChaCha20_counter_counts_calls _ More_Examples.chacha_calls H)).
Defined.

(** X5.  On states of sixteen 32-bit words a double round is one-to-one,
    and so are the ten double rounds of [block()]: two different states
    never reach the same working state.  A double round keeps the words
    32-bit. *)
Theorem ChaCha20_rounds_one_to_one ws ws' :
  ChaCha20_Doc.wf ws -> ChaCha20_Doc.wf ws' ->
  ChaCha20_Doc.wf (ChaCha20.round ws) /\
  (ChaCha20.round ws = ChaCha20.round ws' <-> ws = ws') /\
  (Nat.iter 10 ChaCha20.round ws = Nat.iter 10 ChaCha20.round ws' <-> ws = ws').
Proof.
  intros Hws Hws'.
  rewrite !ChaCha20_Facts.round_double_round by (apply Hws || apply Hws').
  destruct (ChaCha20_Facts.iter_round ws 10 (proj1 Hws)) as [-> _].
  destruct (ChaCha20_Facts.iter_round ws' 10 (proj1 Hws')) as [-> _].
  split; [by apply ChaCha20_More.wf_double_round|]. split; split.
  - by apply ChaCha20_More.double_round_inj.
  - by intros ->.
  - by apply ChaCha20_More.iter_double_round_inj.
  - by intros ->.
Qed.

Lemma ChaCha20_rounds_one_to_one_witness :
  (ChaCha20_Doc.wf Examples.chacha_zero /\
   ChaCha20_Doc.wf More_Examples.chacha_counting) /\
  Nat.iter 10 ChaCha20.round Examples.chacha_zero
  <> Nat.iter 10 ChaCha20.round More_Examples.chacha_counting.
Proof.
  assert (ChaCha20_Doc.wf Examples.chacha_zero) as H1 by by_evaluation.
  assert (ChaCha20_Doc.wf More_Examples.chacha_counting) as H2 by by_evaluation.
  split; [exact (conj H1 H2)|].
  intros E.
  apply (proj2 (proj2 (ChaCha20_rounds_one_to_one _ _ H1 H2))) in E.
  discriminate E.
Defined.

(** X6.  The AES-counter constructor from an entropy source makes eight
    calls.  The first four values fill the counter, each as the bytes of a
    32-bit word in the byte order of the host; the last four make the key,
    each most significant byte first, which is then expanded.  The engine
    built is well formed. *)
Theorem AESCTR_from_device_layout host shl_undefined previous src n :
  AESCTR_Doc.bytes 176 previous ->
  AESCTR.from_device host shl_undefined previous src n =
    (AESCTR.Engine
       ([Entropy.value src n; Entropy.value src (1 + n);
         Entropy.value src (2 + n); Entropy.value src (3 + n)]
          ≫= to_bytes host 4)
       (AESCTR.key_expansion host shl_undefined
          ([Entropy.value src (4 + n); Entropy.value src (5 + n);
            Entropy.value src (6 + n); Entropy.value src (7 + n)]
             ≫= to_bytes BigEndian 4)
          previous),
     (8 + n)%nat) /\
  AESCTR_Doc.wf (fst (AESCTR.from_device host shl_undefined previous src n)).
Proof.
  intros Hprev. rewrite AESCTR_More.aes_from_device_eq. split; [reflexivity|].
  cbn [fst]. split; cbn [AESCTR.m_state AESCTR.m_expanded_key].
  - apply (AESCTR_More.bytes_bind_to_bytes host [_; _; _; _]).
  - apply AESCTR_More.key_expansion_spec; [|done].
    apply (AESCTR_More.bytes_bind_to_bytes BigEndian [_; _; _; _]).
Qed.

Lemma AESCTR_from_device_layout_witness :
  AESCTR_Doc.bytes 176 Examples.aes_previous /\
  AESCTR.m_state
    (fst (AESCTR.from_device LittleEndian AESCTR_Doc.shl_masked
            Examples.aes_previous Examples.sevens 0%nat))
  = [7; 0; 0; 0; 7; 0; 0; 0; 7; 0; 0; 0; 7; 0; 0; 0] /\
  snd (AESCTR.from_device LittleEndian AESCTR_Doc.shl_masked
         Examples.aes_previous Examples.sevens 0%nat) = 8%nat.
Proof.
  assert (AESCTR_Doc.bytes 176 Examples.aes_previous) as H by by_evaluation.
  pose proof (AESCTR_from_device_layout LittleEndian AESCTR_Doc.shl_masked
                _ Examples.sevens 0%nat H) as [E _].
  split; [exact H|]. rewrite E. split; reflexivity.
Defined.

(** X7.  The AES-counter constructor from a key and a nonce takes the
    sixteen nonce bytes as the counter, as they are, and builds a
    well-formed engine. *)
Theorem AESCTR_from_key_layout host shl_undefined previous key nonce :
  AESCTR_Doc.bytes 16 key -> AESCTR_Doc.bytes 16 nonce ->
  AESCTR_Doc.bytes 176 previous ->
  AESCTR.m_state (AESCTR.from_key host shl_undefined previous key nonce) = nonce /\
  AESCTR_Doc.wf (AESCTR.from_key host shl_undefined previous key nonce).
Proof.
  intros Hkey Hnonce Hprev.
  assert (AESCTR.m_state (AESCTR.from_key host shl_undefined previous key nonce)
          = nonce) as Hs.
  { unfold AESCTR.from_key. cbn [AESCTR.m_state].
    change (IEngine.init 16) with (replicate 16 0 ++ []).
    rewrite list_inserts_0_r by (rewrite length_replicate; apply Hnonce).
    apply app_nil_r. }
  split; [exact Hs|]. split; [by rewrite Hs|].
  by apply AESCTR_More.key_expansion_spec.
Qed.

Lemma AESCTR_from_key_layout_witness :
  (AESCTR_Doc.bytes 16 Examples.aes_zero_key /\
   AESCTR_Doc.bytes 16 Examples.ones_buffer /\
   AESCTR_Doc.bytes 176 Examples.aes_previous) /\
  AESCTR.m_state
    (AESCTR.from_key LittleEndian AESCTR_Doc.shl_masked Examples.aes_previous
       Examples.aes_zero_key Examples.ones_buffer)
  = Examples.ones_buffer.
Proof.
  assert (AESCTR_Doc.bytes 16 Examples.aes_zero_key) as H1 by by_evaluation.
  assert (AESCTR_Doc.bytes 16 Examples.ones_buffer) as H2 by by_evaluation.
  assert (AESCTR_Doc.bytes 176 Examples.aes_previous) as H3 by by_evaluation.
  split; [exact (conj H1 (conj H2 H3))|].
  exact (proj1 (AESCTR_from_key_layout LittleEndian AESCTR_Doc.shl_masked
                  _ _ _ H1 H2 H3)).
Defined.

(** X8.  A well-formed AES-counter engine stays well formed under every
    sequence of [process_block], [next()] and [next128()] calls.  Handed
    sixteen bytes, [process_block] leaves sixteen bytes, [next()] returns a
    value that fits in 64 bits and [next128()] two such values. *)
Theorem AESCTR_engine_stays_well_formed host e buffer cs :
  AESCTR_Doc.wf e -> AESCTR_Doc.bytes 16 buffer ->
  AESCTR_Doc.wf (AESCTR_Doc.after_calls host e cs) /\
  AESCTR_Doc.bytes 16 (fst (AESCTR.process_block host buffer e)) /\
  0 <= fst (AESCTR.next host buffer e) < 2 ^ 64 /\
  length (fst (AESCTR.next128 host buffer e)) = 2%nat /\
  Forall is_u64 (fst (AESCTR.next128 host buffer e)).
Proof.
  intros He Hb.
  split; [apply (AESCTR_More.aes_after_calls_counter host cs e He)|].
  split; [apply AESCTR_More.process_block_bytes; [apply Hb|done]|].
  split; [by apply AESCTR_More.aes_next_range|].
  by apply AESCTR_More.next128_range.
Qed.

Lemma AESCTR_engine_stays_well_formed_witness :
  (AESCTR_Doc.wf Examples.aes_zero /\
   AESCTR_Doc.bytes 16 Examples.ones_buffer) /\
  AESCTR_Doc.wf
    (AESCTR_Doc.after_calls LittleEndian Examples.aes_zero More_Examples.aes_calls) /\
  0 <= fst (AESCTR.next LittleEndian Examples.ones_buffer Examples.aes_zero) < 2 ^ 64.
Proof.
  assert (AESCTR_Doc.wf Examples.aes_zero) as H1 by by_evaluation.
  assert (AESCTR_Doc.bytes 16 Examples.ones_buffer) as H2 by by_evaluation.
  pose proof (AESCTR_engine_stays_well_formed LittleEndian _ _
                More_Examples.aes_calls H1 H2) as (Ha & _ & Hn & _).
  exact (conj (conj H1 H2) (conj Ha Hn)).
Defined.

(** X9.  Every [process_block], [next()] or [next128()] call adds one to
    the 128-bit counter, modulo 2^128: after a sequence of calls the counter
    has advanced by their number, and the engine differs from the one the
    sequence started from unless 2^128 or more calls were made. *)
Theorem AESCTR_counter_counts_calls host e cs :
  AESCTR_Doc.wf e ->
  AESCTR_Doc.counter host (AESCTR.m_state (AESCTR_Doc.after_calls host e cs))
  = (AESCTR_Doc.counter host (AESCTR.m_state e) + Z.of_nat (length cs))
      mod 2 ^ 128 /\
  ((0 < length cs)%nat -> Z.of_nat (length cs) < 2 ^ 128 ->
   AESCTR_Doc.after_calls host e cs <> e).
Proof.
  intros He. split; [apply (AESCTR_More.aes_after_calls_counter host cs e He)|].
  by apply AESCTR_More.aes_after_calls_moves.
Qed.

Lemma AESCTR_counter_counts_calls_witness :
  AESCTR_Doc.wf Examples.aes_zero /\
  AESCTR_Doc.counter LittleEndian
    (AESCTR.m_state
       (AESCTR_Doc.after_calls LittleEndian Examples.aes_zero
          More_Examples.aes_calls))
  = 3.
Proof.
  assert (AESCTR_Doc.wf Examples.aes_zero) as H by by_evaluation.
  split; [exact H|].
  exact (proj1 (AESCTR_counter_counts_calls LittleEndian _
                  More_Examples.aes_calls H)).
Defined.

(** X10.  [key_expansion] overwrites every byte of [m_expanded_key]: the
    schedule depends on the key alone, not on what the array held before. *)
Theorem AESCTR_key_expansion_ignores_previous
    host shl_undefined key previous previous' :
  AESCTR_Doc.bytes 16 key ->
  AESCTR_Doc.bytes 176 previous -> AESCTR_Doc.bytes 176 previous' ->
  AESCTR.key_expansion host shl_undefined key previous
  = AESCTR.key_expansion host shl_undefined key previous'.
Proof. apply AESCTR_More.key_expansion_previous. Qed.

Lemma AESCTR_key_expansion_ignores_previous_witness :
  (AESCTR_Doc.bytes 16 Examples.aes_zero_key /\
   AESCTR_Doc.bytes 176 Examples.aes_previous /\
   AESCTR_Doc.bytes 176 (replicate 176 0xAB)) /\
  AESCTR.key_expansion LittleEndian AESCTR_Doc.shl_masked
    Examples.aes_zero_key Examples.aes_previous
  = AESCTR.key_expansion LittleEndian AESCTR_Doc.shl_masked
      Examples.aes_zero_key (replicate 176 0xAB).
Proof.
  assert (AESCTR_Doc.bytes 16 Examples.aes_zero_key) as H1 by by_evaluation.
  assert (AESCTR_Doc.bytes 176 Examples.aes_previous) as H2 by by_evaluation.
  assert (AESCTR_Doc.bytes 176 (replicate 176 0xAB)) as H3 by by_evaluation.
  split; [exact (conj H1 (conj H2 H3))|].
  exact (AESCTR_key_expansion_ignores_previous LittleEndian AESCTR_Doc.shl_masked
           _ _ _ H1 H2 H3).
Defined.

(** X11.  For a given schedule the block transform of [process_block] is
    one-to-one on 16-byte arrays: two calls return the same block exactly
    when they were handed the same bytes. *)
Theorem AESCTR_block_transform_one_to_one host e state state' :
  AESCTR_Doc.wf e ->
  AESCTR_Doc.bytes 16 state -> AESCTR_Doc.bytes 16 state' ->
  fst (AESCTR.process_block host state e) = fst (AESCTR.process_block host state' e)
  <-> state = state'.
Proof.
  intros [_ [Hl Hk]] Hs Hs'. split; [|by intros ->].
  rewrite !AESCTR_Facts.process_block_transform by (apply Hs || apply Hs' || lia).
  apply AESCTR_More.transform_inj; (done || lia).
Qed.

Lemma AESCTR_block_transform_one_to_one_witness :
  (AESCTR_Doc.wf Examples.aes_zero /\
   AESCTR_Doc.bytes 16 Examples.ones_buffer /\
   AESCTR_Doc.bytes 16 More_Examples.zero_buffer) /\
  fst (AESCTR.process_block LittleEndian Examples.ones_buffer Examples.aes_zero)
  <> fst (AESCTR.process_block LittleEndian More_Examples.zero_buffer
            Examples.aes_zero).
Proof.
  assert (AESCTR_Doc.wf Examples.aes_zero) as H1 by by_evaluation.
  assert (AESCTR_Doc.bytes 16 Examples.ones_buffer) as H2 by by_evaluation.
  assert (AESCTR_Doc.bytes 16 More_Examples.zero_buffer) as H3 by by_evaluation.
  split; [exact (conj H1 (conj H2 H3))|].
  intros E.
  apply (proj1 (AESCTR_block_transform_one_to_one LittleEndian _ _ _ H1 H2 H3)) in E.
  discriminate E.
Defined.

(** X12.  For an unsigned [T] and [0 <= min <= max], [rand(e, min, max)]
    draws once from the engine and returns [min] plus the draw, truncated
    to [T], modulo [max - min + 1], a value from [min] to [max]; unless the
    range is the whole of [T], where the size of the range wraps to zero
    and the remainder is by zero. *)
Theorem rand_range_unsigned {St : Type} {E : Generator.Engine St}
    (w min max : Z) (e : St) :
  0 <= min <= max -> max < 2 ^ w ->
  (max - min + 1 < 2 ^ w ->
   exists v,
     Generator.rand_range w min max e
     = Generator.Returned (v, snd (Generator.engine_next e)) /\
     Generator.in_range min max v /\
     v = min + (fst (Generator.engine_next e) mod 2 ^ w) mod (max - min + 1)) /\
  (max - min + 1 = 2 ^ w ->
   Generator.rand_range w min max e = Generator.Undefined).
Proof.
  intros Hmin Hmax. split.
  - intros Hr. by apply Generator_Facts.rand_range_returns.
  - apply Generator_Facts.rand_range_full_range.
Qed.

Lemma rand_range_unsigned_witness :
  (0 <= 10 <= 50 /\ 50 < 2 ^ 32) /\
  exists v,
    Generator.rand_range 32 10 50 Examples.chacha_zero
    = Generator.Returned (v, snd (ChaCha20.next Examples.chacha_zero)) /\
    Generator.in_range 10 50 v.
Proof.
  assert (0 <= 10 <= 50) as H1 by lia.
  assert (50 < 2 ^ 32) as H2 by lia.
  split; [exact (conj H1 H2)|].
  destruct (proj1 (rand_range_unsigned 32 10 50 Examples.chacha_zero H1 H2))
    as (v & Hv & Hin & _); [lia|].
  exists v. exact (conj Hv Hin).
Defined.

(** X13.  For an unsigned [T] of at most 64 bits and a range from [min] to
    [max] that is not the whole of [T], [sequence] never divides by zero,
    and whenever its loop ends the vector returned holds pairwise different
    values, all from [min] to [max], and exactly as many as were asked for,
    or as the range holds when that is less. *)
Theorem sequence_unsigned_sound {St : Type} {E : Generator.Engine St}
    (w : Z) (fuel : nat) (min max count : Z) (e : St) :
  0 <= min <= max -> max < 2 ^ w -> max - min + 1 < 2 ^ w -> w <= 64 ->
  0 <= count ->
  match Generator.sequence w fuel min max count e with
  | Generator.Returned (seq, _) =>
      NoDup seq /\ Forall (Generator.in_range min max) seq /\
      Z.of_nat (length seq) = Z.min count (max - min + 1)
  | Generator.Undefined => False
  | Generator.Unfinished => True
  end.
Proof. apply Generator_Facts.sequence_sound. Qed.

Lemma sequence_unsigned_sound_witness :
  (0 <= 1 <= 100 /\ 100 < 2 ^ 32 /\ 100 - 1 + 1 < 2 ^ 32 /\ 32 <= 64 /\ 0 <= 10) /\
  exists seq e,
    Generator.sequence 32 12 1 100 10 Examples.chacha_zero
    = Generator.Returned (seq, e) /\
    NoDup seq /\ length seq = 10%nat.
Proof.
  assert (0 <= 1 <= 100) as H1 by lia.
  assert (100 < 2 ^ 32) as H2 by lia.
  assert (100 - 1 + 1 < 2 ^ 32) as H3 by lia.
  assert (32 <= 64) as H4 by lia.
  assert (0 <= 10) as H5 by lia.
  split; [exact (conj H1 (conj H2 (conj H3 (conj H4 H5))))|].
  pose proof (sequence_unsigned_sound 32 12 1 100 10 Examples.chacha_zero
                H1 H2 H3 H4 H5) as H.
  destruct (Generator.sequence 32 12 1 100 10 Examples.chacha_zero)
    as [[seq e]| |] eqn:Hrun.
  - exists seq, e. destruct H as (Hnd & _ & Hlen).
    split; [reflexivity|]. split; [exact Hnd|]. lia.
  - destruct H.
  - vm_compute in Hrun. discriminate Hrun.
Defined.

(** X14.  The ends of [sequence].  Asked for no value it returns the empty
    vector without drawing.  Over the whole of [uint64_t] it returns the
    empty vector whatever positive number of values is asked for, because
    the size of the range wraps to zero.  Over the whole of [uint32_t],
    asked for at least one value and at most 2^32, its first draw is a
    remainder by zero. *)
Theorem sequence_ends {St : Type} {E : Generator.Engine St}
    (w : Z) (fuel : nat) (min max count : Z) (e : St) :
  0 < count ->
  Generator.sequence w fuel min max 0 e = Generator.Returned ([], e) /\
  Generator.sequence 64 fuel 0 (2 ^ 64 - 1) count e = Generator.Returned ([], e) /\
  (count <= 2 ^ 32 ->
   Generator.sequence 32 (S fuel) 0 (2 ^ 32 - 1) count e = Generator.Undefined).
Proof.
  intros Hc. split; [apply Generator_Facts.sequence_nothing_asked|].
  split; [by apply Generator_Facts.sequence_whole_uint64|].
  intros Hc'. by apply Generator_Facts.sequence_whole_uint32.
Qed.

Lemma sequence_ends_witness :
  0 < 2 ^ 40 /\
  Generator.sequence 64 7 0 (2 ^ 64 - 1) (2 ^ 40) Examples.chacha_zero
  = Generator.Returned ([], Examples.chacha_zero).
Proof.
  assert (0 < 2 ^ 40) as H1 by lia.
  split; [exact H1|].
  exact (proj1 (proj2 (sequence_ends 64 7 0 0 (2 ^ 40) Examples.chacha_zero H1))).
Defined.

(** X15.  For [T = int], [rand(e, min, max)] returns [min] plus the
    remainder, truncated towards zero, of the draw's low 32 bits read as a
    signed [int].  The result is never above [max], but it is below [min]
    whenever that [int] is negative and not a multiple of the size of the
    range: it lies between [min - (max - min)] and [max]. *)
Theorem rand_range_int_may_undershoot {St : Type} {E : Generator.Engine St}
    (min max : Z) (e : St) :
  Generator.is_int min -> Generator.is_int max -> min <= max ->
  max - min + 1 < 2 ^ 31 -> - 2 ^ 31 <= min - (max - min) ->
  let r := Z.rem (Generator.to_int (fst (Generator.engine_next e)))
                 (max - min + 1) in
  Generator.rand_range_int min max e
  = Generator.Returned (min + r, snd (Generator.engine_next e)) /\
  - (max - min) <= r <= max - min /\
  (min + r < min <->
   Generator.to_int (fst (Generator.engine_next e)) < 0 /\ r <> 0).
Proof.
  intros Hmin Hmax Hle Hr Hlow r.
  destruct (Generator_Facts.rand_range_int_returns min max e Hmin Hmax Hle Hr Hlow)
    as (Hret & Hb & Hneg).
  split; [exact Hret|]. split; [exact Hb|].
  fold r in Hneg. rewrite <-Hneg. lia.
Qed.

Lemma rand_range_int_may_undershoot_witness :
  (Generator.is_int 10 /\ Generator.is_int 50 /\ 10 <= 50 /\
   50 - 10 + 1 < 2 ^ 31 /\ - 2 ^ 31 <= 10 - (50 - 10)) /\
  Generator.rand_range_int 10 50 More_Examples.chacha_counting
  = Generator.Returned (-10, snd (ChaCha20.next More_Examples.chacha_counting)).
Proof.
  assert (Generator.is_int 10) as H1 by (unfold Generator.is_int; lia).
  assert (Generator.is_int 50) as H2 by (unfold Generator.is_int; lia).
  assert (10 <= 50) as H3 by lia.
  assert (50 - 10 + 1 < 2 ^ 31) as H4 by lia.
  assert (- 2 ^ 31 <= 10 - (50 - 10)) as H5 by lia.
  split; [exact (conj H1 (conj H2 (conj H3 (conj H4 H5))))|].
  pose proof (rand_range_int_may_undershoot 10 50 More_Examples.chacha_counting
                H1 H2 H3 H4 H5) as [E _].
  rewrite E. vm_compute. reflexivity.
Defined.

(** X16.  [advance(delta)] moves the state of a [PCG32] to where [delta]
    calls of [next32()] would leave it; its loop ends within the 64 turns
    that a [uint64_t] allows. *)
Theorem PCG32_advance_skips_draws delta st :
  0 <= delta < 2 ^ 64 -> (0 < length st)%nat -> is_u64 (st !!! 0%nat) ->
  PCG32.advance delta st
  = Some (Nat.iter (Z.to_nat delta) (fun s => snd (PCG32.next32 s)) st).
Proof.
  intros Hd Hl Hu. rewrite PCG32_Facts.iter_next32 by done.
  by apply PCG32_Facts.advance_steps.
Qed.

Lemma PCG32_advance_skips_draws_witness :
  (0 <= 1000 < 2 ^ 64 /\ (0 < length More_Examples.pcg_seeded)%nat /\
   is_u64 (More_Examples.pcg_seeded !!! 0%nat)) /\
  PCG32.advance 1000 More_Examples.pcg_seeded
  = Some (Nat.iter 1000 (fun s => snd (PCG32.next32 s)) More_Examples.pcg_seeded).
Proof.
  assert (0 <= 1000 < 2 ^ 64) as H1 by lia.
  assert (0 < length More_Examples.pcg_seeded)%nat as H2 by (vm_compute; lia).
  assert (is_u64 (More_Examples.pcg_seeded !!! 0%nat)) as H3 by by_evaluation.
  split; [exact (conj H1 (conj H2 H3))|].
  exact (PCG32_advance_skips_draws 1000 _ H1 H2 H3).
Defined.

(** X17.  [PCG32::next32()] returns a 32-bit value, the xor-shifted high
    bits of the state rotated right by the state's top five bits, and
    [next()] is two [next32()] draws, the first in the high half; it
    leaves the state two steps on, where [advance(2)] does.  The
    constructor leaves a state of one 64-bit word. *)
Theorem PCG32_next_is_two_draws st :
  (0 < length st)%nat -> is_u64 (st !!! 0%nat) ->
  let '(high, st1) := PCG32.next32 st in
  let '(low, st2) := PCG32.next32 st1 in
  (is_u32 high /\ is_u32 low) /\
  PCG32.next st = (high * 2 ^ 32 + low, st2) /\
  PCG32.advance 2 st = Some (snd (PCG32.next st)) /\
  (forall seed,
     length (PCG32.from_seed seed) = 1%nat /\
     is_u64 (PCG32.from_seed seed !!! 0%nat)).
Proof.
  intros Hl Hu.
  pose proof (PCG32_Facts.next_two_draws st Hl Hu) as H.
  pose proof (PCG32_Facts.advance_steps 2 st ltac:(lia) Hu) as Ha.
  destruct (PCG32.next32 st) as [high st1].
  destruct (PCG32.next32 st1) as [low st2].
  destruct H as (Hh & Hlo & Hn & Hs).
  split; [done|]. split; [done|]. split.
  - rewrite Hn. cbn [snd]. rewrite Ha, Hs. reflexivity.
  - intros seed. rewrite PCG32_Facts.from_seed_state. split; [reflexivity|].
    apply PCG32_Facts.step_u64.
Qed.

Lemma PCG32_next_is_two_draws_witness :
  ((0 < length More_Examples.pcg_seeded)%nat /\
   is_u64 (More_Examples.pcg_seeded !!! 0%nat)) /\
  PCG32.advance 2 More_Examples.pcg_seeded
  = Some (snd (PCG32.next More_Examples.pcg_seeded)).
Proof.
  assert (0 < length More_Examples.pcg_seeded)%nat as H1 by (vm_compute; lia).
  assert (is_u64 (More_Examples.pcg_seeded !!! 0%nat)) as H2 by by_evaluation.
  split; [exact (conj H1 H2)|].
  pose proof (PCG32_next_is_two_draws More_Examples.pcg_seeded H1 H2) as H.
  destruct (PCG32.next32 More_Examples.pcg_seeded) as [high st1].
  destruct (PCG32.next32 st1) as [low st2].
  exact (proj1 (proj2 (proj2 H))).
Defined.

(** X18.  [rotl] on a 64-bit word, for a count strictly between 0 and 64,
    is a rotation: the result is a 64-bit word, its high part is the low
    [64 - k] bits of [x] and its low part the high [k] bits of [x], and
    rotating on by [64 - k] gives [x] back. *)
Theorem rotl64_is_a_rotation x k :
  0 < k < 64 -> is_u64 x ->
  is_u64 (rotl64 x k) /\
  rotl64 x k = (x mod 2 ^ (64 - k)) * 2 ^ k + x / 2 ^ (64 - k) /\
  rotl64 (rotl64 x k) (64 - k) = x.
Proof.
  intros Hk Hx. split; [by apply Engines64_Facts.rotl64_u64|].
  split; [apply (Engines64_Facts.rotl64_split x k Hk Hx)|].
  by apply Engines64_Facts.rotl64_rotl64_inverse.
Qed.

Lemma rotl64_is_a_rotation_witness :
  (0 < 45 < 64 /\ is_u64 0x8000000000000001) /\
  rotl64 0x8000000000000001 45 = 0x0000300000000000 /\
  rotl64 (rotl64 0x8000000000000001 45) (64 - 45) = 0x8000000000000001.
Proof.
  assert (0 < 45 < 64) as H1 by lia.
  assert (is_u64 0x8000000000000001) as H2 by (unfold is_u64; lia).
  pose proof (rotl64_is_a_rotation 0x8000000000000001 45 H1 H2) as (_ & _ & Hinv).
  split; [exact (conj H1 H2)|]. split; [reflexivity|exact Hinv].
Defined.

(** X19.  [splitmix64] returns a 64-bit value for every seed, and two
    different 64-bit seeds never give the same value. *)
Theorem splitmix64_one_to_one a b :
  is_u64 a -> is_u64 b -> a <> b ->
  is_u64 (splitmix64 a) /\ splitmix64 a <> splitmix64 b.
Proof.
  intros Ha Hb Hne. split; [apply Engines64_Facts.splitmix64_u64|].
  intros E. apply Hne. by apply Engines64_Facts.splitmix64_inj.
Qed.

Lemma splitmix64_one_to_one_witness :
  (is_u64 0 /\ is_u64 1 /\ 0 <> 1) /\
  is_u64 (splitmix64 0) /\ splitmix64 0 <> splitmix64 1.
Proof.
  assert (is_u64 0) as H1 by (unfold is_u64; lia).
  assert (is_u64 1) as H2 by (unfold is_u64; lia).
  assert (0 <> 1) as H3 by lia.
  split; [exact (conj H1 (conj H2 H3))|].
  exact (splitmix64_one_to_one 0 1 H1 H2 H3).
Defined.

(** X20.  When [__TIME__] shows the hour, the minute and the second of a
    time of day, each as two decimal digits, [compile_time()] is the
    number of seconds since midnight: no step of it wraps, and it is below
    86400. *)
Theorem compile_time_is_seconds_since_midnight time h m s :
  0 <= h < 24 -> 0 <= m < 60 -> 0 <= s < 60 ->
  Utils64_Doc.clock_shows time h m s ->
  compile_time time = 3600 * h + 60 * m + s /\
  0 <= compile_time time < 86400.
Proof.
  intros Hh Hm Hs Hshows.
  rewrite (Engines64_Facts.compile_time_seconds time h m s) by (done || lia).
  split; [reflexivity|lia].
Qed.

Lemma compile_time_is_seconds_since_midnight_witness :
  (0 <= 23 < 24 /\ 0 <= 59 < 60 /\ 0 <= 58 < 60 /\
   Utils64_Doc.clock_shows More_Examples.late_build 23 59 58) /\
  compile_time More_Examples.late_build = 86398.
Proof.
  assert (0 <= 23 < 24) as H1 by lia.
  assert (0 <= 59 < 60) as H2 by lia.
  assert (0 <= 58 < 60) as H3 by lia.
  assert (Utils64_Doc.clock_shows More_Examples.late_build 23 59 58) as H4
    by (repeat split; reflexivity).
  split; [exact (conj H1 (conj H2 (conj H3 H4)))|].
  exact (proj1 (compile_time_is_seconds_since_midnight _ 23 59 58 H1 H2 H3 H4)).
Defined.

(** X21.  For each of the nine shift-and-xor engines, the constructor
    builds a state of [STATE_SIZE] 64-bit words from any seed, such a
    state stays one under every number of [next()] calls, and every value
    [next()] returns fits in 64 bits. *)
Theorem xor_engines_keep_64_bit_words e :
  In e Engines64.xor_engines ->
  (forall seed,
     words64 (Engines64.STATE_SIZE e) (Engines64.from_seed e seed)) /\
  (forall st n,
     words64 (Engines64.STATE_SIZE e) st ->
     words64 (Engines64.STATE_SIZE e) (Engines64.after e n st) /\
     is_u64 (Engines64.output e n st)).
Proof.
  intros He. split.
  - intros seed. by apply Engines64_Facts.from_seed_words.
  - intros st n Hst. split; [by apply Engines64_Facts.after_words|].
    by apply Engines64_Facts.next_value_u64.
Qed.

Lemma xor_engines_keep_64_bit_words_witness :
  In Engines64.xoroshiro128pp Engines64.xor_engines /\
  words64 2 (Engines64.after Engines64.xoroshiro128pp 5
               (Xoroshiro128pp.from_seed 42)) /\
  is_u64 (Engines64.output Engines64.xoroshiro128pp 5
            (Xoroshiro128pp.from_seed 42)).
Proof.
  assert (In Engines64.xoroshiro128pp Engines64.xor_engines) as H1
    by (right; left; reflexivity).
  split; [exact H1|].
  pose proof (xor_engines_keep_64_bit_words _ H1) as (Hseed & Hafter).
  exact (Hafter _ 5%nat (Hseed 42)).
Defined.

(** X22.  For each of the nine shift-and-xor engines, [next()] moves the
    state one-to-one: two different states of 64-bit words are still
    different after any number of calls. *)
Theorem xor_engines_states_stay_apart e st st' n :
  In e Engines64.xor_engines ->
  words64 (Engines64.STATE_SIZE e) st ->
  words64 (Engines64.STATE_SIZE e) st' ->
  st <> st' ->
  Engines64.after e n st <> Engines64.after e n st'.
Proof.
  intros He Hst Hst' Hne E. apply Hne.
  by apply (Engines64_Facts.after_inj e n).
Qed.

Lemma xor_engines_states_stay_apart_witness :
  (In Engines64.xorshift128plus Engines64.xor_engines /\
   words64 2 More_Examples.two_words /\
   words64 2 More_Examples.two_words' /\
   More_Examples.two_words <> More_Examples.two_words') /\
  Engines64.after Engines64.xorshift128plus 4 More_Examples.two_words
  <> Engines64.after Engines64.xorshift128plus 4 More_Examples.two_words'.
Proof.
  assert (In Engines64.xorshift128plus Engines64.xor_engines) as H1
    by (do 6 right; left; reflexivity).
  assert (words64 2 More_Examples.two_words) as H2
    by (apply Engines64_Facts.words64_intro_2; unfold is_u64; lia).
  assert (words64 2 More_Examples.two_words') as H3
    by (apply Engines64_Facts.words64_intro_2; unfold is_u64; lia).
  assert (More_Examples.two_words <> More_Examples.two_words') as H4
    by discriminate.
  split; [exact (conj H1 (conj H2 (conj H3 H4)))|].
  exact (xor_engines_states_stay_apart _ _ _ 4%nat H1 H2 H3 H4).
Defined.

(** X23.  For each of the nine shift-and-xor engines, the state of all
    zero words is stuck: [next()] returns 0 and leaves it as it is, call
    after call. *)
Theorem xor_engines_zero_state_is_stuck e n :
  In e Engines64.xor_engines ->
  Engines64.after e n (Engines64.zero_state e) = Engines64.zero_state e /\
  Engines64.output e n (Engines64.zero_state e) = 0.
Proof.
  intros He. unfold Engines64.output.
  rewrite Engines64_Facts.after_zero by done.
  by rewrite Engines64_Facts.next_zero.
Qed.

Lemma xor_engines_zero_state_is_stuck_witness :
  In Engines64.xoshiro256pp Engines64.xor_engines /\
  Engines64.after Engines64.xoshiro256pp 1000 [0; 0; 0; 0] = [0; 0; 0; 0] /\
  Engines64.output Engines64.xoshiro256pp 1000 [0; 0; 0; 0] = 0.
Proof.
  assert (In Engines64.xoshiro256pp Engines64.xor_engines) as H1
    by (do 4 right; left; reflexivity).
  split; [exact H1|].
  exact (xor_engines_zero_state_is_stuck _ 1000%nat H1).
Defined.

(** X24.  An engine built from a 64-bit seed never is in the stuck state:
    the constructor does not build the state of all zero words, and no
    number of [next()] calls leads to it. *)
Theorem xor_engines_seeded_never_stuck e seed n :
  In e Engines64.xor_engines -> is_u64 seed ->
  Engines64.after e n (Engines64.from_seed e seed) <> Engines64.zero_state e.
Proof.
  intros He Hseed E.
  apply (Engines64_Facts.from_seed_not_zero e seed He Hseed).
  apply (Engines64_Facts.after_inj e n); [done| |by apply Engines64_Facts.zero_state_words|].
  - by apply Engines64_Facts.from_seed_words.
  - by rewrite Engines64_Facts.after_zero.
Qed.

Lemma xor_engines_seeded_never_stuck_witness :
  (In Engines64.xoroshiro128p Engines64.xor_engines /\ is_u64 42) /\
  Engines64.after Engines64.xoroshiro128p 7 More_Examples.xoroshiro_seeded
  <> [0; 0].
Proof.
  assert (In Engines64.xoroshiro128p Engines64.xor_engines) as H1
    by (left; reflexivity).
  assert (is_u64 42) as H2 by (unfold is_u64; lia).
  split; [exact (conj H1 H2)|].
  exact (xor_engines_seeded_never_stuck _ 42 7%nat H1 H2).
Defined.

(** X25.  Two engines of the same class built from different 64-bit
    seeds start in different states and are in different states after
    the same number of [next()] calls. *)
Theorem xor_engines_seeds_stay_apart e seed seed' n :
  In e Engines64.xor_engines -> is_u64 seed -> is_u64 seed' ->
  seed <> seed' ->
  Engines64.after e n (Engines64.from_seed e seed)
  <> Engines64.after e n (Engines64.from_seed e seed').
Proof.
  intros He Hs Hs' Hne E. apply Hne.
  apply (Engines64_Facts.from_seed_inj e); [done..|].
  apply (Engines64_Facts.after_inj e n);
    [done|by apply Engines64_Facts.from_seed_words..|done].
Qed.

Lemma xor_engines_seeds_stay_apart_witness :
  (In Engines64.xoshiro256ss Engines64.xor_engines /\
   is_u64 42 /\ is_u64 43 /\ 42 <> 43) /\
  Engines64.after Engines64.xoshiro256ss 3 More_Examples.xoshiro_seeded
  <> Engines64.after Engines64.xoshiro256ss 3 (Xoshiro256ss.from_seed 43).
Proof.
  assert (In Engines64.xoshiro256ss Engines64.xor_engines) as H1
    by (do 5 right; left; reflexivity).
  assert (is_u64 42) as H2 by (unfold is_u64; lia).
  assert (is_u64 43) as H3 by (unfold is_u64; lia).
  assert (42 <> 43) as H4 by lia.
  split; [exact (conj H1 (conj H2 (conj H3 H4)))|].
  exact (xor_engines_seeds_stay_apart _ 42 43 3%nat H1 H2 H3 H4).
Defined.

(** X26.  Engines that differ only in how [next()] scrambles its result
    walk through the same states: from one state, [Xoroshiro128p] and
    [Xoroshiro128ss] are in the same state after any number of calls, and
    so are [Xoshiro256p], [Xoshiro256pp], [Xoshiro256ss] and
    [Xoshiro256Star]; [Xoshiro256Star] also returns what [Xoshiro256ss]
    returns, and the constructors of each family build the same state. *)
Theorem xor_engines_in_lockstep n st seed :
  (Engines64.after Engines64.xoroshiro128ss n st
   = Engines64.after Engines64.xoroshiro128p n st /\
   Xoroshiro128ss.from_seed seed = Xoroshiro128p.from_seed seed) /\
  (Engines64.after Engines64.xoshiro256p n st
   = Engines64.after Engines64.xoshiro256ss n st /\
   Engines64.after Engines64.xoshiro256pp n st
   = Engines64.after Engines64.xoshiro256ss n st /\
   Engines64.after Engines64.xoshiro256star n st
   = Engines64.after Engines64.xoshiro256ss n st /\
   Xoshiro256p.from_seed seed = Xoshiro256ss.from_seed seed /\
   Xoshiro256pp.from_seed seed = Xoshiro256ss.from_seed seed /\
   Xoshiro256Star.from_seed seed = Xoshiro256ss.from_seed seed) /\
  Engines64.output Engines64.xoshiro256star n st
  = Engines64.output Engines64.xoshiro256ss n st.
Proof.
  assert (Engines64.after Engines64.xoshiro256star n st
          = Engines64.after Engines64.xoshiro256ss n st) as Hstar
    by (by apply Engines64_Facts.after_ext).
  split; [split; [by apply Engines64_Facts.after_ext|reflexivity]|].
  split.
  - split; [by apply Engines64_Facts.after_ext|].
    split; [by apply Engines64_Facts.after_ext|].
    split; [exact Hstar|]. by repeat split.
  - unfold Engines64.output. rewrite Hstar. reflexivity.
Qed.
